(** * VCIDE: the syntax highlighter of the code editor widget

    A shallow embedding of [Page.syntaxHighlight] (IDE/page.py) and of the
    part of the Tk text widget it drives, followed by the properties of the
    highlighting pass.

    Characters are the code points 0..255, which cover the widget's
    [illegals] list; a text is a [list ascii].  Positions in the widget are
    linear offsets from index "1.0"; the column of a position is its
    distance to the start of its line.  Each of these characters takes one
    index position of the widget and one position of a Python string, so a
    column is also an index into the string of its line.  What the keyword
    loops do when that fails, on a character above U+FFFF, is the subject of
    [Utf16] below. *)

From Stdlib Require Import ZArith Ascii String.
From stdpp Require Import base list gmap sets strings.

Definition newline : ascii := "010"%char.
Definition dquote : ascii := "034"%char.
Definition squote : ascii := "'"%char.
Definition hash : ascii := "#"%char.
Definition colon : ascii := ":"%char.
Definition space : ascii := " "%char.

(** A Python string literal as a list of characters. *)
Definition text (s : string) : list ascii := String.list_ascii_of_string s.

(** ** The Tk text widget *)

Module Tk.

(** The four colour tags configured by the constructor of [Page]. *)
Inductive Tag := kw | bi | str | comment.

(** A text widget: the characters typed into it, the insert mark (the
    cursor) and, for every tag, the set of positions that carry it.  The
    widget itself always keeps one more newline after [chars]. *)
Record Text := mkText {
  chars : list ascii;
  insert : nat;
  tag_kw : gset nat;
  tag_bi : gset nat;
  tag_str : gset nat;
  tag_comment : gset nat
}.

Definition content (t : Text) : list ascii := chars t ++ [newline].

(** Index "end": just after the final newline. *)
Definition end_index (t : Text) : nat := length (content t).

Definition tagged (k : Tag) (t : Text) : gset nat :=
  match k with
  | kw => tag_kw t
  | bi => tag_bi t
  | str => tag_str t
  | comment => tag_comment t
  end.

Definition set_tagged (k : Tag) (s : gset nat) (t : Text) : Text :=
  match k with
  | kw => mkText (chars t) (insert t) s (tag_bi t) (tag_str t) (tag_comment t)
  | bi => mkText (chars t) (insert t) (tag_kw t) s (tag_str t) (tag_comment t)
  | str => mkText (chars t) (insert t) (tag_kw t) (tag_bi t) s (tag_comment t)
  | comment => mkText (chars t) (insert t) (tag_kw t) (tag_bi t) (tag_str t) s
  end.

(** *** Index modifiers *)

(** "index +nc": never beyond "end". *)
Definition fwd (t : Text) (i n : nat) : nat := (i + n) `min` end_index t.

(** "index -nc": never before "1.0". *)
Definition back (i n : nat) : nat := i - n.

Fixpoint linestart_in (s : list ascii) (i : nat) : nat :=
  match i with
  | 0 => 0
  | S j =>
      match s !! j with
      | Some c => if decide (c = newline) then S j else linestart_in s j
      | None => linestart_in s j
      end
  end.

(** Number of characters before the first newline of [s]. *)
Fixpoint line_rest (s : list ascii) : nat :=
  match s with
  | [] => 0
  | c :: s' => if decide (c = newline) then 0 else S (line_rest s')
  end.

(** "index linestart" and "index lineend" (the position of the newline
    that ends the line). *)
Definition linestart (t : Text) (i : nat) : nat := linestart_in (content t) i.
Definition lineend (t : Text) (i : nat) : nat := i + line_rest (drop i (content t)).

(** The column of "line.column"; with one position per character it is
    also the Python index of the character in the string of its line. *)
Definition column (t : Text) (i : nat) : nat := i - linestart t i.

(** "index -1l": the same column one line up, or the end of that line when
    it is shorter; on the first line the index stays where it is. *)
Definition line_up (t : Text) (i : nat) : nat :=
  match linestart t i with
  | 0 => i
  | S e => (linestart t e + column t i) `min` e
  end.

(** *** Reading *)

(** [get index1 index2] and [get index]. *)
Definition get (t : Text) (i1 i2 : nat) : list ascii :=
  take (i2 - i1) (drop i1 (content t)).
Definition get_char (t : Text) (i : nat) : list ascii :=
  take 1 (drop i (content t)).

(** *** Searching *)

Fixpoint starts_with (pat s : list ascii) : bool :=
  match pat, s with
  | [], _ => true
  | _ :: _, [] => false
  | p :: pat', c :: s' => if decide (p = c) then starts_with pat' s' else false
  end.

(** First position at or after [i] where [pat] occurs, [s] being the text
    from position [i] on. *)
Fixpoint find_from (pat s : list ascii) (i : nat) : option nat :=
  if starts_with pat s then Some i
  else match s with
       | [] => None
       | _ :: s' => find_from pat s' (S i)
       end.

(** [search pattern index stopindex]: forward exact search; a match that
    starts at or after [stopindex] is not considered and the search does
    not wrap around.  [None] is the empty string Tk returns; the matched
    length stored through [count=] is the length of the pattern. *)
Definition search (t : Text) (pat : list ascii) (start stop : nat) : option nat :=
  match find_from pat (drop start (content t)) start with
  | Some i => if decide (i < stop) then Some i else None
  | None => None
  end.

(** *** Tags *)

(** [tag_add tag index1 index2]: the characters from [index1] up to, not
    including, [index2]. *)
Definition tag_add (k : Tag) (i1 i2 : nat) (t : Text) : Text :=
  set_tagged k (tagged k t ∪ set_seq i1 ((i2 `min` end_index t) - i1)) t.

Definition tag_remove (k : Tag) (i1 i2 : nat) (t : Text) : Text :=
  set_tagged k (tagged k t ∖ set_seq i1 (i2 - i1)) t.

(** *** Inserting *)

(** Tags travel with their characters; the new characters take a tag only
    when the characters on both sides of the insertion point carry it. *)
Definition shift_tags (s : gset nat) (i n : nat) : gset nat :=
  filter (λ p, p < i) s
  ∪ set_map (λ p, p + n) (filter (λ p, i ≤ p) s)
  ∪ (if bool_decide (0 < i ∧ i - 1 ∈ s ∧ i ∈ s) then set_seq i n else ∅).

(** [insert "insert" chars]: the insert mark ends up after the new text. *)
Definition insert_at_cursor (cs : list ascii) (t : Text) : Text :=
  let i := insert t `min` length (chars t) in
  let n := length cs in
  mkText (take i (chars t) ++ cs ++ drop i (chars t)) (i + n)
         (shift_tags (tag_kw t) i n) (shift_tags (tag_bi t) i n)
         (shift_tags (tag_str t) i n) (shift_tags (tag_comment t) i n).

(** The widget's own invariant: only its characters carry tags. *)
Definition wf (t : Text) : Prop :=
  ∀ k p, p ∈ tagged k t → p < end_index t.

(** A widget that holds [cs], with the cursor at [i] and no tags. *)
Definition untagged (cs : list ascii) (i : nat) : Text := mkText cs i ∅ ∅ ∅ ∅.

End Tk.

(** ** Python values used by the method *)

(** How a pass ends: normally, with the [IndexError] of an out-of-range
    subscript, or without an answer within the given number of loop
    iterations. *)
Inductive outcome (A : Type) :=
  | Done (a : A)
  | IndexError
  | OutOfFuel.
Arguments Done {A} a.
Arguments IndexError {A}.
Arguments OutOfFuel {A}.

#[global] Instance outcome_ret : MRet outcome := λ A a, Done a.
#[global] Instance outcome_bind : MBind outcome := λ A B f m,
  match m with
  | Done a => f a
  | IndexError => IndexError
  | OutOfFuel => OutOfFuel
  end.

Module Py.

(** [line[i]]: a negative index counts from the end of the string. *)
Definition subscript (line : list ascii) (i : Z) : outcome ascii :=
  let n := Z.of_nat (length line) in
  let j := if (i <? 0)%Z then (i + n)%Z else i in
  if ((0 <=? j) && (j <? n))%Z
  then match line !! Z.to_nat j with
       | Some c => Done c
       | None => IndexError
       end
  else IndexError.

(** [s.count(c)] for a one-character [c]. *)
Definition count (s : list ascii) (c : ascii) : nat :=
  length (filter (λ x, x = c) s).

(** The characters [str.lstrip()] removes. *)
Definition isspace (c : ascii) : bool :=
  let n := nat_of_ascii c in
  ((9 <=? n) && (n <=? 13)) || ((28 <=? n) && (n <=? 32))
  || (n =? 133) || (n =? 160).

Fixpoint lstrip (s : list ascii) : list ascii :=
  match s with
  | [] => []
  | c :: s' => if isspace c then lstrip s' else s
  end.

(** [s * n] *)
Definition mul (s : list ascii) (n : nat) : list ascii :=
  mjoin (replicate n s).

(** A truth value together with the indices that were subscripted to
    compute it, in order. *)
Definition Checked : Type := outcome bool * list Z.

Definition const (b : bool) : Checked := (Done b, []).

(** [x or y] and [x and y] evaluate [y] only when [x] does not decide. *)
Definition or_ (x y : Checked) : Checked :=
  match x with
  | (Done false, l) => (y.1, l ++ y.2)
  | _ => x
  end.

Definition and_ (x y : Checked) : Checked :=
  match x with
  | (Done true, l) => (y.1, l ++ y.2)
  | _ => x
  end.

End Py.


(** ** The code editor widget *)

Module Page.
Import Tk Py.

(** Characters that cannot be used in identifiers (class attribute
    [Page.illegals]); "172" and "166" are the not sign and the broken bar. *)
Definition illegals : list ascii :=
  [ "`"; "172"; "166"; "!"; "034"; "%"; "^"; "&"; "*"; "("; ")"; "-"; " ";
    "+"; "="; "["; "]"; "{"; "}"; "'"; "@"; ":"; ";"; "#"; "~"; "/"; "?";
    ","; "<"; "."; ">"; "\"; "|" ]%char.

(** The dictionary read from resources/syntax.json into [Page.syntax]: the
    file is not part of the sources, so its two lists are parameters of the
    pass. *)
Record Syntax := mkSyntax {
  keywords : list (list ascii);
  builtins : list (list ascii)
}.

(** A Tkinter key event, as far as the method reads it. *)
Record Event := mkEvent { keysym : string }.

(** [line[i] in Page.illegals] *)
Definition in_illegals (line : list ascii) (i : Z) : Checked :=
  (c ← subscript line i; mret (bool_decide (c ∈ illegals)), [i]).

(** The condition under which a match is tagged (lines 286-298 and 326-340):
    [col] is [int(index.split(".")[1])] and [len] is [length.get()]. *)
Definition boundary (line : list ascii) (col len : nat) : Checked :=
  let c := Z.of_nat col in
  let n := Z.of_nat len in
  or_ (and_ (const (col =? 0)) (const (length line =? col + len)))
 (or_ (and_ (const (col =? 0)) (in_illegals line (c + n)))
 (or_ (and_ (const (length line =? col + len)) (in_illegals line (c - 1)))
      (and_ (and_ (const (negb (col =? 0))) (const (col + len <? length line)))
            (and_ (in_illegals line (c - 1)) (in_illegals line (c + n)))))).

(** One iteration of a token loop, as a record of what it did: where the
    search resumed (mark "b"), the match it found, the indices of the line it
    subscripted and whether it added the tag.  The records are kept for the
    statements below only; the program does not build them. *)
Record Visit := mkVisit {
  v_from : nat;
  v_index : nat;
  v_lookups : list Z;
  v_tagged : bool
}.

(** The [while True] loop for one token (lines 272-299 and 312-341); the
    marks "a" and "b" are the loop's variables. *)
Fixpoint token_loop (fuel : nat) (k : Tag) (tok : list ascii) (b : nat) (t : Text)
  : outcome (Text * list Visit) :=
  match fuel with
  | 0 => OutOfFuel
  | S fuel =>
      match search t tok b (end_index t) with
      | None => mret (t, [])
      | Some index =>
          let len := length tok in
          let line := get t (linestart t index) (lineend t index) in
          let a := index in
          let b' := fwd t index len in
          let chk := boundary line (column t index) len in
          ok ← chk.1;
          let t := if ok : bool then tag_add k a b' t else t in
          '(t, vs) ← token_loop fuel k tok b' t;
          mret (t, mkVisit b index chk.2 ok :: vs)
      end
  end.

(** Every loop of the pass moves mark "b" forward on each iteration, so it
    ends within one iteration per character and one more. *)
Definition fuel_of (t : Text) : nat := end_index t.

Definition token_scan (k : Tag) (tok : list ascii) (t : Text)
  : outcome (Text * list Visit) :=
  token_loop (fuel_of t) k tok 0 t.

(** [for kw in Page.syntax["keywords"]] and [for bi in Page.syntax["builtins"]] *)
Fixpoint token_pass (k : Tag) (toks : list (list ascii)) (t : Text) : outcome Text :=
  match toks with
  | [] => mret t
  | tok :: toks =>
      '(t, _) ← token_scan k tok t;
      token_pass k toks t
  end.

(** One iteration of a quote loop: where the search resumed, the opening
    quote, the closing quote if the line has one, the end of the tagged span
    and the value of mark "b" at the end of the iteration. *)
Record Quoted := mkQuoted {
  q_from : nat;
  q_open : nat;
  q_close : option nat;
  q_end : nat;
  q_resume : nat
}.

(** The string loops (lines 351-373 and 383-406), for the quote [q]. *)
Fixpoint quote_loop (fuel : nat) (q : ascii) (b : nat) (t : Text)
  : outcome (Text * list Quoted) :=
  match fuel with
  | 0 => OutOfFuel
  | S fuel =>
      match search t [q] b (end_index t) with
      | None => mret (t, [])
      | Some index =>
          let a := index in
          let b0 := lineend t index in
          match search t [q] (fwd t a 1) b0 with
          | None =>
              let e := lineend t a in
              let t := tag_add str a e t in
              '(t, qs) ← quote_loop fuel q b0 t;
              mret (t, mkQuoted b a None e b0 :: qs)
          | Some index =>
              let b1 := index in
              let e := fwd t b1 1 in
              let t := tag_add str a e t in
              let b2 := fwd t index 1 in
              '(t, qs) ← quote_loop fuel q b2 t;
              mret (t, mkQuoted b a (Some index) e b2 :: qs)
          end
      end
  end.

Definition quote_scan (q : ascii) (t : Text) : outcome (Text * list Quoted) :=
  quote_loop (fuel_of t) q 0 t.

(** One iteration of the comment loop: where the search resumed, the hash
    sign found and whether it started a comment. *)
Record Hash := mkHash {
  h_from : nat;
  h_index : nat;
  h_comment : bool
}.

(** The comment loop (lines 416-432). *)
Fixpoint comment_loop (fuel : nat) (b : nat) (t : Text) : outcome (Text * list Hash) :=
  match fuel with
  | 0 => OutOfFuel
  | S fuel =>
      match search t [hash] b (end_index t) with
      | None => mret (t, [])
      | Some index =>
          if (count (get t (linestart t index) index) dquote mod 2 =? 0)
             && (count (get t (linestart t index) index) squote mod 2 =? 0)
          then
            let a := index in
            let b' := lineend t index in
            let t := tag_remove str a b' t in
            let t := tag_add comment a b' t in
            '(t, hs) ← comment_loop fuel b' t;
            mret (t, mkHash b index true :: hs)
          else
            let b' := fwd t index 1 in
            '(t, hs) ← comment_loop fuel b' t;
            mret (t, mkHash b index false :: hs)
      end
  end.

Definition comment_scan (t : Text) : outcome (Text * list Hash) :=
  comment_loop (fuel_of t) 0 t.

(** The automatic indentation on the enter key (lines 245-253). *)
Definition auto_indent (event : option Event) (t : Text) : Text :=
  match event with
  | Some ev =>
      if decide (keysym ev = "Return") then
        let prevln := get t (linestart t (back (insert t) 1))
                            (lineend t (back (insert t) 1)) in
        let t := insert_at_cursor
                   (mul (mul [space] 4)
                        ((length prevln - length (lstrip prevln)) / 4)) t in
        if decide (get_char t (back (lineend t (line_up t (insert t))) 1) = [colon])
        then insert_at_cursor (text "    ") t
        else t
      else t
  | None => t
  end.

(** Lines 256-259. *)
Definition clear_tags (t : Text) : Text :=
  tag_remove comment 0 (end_index t)
    (tag_remove str 0 (end_index t)
       (tag_remove bi 0 (end_index t)
          (tag_remove kw 0 (end_index t) t))).

(** [Page.syntaxHighlight(self, event=None)], [t] being [self.text]. *)
Definition syntaxHighlight (syntax : Syntax) (event : option Event) (t : Text)
  : outcome Text :=
  let t := auto_indent event t in
  let t := clear_tags t in
  t ← token_pass kw (keywords syntax) t;
  t ← token_pass bi (builtins syntax) t;
  '(t, _) ← quote_scan dquote t;
  '(t, _) ← quote_scan squote t;
  '(t, _) ← comment_scan t;
  mret t.

End Page.


(** ** Vocabulary of the statements *)

Module Spec.
Import Tk Py Page.

(** [pat] occurs in the widget at position [j]. *)
Definition occurs (t : Text) (pat : list ascii) (j : nat) : Prop :=
  ∀ k, k < length pat → content t !! (j + k) = pat !! k.

(** The text of the line that contains position [i], without its newline
    ([t.get(index + " linestart", index + "lineend")]). *)
Definition line_of (t : Text) (i : nat) : list ascii :=
  get t (linestart t i) (lineend t i).

(** The boundary rule in the words of the specification: a match of length
    [len] at column [col] of [line] is a delimited whole-token occurrence
    when (a) the line equals exactly the matched text, or (b) the match starts
    at column 0 and the character immediately after it is in IllegalSet, or
    (c) the match ends at line length and the character immediately before it
    is in IllegalSet, or (d) the match is interior and both neighbouring
    characters are in IllegalSet. *)
Definition delimited (line : list ascii) (col len : nat) : Prop :=
  line = take len (drop col line)
  ∨ (col = 0 ∧ ∃ c, line !! (col + len) = Some c ∧ c ∈ illegals)
  ∨ (col + len = length line ∧ 0 < col
     ∧ ∃ c, line !! (col - 1) = Some c ∧ c ∈ illegals)
  ∨ (0 < col ∧ col + len < length line
     ∧ (∃ c, line !! (col - 1) = Some c ∧ c ∈ illegals)
     ∧ (∃ c, line !! (col + len) = Some c ∧ c ∈ illegals)).

(** A well-formed catalog token: it is not empty and contains no newline. *)
Definition valid_token (tok : list ascii) : Prop :=
  tok ≠ [] ∧ newline ∉ tok.

#[global] Instance valid_token_dec tok : Decision (valid_token tok).
Proof. unfold valid_token. apply _. Defined.

Definition valid_syntax (syntax : Syntax) : Prop :=
  Forall valid_token (keywords syntax) ∧ Forall valid_token (builtins syntax).

#[global] Instance valid_syntax_dec syntax : Decision (valid_syntax syntax).
Proof. unfold valid_syntax. apply _. Defined.

(** The positions tagged by the visits of one token loop. *)
Definition visit_span (len : nat) (v : Visit) : gset nat :=
  if v_tagged v then set_seq (v_index v) len else ∅.

Definition visit_spans (len : nat) (vs : list Visit) : gset nat :=
  ⋃ (visit_span len <$> vs).

(** Each search of a loop starts where the previous iteration left mark
    "b", the first one at [b]. *)
Fixpoint resumes {A} (from next : A → nat) (b : nat) (vs : list A) : Prop :=
  match vs with
  | [] => True
  | v :: vs => from v = b ∧ resumes from next (next v) vs
  end.


(** What one iteration of a token loop over the widget [t] did: the match is
    the first one at or after the place where the search resumed, and the
    subscripted indices and the decision are those of the boundary condition
    on the line of the match. *)
Definition visit_ok (t : Text) (tok : list ascii) (v : Visit) : Prop :=
  search t tok (v_from v) (end_index t) = Some (v_index v)
  ∧ v_lookups v = (boundary (line_of t (v_index v)) (column t (v_index v)) (length tok)).2
  ∧ (boundary (line_of t (v_index v)) (column t (v_index v)) (length tok)).1
    = Done (v_tagged v).

(** What one iteration of a quote loop over the widget [t] did. *)
Definition quote_ok (t : Text) (q : ascii) (r : Quoted) : Prop :=
  search t [q] (q_from r) (end_index t) = Some (q_open r)
  ∧ q_close r = search t [q] (q_open r + 1) (lineend t (q_open r))
  ∧ q_end r = match q_close r with
              | Some c => c + 1
              | None => lineend t (q_open r)
              end
  ∧ q_resume r = q_end r.

Definition quote_span (r : Quoted) : gset nat :=
  set_seq (q_open r) (q_end r - q_open r).

Definition quote_spans (qs : list Quoted) : gset nat :=
  ⋃ (quote_span <$> qs).

(** [get(index + " linestart", index)] has an even number of both quotes. *)
Definition even_quotes (t : Text) (i : nat) : bool :=
  (count (get t (linestart t i) i) dquote mod 2 =? 0)
  && (count (get t (linestart t i) i) squote mod 2 =? 0).

(** What one iteration of the comment loop over the widget [t] did. *)
Definition hash_ok (t : Text) (h : Hash) : Prop :=
  search t [hash] (h_from h) (end_index t) = Some (h_index h)
  ∧ h_comment h = even_quotes t (h_index h).

Definition hash_resume (t : Text) (h : Hash) : nat :=
  if h_comment h then lineend t (h_index h) else h_index h + 1.

Definition hash_span (t : Text) (h : Hash) : gset nat :=
  if h_comment h
  then set_seq (h_index h) (lineend t (h_index h) - h_index h)
  else ∅.

Definition hash_spans (t : Text) (hs : list Hash) : gset nat :=
  ⋃ (hash_span t <$> hs).

(** Modelled from the spec: resources/syntax.json is not among the sources;
    the catalog used in the examples holds the keywords that section 8 of
    the specification names ([for], [def] and [return]) and no builtin. *)
Definition spec_syntax : Syntax :=
  mkSyntax [text "for"; text "def"; text "return"] [].

(** The positions that carry tag [k] after a pass without event over a
    widget that holds [cs]. *)
Definition highlighted (syntax : Syntax) (cs : list ascii) (k : Tag)
  : outcome (gset nat) :=
  t ← syntaxHighlight syntax None (untagged cs 0); mret (tagged k t).

(** The positions from [i] up to, not including, [j]. *)
Definition span (i j : nat) : gset nat := set_seq i (j - i).

(** The length of the leading whitespace run of a line. *)
Fixpoint leading_whitespace (s : list ascii) : nat :=
  match s with
  | [] => 0
  | c :: s' => if isspace c then S (leading_whitespace s') else 0
  end.

(** The number of spaces the specification asks for after the line [prev]:
    floor(L/4)*4, and 4 more when the line ends in a colon. *)
Definition indent_of (prev : list ascii) : nat :=
  leading_whitespace prev / 4 * 4
  + (if decide (last prev = Some colon) then 4 else 0).

(** A token written with identifier characters only, and a catalog of such
    tokens in which no keyword is also a builtin. *)
Definition identifier_token (tok : list ascii) : Prop :=
  valid_token tok ∧ ∀ c, c ∈ tok → c ∉ illegals.

Definition separate_syntax (syntax : Syntax) : Prop :=
  Forall identifier_token (keywords syntax)
  ∧ Forall identifier_token (builtins syntax)
  ∧ ∀ tok, tok ∈ keywords syntax → tok ∉ builtins syntax.

(** A catalog written with identifier characters only. *)
Definition identifier_syntax (syntax : Syntax) : Prop :=
  Forall identifier_token (keywords syntax)
  ∧ Forall identifier_token (builtins syntax).

(** Position [p] lies in a delimited occurrence of one of the tokens. *)
Definition whole_word (t : Text) (toks : list (list ascii)) (p : nat) : Prop :=
  ∃ tok j, tok ∈ toks ∧ occurs t tok j
           ∧ delimited (line_of t j) (column t j) (length tok)
           ∧ j ≤ p < j + length tok.

(** The number of quotes [q] before position [p] on the line of [p]. *)
Definition quotes_before (t : Text) (q : ascii) (p : nat) : nat :=
  count (get t (linestart t p) p) q.

(** Position [p] is a character of a line, other than its newline, and an
    odd number of quotes [q] stand before it on the line or it is such a
    quote itself. *)
Definition in_quotes (t : Text) (q : ascii) (p : nat) : Prop :=
  p < length (chars t) ∧ content t !! p ≠ Some newline
  ∧ (quotes_before t q p mod 2 = 1 ∨ content t !! p = Some q).

(** Position [p] is at or after a hash sign of its line that has an even
    number of both quotes before it. *)
Definition in_comment (t : Text) (p : nat) : Prop :=
  ∃ i, i ≤ p < lineend t i ∧ content t !! i = Some hash ∧ even_quotes t i = true.

(** Where a quote loop may resume: after an even number of quotes of the
    line, or at the end of a line. *)
Definition quote_inv (t : Text) (q : ascii) (b : nat) : Prop :=
  quotes_before t q b mod 2 = 0 ∨ content t !! b = Some newline.

(** The pass is invoked without an event or for a key other than the enter
    key. *)
Definition not_return (event : option Event) : Prop :=
  ∀ ev, event = Some ev → keysym ev ≠ "Return".

End Spec.


(** ** Pages in the notebook *)

Module Editor.
Import Tk Py Page.

(** [s.split(sep)] for a one-character [sep]. *)
Fixpoint split (sep : ascii) (s : list ascii) : list (list ascii) :=
  match s with
  | [] => [[]]
  | c :: s' =>
      if decide (c = sep) then [] :: split sep s'
      else match split sep s' with
           | w :: ws => (c :: w) :: ws
           | [] => [[c]]
           end
  end.

(** [path.split("/")[-1] if "/" in path else path] *)
Definition basename (path : list ascii) : list ascii :=
  if bool_decide ("/"%char ∈ path)
  then default [] (last (split "/" path))
  else path.

(** What the widget takes of a Python string: the characters before its
    first NUL. *)
Fixpoint until_nul (cs : list ascii) : list ascii :=
  match cs with
  | [] => []
  | c :: cs' => if decide (c = "000"%char) then [] else c :: until_nul cs'
  end.

(** [insert index chars] at any index, with a string that may hold a NUL:
    marks at or after the index move with the text behind it. *)
Definition insert_text (i0 : nat) (cs : list ascii) (t : Text) : Text :=
  let i := i0 `min` length (chars t) in
  let cs := until_nul cs in
  let n := length cs in
  mkText (take i (chars t) ++ cs ++ drop i (chars t))
         (if decide (i ≤ insert t) then insert t + n else insert t)
         (shift_tags (tag_kw t) i n) (shift_tags (tag_bi t) i n)
         (shift_tags (tag_str t) i n) (shift_tags (tag_comment t) i n).

(** [get("1.0", "end-1c")] *)
Definition contents (t : Text) : list ascii := get t 0 (back (end_index t) 1).

(** A [Page] object, with the title the notebook shows for its tab. *)
Record PageObj := mkPage {
  page_text : Text;
  page_path : option (list ascii);
  page_saved : list ascii;
  tab_title : list ascii
}.

(** The notebook and the pages created so far, by widget name. *)
Record World := mkWorld {
  pages : gmap nat PageObj;
  tabs : list nat;
  selected : option nat;
  fresh : nat
}.

(** How [open(path, "w")], [write] and the end of the [with] block went:
    without error, with an error before [self.saved] was assigned, or with
    an error when the file was closed. *)
Inductive WriteResult := Wrote | WriteError | CloseError.

(** How [open(path, "r")] and [file.read()] went: with the text of the
    file, with a [UnicodeDecodeError], or with another error. *)
Inductive ReadResult := Content (cont : list ascii) | DecodeError | OpenError.

(** What the user and the file system answer, in the order asked. *)
Inductive Answer :=
  | SaveAsName (path : list ascii)
  | YesNoCancel (res : option bool)
  | YesNo (res : bool)
  | Written (r : WriteResult)
  | FileRead (r : ReadResult).

(** What the program does to the outside. *)
Inductive Action :=
  | WriteFile (path content : list ascii)
  | ShowError
  | System (command : list ascii)
  | Destroy.

Record State := mkState {
  world : World;
  script : list Answer;
  trace : list Action
}.

(** Why a call does not return: the script holds no answer to its question,
    it raises a [TypeError] or the [IndexError] of a highlighting pass, it
    names a widget that does not exist, or it needs more loop iterations
    than it was given. *)
Inductive failure :=
  | NoAnswer
  | TypeError
  | HighlightError
  | NoSuchPage
  | FuelOut.

Inductive result (A : Type) :=
  | Ret (a : A) (s : State)
  | Fail (f : failure).
Arguments Ret {A} a s.
Arguments Fail {A} f.

Definition M (A : Type) : Type := State → result A.

#[global] Instance M_ret : MRet M := λ A a s, Ret a s.
#[global] Instance M_bind : MBind M := λ A B f m s,
  match m s with
  | Ret a s' => f a s'
  | Fail e => Fail e
  end.

Definition fail {A} (f : failure) : M A := λ _, Fail f.

(** The next answer of the script. *)
Definition answer : M Answer := λ s,
  match script s with
  | [] => Fail NoAnswer
  | a :: rest => Ret a (mkState (world s) rest (trace s))
  end.

Definition act (a : Action) : M unit := λ s,
  Ret () (mkState (world s) (script s) (trace s ++ [a])).

Definition get_world : M World := λ s, Ret (world s) s.

Definition put_world (w : World) : M unit := λ s,
  Ret () (mkState w (script s) (trace s)).

Definition the_page (self : nat) : M PageObj :=
  w ← get_world;
  match pages w !! self with
  | Some p => mret p
  | None => fail NoSuchPage
  end.

Definition set_page (self : nat) (p : PageObj) : M unit :=
  w ← get_world;
  put_world (mkWorld (<[self := p]> (pages w)) (tabs w) (selected w) (fresh w)).

(** [filedialog.asksaveasfilename(...)]: the empty string when the dialogue
    is closed. *)
Definition asksaveasfilename : M (list ascii) :=
  a ← answer;
  match a with
  | SaveAsName p => mret p
  | _ => fail NoAnswer
  end.

Definition askyesnocancel : M (option bool) :=
  a ← answer;
  match a with
  | YesNoCancel r => mret r
  | _ => fail NoAnswer
  end.

Definition askyesno : M bool :=
  a ← answer;
  match a with
  | YesNo r => mret r
  | _ => fail NoAnswer
  end.

(** [with open(self.path, "w") as file: file.write(content)], as far as the
    program can tell; [open(None, "w")] raises at once. *)
Definition write_file (path : option (list ascii)) (content : list ascii)
  : M WriteResult :=
  match path with
  | None => mret WriteError
  | Some path =>
      _ ← act (WriteFile path content);
      a ← answer;
      match a with
      | Written r => mret r
      | _ => fail NoAnswer
      end
  end.

(** [Page.save(self, saveAs=False)]; the value is [true] for [True] and
    [false] for [None]. *)
Fixpoint save (fuel : nat) (self : nat) (saveAs : bool) : M bool :=
  match fuel with
  | 0 => fail FuelOut
  | S fuel =>
      p ← the_page self;
      cancelled ←
        (if bool_decide (page_path p = None) || saveAs then
           path ← asksaveasfilename;
           if decide (path = []) then mret true
           else
             _ ← set_page self
                   (mkPage (page_text p) (Some path) (page_saved p) (basename path));
             mret false
         else mret false);
      if cancelled : bool then mret true
      else
        p ← the_page self;
        r ← write_file (page_path p) (contents (page_text p));
        match r with
        | Wrote =>
            _ ← set_page self
                  (mkPage (page_text p) (page_path p)
                     (contents (page_text p)) (tab_title p));
            mret false
        | WriteError =>
            _ ← act ShowError;
            _ ← set_page self
                  (mkPage (page_text p) None (page_saved p) (tab_title p));
            _ ← save fuel self false;
            mret false
        | CloseError =>
            _ ← set_page self
                  (mkPage (page_text p) (page_path p)
                     (contents (page_text p)) (tab_title p));
            _ ← act ShowError;
            _ ← set_page self
                  (mkPage (page_text p) None (contents (page_text p))
                     (tab_title p));
            _ ← save fuel self false;
            mret false
        end
  end.

(** Every retry of [save] first takes an answer from the script, so one
    iteration per answer and one more is enough. *)
Definition save_page (self : nat) (saveAs : bool) : M bool := λ s,
  save (S (length (script s))) self saveAs s.

(** The tabs before the first [self], and those after it. *)
Fixpoint tabs_before (self : nat) (l : list nat) : list nat :=
  match l with
  | [] => []
  | n :: l' => if decide (n = self) then [] else n :: tabs_before self l'
  end.

Fixpoint tabs_after (self : nat) (l : list nat) : list nat :=
  match l with
  | [] => []
  | n :: l' => if decide (n = self) then l' else tabs_after self l'
  end.

(** [Notebook.forget(tab)]: when the selected tab goes, the next one is
    selected, or the one before it when it was the last. *)
Definition forget (self : nat) : M unit :=
  w ← get_world;
  if bool_decide (self ∈ tabs w) then
    let before := tabs_before self (tabs w) in
    let after := tabs_after self (tabs w) in
    let sel :=
      if decide (selected w = Some self)
      then match after with
           | n :: _ => Some n
           | [] => last before
           end
      else selected w in
    put_world (mkWorld (pages w) (before ++ after) sel (fresh w))
  else fail NoSuchPage.

(** [Page(notebook, cont, title, path, textFont)]: the value is the name of
    the new widget. *)
Definition new_page (syntax : Syntax) (cont : option (list ascii))
    (title : list ascii) (path : option (list ascii)) : M nat :=
  w ← get_world;
  let self := fresh w in
  let t0 := untagged [] 0 in
  let t1 := match cont with
            | Some c => insert_text (end_index t0) c t0
            | None => t0
            end in
  let saved := match cont with
               | Some c => c
               | None => []
               end in
  _ ← put_world (mkWorld (<[self := mkPage t1 path saved title]> (pages w))
                   (tabs w ++ [self]) (Some self) (S (fresh w)));
  match syntaxHighlight syntax None t1 with
  | Done t2 => _ ← set_page self (mkPage t2 path saved title); mret self
  | IndexError => fail HighlightError
  | OutOfFuel => fail FuelOut
  end.

(** [Page.close(self)]; the value is [true] for [True] and [false] for
    [None]. *)
Definition close (syntax : Syntax) (self : nat) : M bool :=
  p ← the_page self;
  cancelled ←
    (if bool_decide (contents (page_text p) ≠ page_saved p) then
       res ← askyesnocancel;
       match res with
       | Some true => save_page self false
       | Some false => mret false
       | None => mret true
       end
     else mret false);
  if cancelled : bool then mret true
  else
    _ ← forget self;
    w ← get_world;
    if length (tabs w) =? 0
    then _ ← new_page syntax None (text "Untitled") None; mret false
    else mret false.

(** [Page.run(self)] *)
Definition run (self : nat) : M unit :=
  p ← the_page self;
  go ←
    (if bool_decide (contents (page_text p) ≠ page_saved p)
        || bool_decide (page_path p = None) then
       res ← askyesno;
       if res : bool then
         cancelled ← save_page self false;
         mret (negb cancelled)
       else mret false
     else mret true);
  if go : bool then
    p ← the_page self;
    match page_path p with
    | Some path =>
        act (System (text "start cmd /K py " ++ [dquote] ++ path ++ [dquote]))
    | None => fail TypeError
    end
  else mret ().

(** [App.exit(self)]: the tabs are listed once, before the first is
    closed. *)
Fixpoint exit_loop (syntax : Syntax) (names : list nat) : M unit :=
  match names with
  | [] => act Destroy
  | n :: names =>
      cancelled ← close syntax n;
      if cancelled : bool then mret () else exit_loop syntax names
  end.

Definition exit (syntax : Syntax) : M unit :=
  w ← get_world;
  exit_loop syntax (tabs w).

(** [open(path, "r")] and [file.read()] *)
Definition read_file : M ReadResult :=
  a ← answer;
  match a with
  | FileRead r => mret r
  | _ => fail NoAnswer
  end.

(** The loop of [App.openFile]: the first tab whose page has the path. *)
Fixpoint find_open (path : list ascii) (names : list nat) : M (option nat) :=
  match names with
  | [] => mret None
  | n :: names =>
      p ← the_page n;
      if decide (page_path p = Some path) then mret (Some n)
      else find_open path names
  end.

(** [Notebook.select(tab)] *)
Definition select (n : nat) : M unit :=
  w ← get_world;
  put_world (mkWorld (pages w) (tabs w) (Some n) (fresh w)).

(** [App.openFile(self, path)]. Both [except] branches show an error box;
    [tabs()[0]] of an empty notebook raises inside the [try]. An error of
    the pass inside [Page(...)] is not followed further: [new_page] fails
    there. *)
Definition openFile (syntax : Syntax) (path : list ascii) : M unit :=
  w ← get_world;
  found ← find_open path (tabs w);
  match found with
  | Some n => select n
  | None =>
      r ← read_file;
      match r with
      | Content cont =>
          _ ← new_page syntax (Some cont) (basename path) (Some path);
          w ← get_world;
          match tabs w with
          | first :: _ =>
              p ← the_page first;
              if bool_decide
                   (get (page_text p) 0 (end_index (page_text p)) = [newline])
                 && bool_decide (page_path p = None)
              then forget first
              else mret ()
          | [] => act ShowError
          end
      | DecodeError => act ShowError
      | OpenError => act ShowError
      end
  end.

End Editor.


Module EditorSpec.
Import Tk Py Page Editor.

(** The page is not modified: its text is what was last saved. *)
Definition unmodified (p : PageObj) : Prop :=
  contents (page_text p) = page_saved p.

(** A call changed at most the page object [self]. *)
Definition only_page (self : nat) (w w' : World) : Prop :=
  tabs w' = tabs w ∧ selected w' = selected w ∧ fresh w' = fresh w
  ∧ ∀ n, n ≠ self → pages w' !! n = pages w !! n.

(** The actions [new] are failed or successful writes of [content] and
    error boxes. *)
Definition writes_only (content : list ascii) (new : list Action) : Prop :=
  ∀ a, a ∈ new → a = ShowError ∨ ∃ path, a = WriteFile path content.

(** Where [save] leaves the page [p'] that was [p], with the value [c] it
    returns and the actions [new] it added to the trace. *)
Definition save_post (p : PageObj) (c : bool) (p' : PageObj) (new : list Action)
  : Prop :=
  page_text p' = page_text p
  ∧ writes_only (contents (page_text p)) new
  ∧ (c = true → p' = p ∧ new = [])
  ∧ (c = false →
     (∃ path,
        page_path p' = Some path ∧ unmodified p'
        ∧ last new = Some (WriteFile path (contents (page_text p)))
        ∧ (tab_title p' = basename path
           ∨ (tab_title p' = tab_title p ∧ page_path p = Some path)))
     ∨ (page_path p' = None ∧ last new = Some ShowError)).

(** What Tk keeps true of a notebook: tabs are listed once, each is a page
    that exists, and widget names not yet given out are not in use. *)
Definition world_ok (w : World) : Prop :=
  NoDup (tabs w)
  ∧ ∀ n, n ∈ tabs w → n < fresh w ∧ is_Some (pages w !! n).

(** The tabs that stay when [self] is closed. *)
Definition tabs_without (self : nat) (l : list nat) : list nat :=
  tabs_before self l ++ tabs_after self l.

(** A page as [Page(notebook)] makes it: empty, without a path, titled
    Untitled. *)
Definition blank_page (p : PageObj) : Prop :=
  contents (page_text p) = [] ∧ page_saved p = [] ∧ page_path p = None
  ∧ tab_title p = text "Untitled".

(** No page of the tabs [names] has the path [path]. *)
Definition not_open (path : list ascii) (names : list nat) (w : World) : Prop :=
  ∀ n p, n ∈ names → pages w !! n = Some p → page_path p ≠ Some path.

(** The page that [App.openFile] removes when it is the first tab: empty and
    without a path. *)
Definition placeholder (p : PageObj) : Prop :=
  chars (page_text p) = [] ∧ page_path p = None.

#[global] Instance placeholder_dec p : Decision (placeholder p).
Proof. unfold placeholder. apply _. Defined.

(** The command line [Page.run] hands to the shell. *)
Definition run_command (path : list ascii) : list ascii :=
  text "start cmd /K py " ++ [dquote] ++ path ++ [dquote].

End EditorSpec.


(** ** Voice commands *)

Module Speech.
Import Tk Py Page.

(** [s.replace(old, new)] for a non-empty [old]: the occurrences are taken
    from the left and do not overlap. The next [skip] characters belong to
    an occurrence that is already replaced. *)
Fixpoint replace_from (old new : list ascii) (skip : nat) (s : list ascii)
  : list ascii :=
  match s with
  | [] => []
  | c :: s' =>
      match skip with
      | S k => replace_from old new k s'
      | 0 =>
          if starts_with old s
          then new ++ replace_from old new (length old - 1) s'
          else c :: replace_from old new 0 s'
      end
  end.

Definition replace (old new s : list ascii) : list ascii :=
  replace_from old new 0 s.

(** [s.find(pat)]; [None] is the value -1. *)
Definition find (pat s : list ascii) : option nat := find_from pat s 0.

(** [pat in s] *)
Definition contains (pat s : list ascii) : bool :=
  match find pat s with
  | Some _ => true
  | None => false
  end.

(** What [Speech.recognize] works with: the transcript after
    [.replace("open bracket", "(").replace("close bracket", ")")
     .replace("colon", ":").replace("comma", ",")]. *)
Definition said (transcript : list ascii) : list ascii :=
  replace (text "comma") (text ",")
    (replace (text "colon") (text ":")
       (replace (text "close bracket") (text ")")
          (replace (text "open bracket") (text "(") transcript))).

(** [said[said.find("type ") + 5:]] *)
Definition dictated (said : list ascii) : list ascii :=
  match find (text "type ") said with
  | Some i => drop (i + 5) said
  | None => drop 4 said
  end.

(** The first branch of [Speech.recognize], on the text widget of the
    selected tab: the words after the first "type " are inserted at the
    cursor and the text is highlighted. *)
Definition type_command (syntax : Syntax) (said : list ascii) (t : Text)
  : outcome Text :=
  syntaxHighlight syntax None (insert_at_cursor (dictated said) t).

End Speech.


Module SpeechSpec.
Import Speech.

(** [pat] is a piece of [s]. *)
Definition substring (pat s : list ascii) : Prop :=
  ∃ pre post, s = pre ++ pat ++ post.

(** The phrases that [Speech.recognize] replaces by a sign. *)
Definition phrases : list (list ascii) :=
  [text "open bracket"; text "close bracket"; text "colon"; text "comma"].

End SpeechSpec.

(** ** Notebooks used as examples *)

Module Examples.
Import Tk Py Page Editor.

(** A new tab with text that was never saved. *)
Definition draft : PageObj :=
  mkPage (untagged (text "x = 1") 5) None [] (text "Untitled").

(** A tab whose file holds its text. *)
Definition stored : PageObj :=
  mkPage (untagged (text "x = 1") 5) (Some (text "/home/a.py")) (text "x = 1")
    (text "a.py").

(** A tab whose text was changed after it was saved. *)
Definition edited : PageObj :=
  mkPage (untagged (text "x = 2") 5) (Some (text "/home/a.py")) (text "x = 1")
    (text "a.py").

(** A tab as the program opens it at the start. *)
Definition blank : PageObj :=
  mkPage (untagged [] 0) None [] (text "Untitled").

Definition one_tab (p : PageObj) (answers : list Answer) : State :=
  mkState (mkWorld {[0 := p]} [0] (Some 0) 1) answers [].

Definition two_tabs (p q : PageObj) (answers : list Answer) : State :=
  mkState (mkWorld (<[1 := q]> {[0 := p]}) [0; 1] (Some 0) 2) answers [].

End Examples.

(** ** Characters above U+FFFF

    The widget of Tk 8.6 keeps its text in 16-bit code units and counts
    index positions in them: a character above U+FFFF is a pair of surrogate
    units and takes two positions, where a Python string counts it once.
    The token loops compare Tk columns with Python lengths and use them as
    Python subscripts.  This module embeds the keyword loop with both ways
    of counting; texts are lists of code points, the widget holds their code
    units. *)

Module Utf16.

Definition of_ascii (c : ascii) : N := N.of_nat (nat_of_ascii c).

(** A Python string literal as a list of code points. *)
Definition str (s : string) : list N := of_ascii <$> text s.

Definition newline : N := 10%N.

Definition is_high (u : N) : bool := ((55296 <=? u) && (u <=? 56319))%N.
Definition is_low (u : N) : bool := ((56320 <=? u) && (u <=? 57343))%N.

(** What the widget holds for a Python string. *)
Fixpoint encode (s : list N) : list N :=
  match s with
  | [] => []
  | c :: s' =>
      if (65535 <? c)%N
      then (55296 + (c - 65536) / 1024)%N :: (56320 + (c - 65536) mod 1024)%N
           :: encode s'
      else c :: encode s'
  end.

(** The Python string for units read from the widget. *)
Fixpoint decode (us : list N) : list N :=
  match us with
  | [] => []
  | h :: rest =>
      match rest with
      | l :: us' =>
          if is_high h && is_low l
          then (65536 + (h - 55296) * 1024 + (l - 56320))%N :: decode us'
          else h :: decode rest
      | [] => [h]
      end
  end.

(** The widget: its code units and the positions that carry the tag of the
    loop.  It keeps one more newline after its units. *)
Record Text := mkText {
  units : list N;
  tag : gset nat
}.

Definition content (t : Text) : list N := units t ++ [newline].
Definition end_index (t : Text) : nat := length (content t).

(** "index +nc" *)
Definition fwd (t : Text) (i n : nat) : nat := (i + n) `min` end_index t.

Fixpoint linestart_in (s : list N) (i : nat) : nat :=
  match i with
  | 0 => 0
  | S j =>
      match s !! j with
      | Some c => if decide (c = newline) then S j else linestart_in s j
      | None => linestart_in s j
      end
  end.

Fixpoint line_rest (s : list N) : nat :=
  match s with
  | [] => 0
  | c :: s' => if decide (c = newline) then 0 else S (line_rest s')
  end.

(** "index linestart", "index lineend" and the column of "line.column",
    all in code units. *)
Definition linestart (t : Text) (i : nat) : nat := linestart_in (content t) i.
Definition lineend (t : Text) (i : nat) : nat := i + line_rest (drop i (content t)).
Definition column (t : Text) (i : nat) : nat := i - linestart t i.

(** [get index1 index2]: the value is a Python string. *)
Definition get (t : Text) (i1 i2 : nat) : list N :=
  decode (take (i2 - i1) (drop i1 (content t))).

Fixpoint starts_with (pat s : list N) : bool :=
  match pat, s with
  | [], _ => true
  | _ :: _, [] => false
  | p :: pat', c :: s' => if decide (p = c) then starts_with pat' s' else false
  end.

Fixpoint find_from (pat s : list N) (i : nat) : option nat :=
  if starts_with pat s then Some i
  else match s with
       | [] => None
       | _ :: s' => find_from pat s' (S i)
       end.

(** [search pattern index stopindex count=length]: the position of the
    match, and the number of index positions it takes. *)
Definition search (t : Text) (pat : list N) (start stop : nat)
  : option (nat * nat) :=
  match find_from (encode pat) (drop start (content t)) start with
  | Some i => if decide (i < stop) then Some (i, length (encode pat)) else None
  | None => None
  end.

Definition tag_add (i1 i2 : nat) (t : Text) : Text :=
  mkText (units t) (tag t ∪ set_seq i1 ((i2 `min` end_index t) - i1)).

(** [line[i]] *)
Definition subscript (line : list N) (i : Z) : outcome N :=
  let n := Z.of_nat (length line) in
  let j := if (i <? 0)%Z then (i + n)%Z else i in
  if ((0 <=? j) && (j <? n))%Z
  then match line !! Z.to_nat j with
       | Some c => Done c
       | None => IndexError
       end
  else IndexError.

Definition illegals : list N := of_ascii <$> Page.illegals.

(** [line[i] in Page.illegals] *)
Definition in_illegals (line : list N) (i : Z) : outcome bool :=
  c ← subscript line i; mret (bool_decide (c ∈ illegals)).

(** [x or y] and [x and y] *)
Definition or_ (x y : outcome bool) : outcome bool :=
  b ← x; if b : bool then mret true else y.
Definition and_ (x y : outcome bool) : outcome bool :=
  b ← x; if b : bool then y else mret false.

(** The condition of lines 286-298: [col] is [int(index.split(".")[1])],
    [len] is [length.get()] and [line] the Python string of the line. *)
Definition boundary (line : list N) (col len : nat) : outcome bool :=
  let c := Z.of_nat col in
  let n := Z.of_nat len in
  or_ (and_ (mret (col =? 0)) (mret (length line =? col + len)))
 (or_ (and_ (mret (col =? 0)) (in_illegals line (c + n)))
 (or_ (and_ (mret (length line =? col + len)) (in_illegals line (c - 1)))
      (and_ (and_ (mret (negb (col =? 0))) (mret (col + len <? length line)))
            (and_ (in_illegals line (c - 1)) (in_illegals line (c + n)))))).

(** The [while True] loop of lines 272-299 for one token. *)
Fixpoint token_loop (fuel : nat) (tok : list N) (b : nat) (t : Text)
  : outcome Text :=
  match fuel with
  | 0 => OutOfFuel
  | S fuel =>
      match search t tok b (end_index t) with
      | None => mret t
      | Some (index, len) =>
          let line := get t (linestart t index) (lineend t index) in
          let a := index in
          let b' := fwd t index len in
          ok ← boundary line (column t index) len;
          let t := if ok : bool then tag_add a b' t else t in
          token_loop fuel tok b' t
      end
  end.

(** The positions tagged for the token [tok] in a widget that was given
    the Python string [s]. *)
Definition token_scan (tok s : list N) : outcome (gset nat) :=
  t ← token_loop (S (length (encode s))) tok 0 (mkText (encode s) ∅);
  mret (tag t).

(** The widget that holds the characters of the widget [t] of the pass,
    with the positions that carry its tag [k]. *)
Definition widen (k : Tk.Tag) (t : Tk.Text) : Text :=
  mkText (of_ascii <$> Tk.chars t) (Tk.tagged k t).

(** U+1F600, a character above U+FFFF. *)
Definition astral : N := 128512%N.

End Utf16.

(** * Proofs *)

Import Tk Py Page Spec.

(** ** Lines of the widget *)

Section line_facts.
Implicit Types (s : list ascii) (t : Text) (i j p : nat).

Lemma line_rest_le s : line_rest s ≤ length s.
Proof. induction s as [|c s IH]; simpl; [lia|]. case_decide; lia. Qed.

Lemma line_rest_no_newline s p : p < line_rest s → s !! p ≠ Some newline.
Proof.
  revert p. induction s as [|c s IH]; simpl; intros p Hp; [lia|].
  case_decide; [lia|]. destruct p as [|p]; simpl; [congruence|]. apply IH. lia.
Qed.

Lemma line_rest_first s p : s !! p = Some newline → line_rest s ≤ p.
Proof.
  revert p. induction s as [|c s IH]; simpl; intros p Hp; [lia|].
  case_decide; [lia|]. destruct p as [|p]; simpl in Hp; [congruence|].
  apply IH in Hp. lia.
Qed.

Lemma line_rest_newline s : line_rest s < length s → s !! line_rest s = Some newline.
Proof.
  induction s as [|c s IH]; simpl; [lia|].
  case_decide; [subst; done|]. intros. apply IH. lia.
Qed.

Lemma content_length t : length (content t) = S (length (chars t)).
Proof. unfold content. rewrite length_app. simpl. lia. Qed.

Lemma end_index_eq t : end_index t = S (length (chars t)).
Proof. apply content_length. Qed.

Lemma content_last t : content t !! length (chars t) = Some newline.
Proof. unfold content. rewrite lookup_app_r by lia. by rewrite Nat.sub_diag. Qed.

Lemma content_lookup_chars t p : p < length (chars t) → content t !! p = chars t !! p.
Proof. intros. unfold content. by rewrite lookup_app_l. Qed.

Lemma lineend_ge t i : i ≤ lineend t i.
Proof. unfold lineend. lia. Qed.

Lemma lineend_le t i : i ≤ length (chars t) → lineend t i ≤ length (chars t).
Proof.
  intros Hi. unfold lineend.
  assert (line_rest (drop i (content t)) ≤ length (chars t) - i); [|lia].
  apply line_rest_first. rewrite lookup_drop.
  replace (i + (length (chars t) - i)) with (length (chars t)) by lia.
  apply content_last.
Qed.

Lemma lineend_newline t i :
  i ≤ length (chars t) → content t !! lineend t i = Some newline.
Proof.
  intros Hi. pose proof (lineend_le t i Hi) as Hle. unfold lineend in *.
  rewrite <- lookup_drop. apply line_rest_newline.
  rewrite length_drop, content_length. lia.
Qed.

Lemma lineend_no_newline t i p :
  i ≤ p < lineend t i → content t !! p ≠ Some newline.
Proof.
  unfold lineend. intros [Hip Hp].
  replace p with (i + (p - i)) by lia. rewrite <- lookup_drop.
  apply line_rest_no_newline. lia.
Qed.

Lemma lineend_least t i p :
  i ≤ p → content t !! p = Some newline → lineend t i ≤ p.
Proof.
  unfold lineend. intros Hip Hp.
  assert (line_rest (drop i (content t)) ≤ p - i); [|lia].
  apply line_rest_first. rewrite lookup_drop. by replace (i + (p - i)) with p by lia.
Qed.

Lemma lineend_same t i j :
  i ≤ j ≤ lineend t i → j ≤ length (chars t) → lineend t j = lineend t i.
Proof.
  intros [Hij Hj] Hlen. apply Nat.le_antisymm.
  - apply lineend_least; [done|]. apply lineend_newline. lia.
  - destruct (decide (lineend t j < lineend t i)) as [Hlt|]; [|lia].
    exfalso. apply (lineend_no_newline t i (lineend t j)).
    + pose proof (lineend_ge t j). lia.
    + by apply lineend_newline.
Qed.

Lemma linestart_in_le s i : linestart_in s i ≤ i.
Proof.
  induction i as [|i IH]; simpl; [lia|].
  destruct (s !! i); [case_decide|]; lia.
Qed.

Lemma linestart_in_no_newline s i p :
  linestart_in s i ≤ p < i → s !! p ≠ Some newline.
Proof.
  induction i as [|i IH]; simpl; [lia|].
  destruct (s !! i) as [c|] eqn:E.
  - case_decide; [lia|]. intros [H1 H2].
    destruct (decide (p = i)) as [->|]; [congruence|]. apply IH. lia.
  - intros [H1 H2]. destruct (decide (p = i)) as [->|]; [congruence|]. apply IH. lia.
Qed.

Lemma linestart_in_prev s i :
  linestart_in s i = 0 ∨ ∃ e, linestart_in s i = S e ∧ s !! e = Some newline.
Proof.
  induction i as [|i IH]; simpl; [by left|].
  destruct (s !! i) as [c|] eqn:E; [case_decide|]; subst; eauto.
Qed.

Lemma linestart_in_same s i j :
  i ≤ j → (∀ p, i ≤ p < j → s !! p ≠ Some newline) →
  linestart_in s j = linestart_in s i.
Proof.
  induction 1 as [|j Hij IH]; [done|]. intros Hnl. simpl.
  assert (s !! j ≠ Some newline) as Hj by (apply Hnl; lia).
  destruct (s !! j) as [c|] eqn:E.
  - case_decide; [congruence|]. apply IH. intros. apply Hnl. lia.
  - apply IH. intros. apply Hnl. lia.
Qed.

End line_facts.

(** ** Searching *)

Section search_facts.
Implicit Types (s pat : list ascii) (t : Text) (i j p : nat).

Lemma starts_with_spec pat s :
  starts_with pat s = true ↔ ∀ k, k < length pat → s !! k = pat !! k.
Proof.
  revert s. induction pat as [|c pat IH]; intros s; simpl.
  - split; [intros _ k; lia|done].
  - destruct s as [|d s]; simpl.
    + split; [done|]. intros H. specialize (H 0 ltac:(lia)). done.
    + case_decide as Hcd.
      * subst d. rewrite IH. split.
        -- intros H [|k] Hk; simpl; [done|]. apply H. lia.
        -- intros H k Hk. apply (H (S k)). lia.
      * split; [done|]. intros H. specialize (H 0 ltac:(lia)). simpl in H. congruence.
Qed.

Lemma find_from_Some pat s i j :
  find_from pat s i = Some j ↔
  i ≤ j ∧ j - i ≤ length s ∧ starts_with pat (drop (j - i) s) = true
  ∧ ∀ m, m < j - i → starts_with pat (drop m s) = false.
Proof.
  revert i. induction s as [|c s IH]; intros i.
  - cbn [find_from]. destruct (starts_with pat []) eqn:E.
    + split.
      * intros [= <-]. rewrite Nat.sub_diag. simpl. repeat split; try lia; done.
      * intros (Hij & Hlen & _ & _). simpl in Hlen. f_equal. lia.
    + split; [done|]. intros (Hij & Hlen & H & _). simpl in Hlen.
      rewrite drop_nil in H. congruence.
  - cbn [find_from]. destruct (starts_with pat (c :: s)) eqn:E.
    + split.
      * intros [= <-]. rewrite Nat.sub_diag. simpl. repeat split; try lia; done.
      * intros (Hij & Hlen & _ & Hmin). f_equal.
        destruct (decide (j = i)) as [|Hne]; [done|].
        specialize (Hmin 0 ltac:(lia)). simpl in Hmin. congruence.
    + rewrite IH. split.
      * intros (Hij & Hlen & H & Hmin).
        replace (j - i) with (S (j - S i)) by lia. simpl.
        repeat split; try lia; try done.
        intros [|m] Hm; simpl; [done|]. apply Hmin. lia.
      * intros (Hij & Hlen & H & Hmin).
        assert (j ≠ i) as Hne.
        { intros ->. rewrite Nat.sub_diag in H. simpl in H. congruence. }
        replace (j - i) with (S (j - S i)) in * by lia. simpl in *.
        repeat split; try lia; try done.
        intros m Hm. apply (Hmin (S m)). lia.
Qed.

Lemma find_from_None pat s i :
  find_from pat s i = None ↔ ∀ m, m ≤ length s → starts_with pat (drop m s) = false.
Proof.
  revert i. induction s as [|c s IH]; intros i; cbn [find_from].
  - destruct (starts_with pat []) eqn:E.
    + split; [done|]. intros H. specialize (H 0 ltac:(simpl; lia)). simpl in H. congruence.
    + split; [|done]. intros _ m _. by rewrite drop_nil.
  - destruct (starts_with pat (c :: s)) eqn:E.
    + split; [done|]. intros H. specialize (H 0 ltac:(simpl; lia)). simpl in H. congruence.
    + rewrite IH. split.
      * intros H [|m] Hm; simpl; [done|]. apply H. simpl in Hm. lia.
      * intros H m Hm. apply (H (S m)). simpl. lia.
Qed.

Lemma occurs_starts_with t pat j :
  occurs t pat j ↔ starts_with pat (drop j (content t)) = true.
Proof.
  rewrite starts_with_spec. unfold occurs.
  split; intros H k Hk; [rewrite lookup_drop|rewrite <- lookup_drop]; by apply H.
Qed.

Lemma occurs_bound t pat j :
  pat ≠ [] → occurs t pat j → j + length pat ≤ end_index t.
Proof.
  intros Hne H. destruct pat as [|c pat _] using rev_ind; [done|].
  specialize (H (length pat)). rewrite length_app in *. simpl in *.
  specialize (H ltac:(lia)). rewrite lookup_app_r in H by lia.
  rewrite Nat.sub_diag in H. simpl in H.
  apply lookup_lt_Some in H. unfold end_index. lia.
Qed.

Lemma search_Some t pat b e j :
  pat ≠ [] →
  search t pat b e = Some j ↔
  b ≤ j < e ∧ occurs t pat j ∧ ∀ m, b ≤ m < j → ¬ occurs t pat m.
Proof.
  intros Hne. unfold search.
  destruct (find_from pat (drop b (content t)) b) as [i|] eqn:E.
  - apply find_from_Some in E as (Hbi & Hlen & Hocc & Hmin).
    rewrite drop_drop in Hocc. replace (b + (i - b)) with i in Hocc by lia.
    apply occurs_starts_with in Hocc.
    assert (∀ m, b ≤ m < i → ¬ occurs t pat m) as Hmin'.
    { intros m Hm Hc. apply occurs_starts_with in Hc.
      specialize (Hmin (m - b) ltac:(lia)). rewrite drop_drop in Hmin.
      replace (b + (m - b)) with m in Hmin by lia. congruence. }
    case_decide as Hie.
    + split.
      * intros [= <-]. repeat split; try lia; done.
      * intros (Hj & Hoj & Hminj). f_equal.
        destruct (Nat.lt_trichotomy i j) as [Hlt|[->|Hlt]]; [|done|].
        -- exfalso. apply (Hminj i); [lia|done].
        -- exfalso. apply (Hmin' j); [lia|done].
    + split; [done|]. intros (Hj & Hoj & Hminj).
      exfalso. apply (Hmin' j); [lia|done].
  - split; [done|]. intros (Hj & Hoj & _).
    pose proof (occurs_bound _ _ _ Hne Hoj) as Hb. unfold end_index in Hb.
    assert (0 < length pat) by (destruct pat; [done|simpl; lia]).
    rewrite find_from_None in E. apply occurs_starts_with in Hoj.
    specialize (E (j - b)). rewrite drop_drop, length_drop in E.
    replace (b + (j - b)) with j in E by lia.
    rewrite E in Hoj by lia. done.
Qed.

Lemma search_None t pat b e :
  pat ≠ [] →
  search t pat b e = None ↔ ∀ m, b ≤ m < e → ¬ occurs t pat m.
Proof.
  intros Hne. split.
  - unfold search. intros E m Hm Hocc.
    pose proof (occurs_bound _ _ _ Hne Hocc) as Hb. unfold end_index in Hb.
    assert (0 < length pat) by (destruct pat; [done|simpl; lia]).
    apply occurs_starts_with in Hocc.
    destruct (find_from pat (drop b (content t)) b) as [i|] eqn:F.
    + case_decide as Hie; [done|].
      apply find_from_Some in F as (Hbi & _ & _ & Hmin).
      specialize (Hmin (m - b) ltac:(lia)). rewrite drop_drop in Hmin.
      replace (b + (m - b)) with m in Hmin by lia. congruence.
    + rewrite find_from_None in F.
      specialize (F (m - b)). rewrite drop_drop, length_drop in F.
      replace (b + (m - b)) with m in F by lia.
      rewrite F in Hocc by lia. done.
  - intros H. destruct (search t pat b e) as [j|] eqn:E; [|done].
    apply search_Some in E as (Hj & Hocc & _); [|done].
    exfalso. by apply (H j).
Qed.

Lemma occurs_single t q j : occurs t [q] j ↔ content t !! j = Some q.
Proof.
  unfold occurs. simpl. split.
  - intros H. specialize (H 0 ltac:(lia)). by rewrite Nat.add_0_r in H.
  - intros H k Hk. replace k with 0 by lia. by rewrite Nat.add_0_r.
Qed.

End search_facts.

(** ** The boundary condition *)

Section boundary_facts.
Implicit Types (line : list ascii) (col len p : nat).

Lemma subscript_in_range line p c :
  line !! p = Some c → subscript line (Z.of_nat p) = Done c.
Proof.
  intros H. pose proof (lookup_lt_Some _ _ _ H) as Hlt. unfold subscript.
  destruct (Z.ltb_spec (Z.of_nat p) 0); [lia|].
  destruct (Z.leb_spec 0 (Z.of_nat p)); [|lia].
  destruct (Z.ltb_spec (Z.of_nat p) (Z.of_nat (length line))); [|lia].
  simpl. by rewrite Nat2Z.id, H.
Qed.

Lemma in_illegals_in_range line p c :
  line !! p = Some c →
  in_illegals line (Z.of_nat p) = (Done (bool_decide (c ∈ illegals)), [Z.of_nat p]).
Proof. intros H. unfold in_illegals. by rewrite (subscript_in_range _ _ _ H). Qed.

Lemma delimited_whole line col len :
  col + len ≤ length line →
  line = take len (drop col line) ↔ col = 0 ∧ length line = col + len.
Proof.
  intros Hle. split.
  - intros H. apply (f_equal length) in H.
    rewrite length_take, length_drop in H. lia.
  - intros [-> H]. simpl in *. subst len. by rewrite firstn_all.
Qed.

Lemma boundary_cases line col len :
  0 < len → col + len ≤ length line →
  ∃ b, (boundary line col len).1 = Done b
     ∧ (b = true ↔ delimited line col len)
     ∧ ∀ z, z ∈ (boundary line col len).2 → (0 ≤ z < Z.of_nat (length line))%Z.
Proof.
  intros Hlen Hle. unfold delimited. setoid_rewrite (delimited_whole _ _ _ Hle).
  unfold boundary. cbv zeta.
  replace (Z.of_nat col + Z.of_nat len)%Z with (Z.of_nat (col + len)) by lia.
  remember (in_illegals line (Z.of_nat (col + len))) as after eqn:Hafter.
  remember (in_illegals line (Z.of_nat col - 1)) as before eqn:Hbefore.
  destruct (Nat.eqb_spec col 0) as [Hcol|Hcol];
    destruct (Nat.eqb_spec (length line) (col + len)) as [Hl|Hl]; simpl.
  - exists true. split_and!; [done|split; [intros _; by left|done]|].
    intros z Hz. by apply elem_of_nil in Hz.
  - destruct (lookup_lt_is_Some_2 line (col + len) ltac:(lia)) as [c Hc].
    rewrite (in_illegals_in_range _ _ _ Hc) in Hafter. subst after. simpl.
    destruct (bool_decide_reflect (c ∈ illegals)) as [Hin|Hin]; simpl.
    + exists true. split_and!; [done|split; [intros _; right; left; eauto|done]|].
      intros z Hz. apply list_elem_of_singleton in Hz as ->. lia.
    + exists false. split_and!; [done|split; [done|]|].
      * intros [[_ ?]|[(_ & c' & Hc' & ?)|[(? & ? & _)|(? & _)]]]; try lia.
        congruence.
      * intros z Hz. simpl in Hz. rewrite ?app_nil_r in Hz.
        apply list_elem_of_singleton in Hz as ->. lia.
  - destruct (lookup_lt_is_Some_2 line (col - 1) ltac:(lia)) as [c Hc].
    replace (Z.of_nat col - 1)%Z with (Z.of_nat (col - 1)) in Hbefore by lia.
    rewrite (in_illegals_in_range _ _ _ Hc) in Hbefore. subst before. simpl.
    destruct (bool_decide_reflect (c ∈ illegals)) as [Hin|Hin]; simpl.
    + exists true. split_and!; [done|split; [intros _|done]|].
      * right; right; left. split_and!; eauto; lia.
      * intros z Hz. apply list_elem_of_singleton in Hz as ->. lia.
    + destruct (Nat.ltb_spec (col + len) (length line)); [lia|]. simpl.
      exists false. split_and!; [done|split; [done|]|].
      * intros [[? _]|[(? & _)|[(_ & _ & c' & Hc' & ?)|(_ & ? & _)]]]; try lia.
        congruence.
      * intros z Hz. simpl in Hz. rewrite ?app_nil_r in Hz.
        apply list_elem_of_singleton in Hz as ->. lia.
  - destruct (Nat.ltb_spec (col + len) (length line)); [|lia]. simpl.
    destruct (lookup_lt_is_Some_2 line (col - 1) ltac:(lia)) as [c Hc].
    destruct (lookup_lt_is_Some_2 line (col + len) ltac:(lia)) as [d Hd].
    replace (Z.of_nat col - 1)%Z with (Z.of_nat (col - 1)) in Hbefore by lia.
    rewrite (in_illegals_in_range _ _ _ Hc) in Hbefore.
    rewrite (in_illegals_in_range _ _ _ Hd) in Hafter. subst before after. simpl.
    destruct (bool_decide_reflect (c ∈ illegals)) as [Hin|Hin]; simpl;
      [destruct (bool_decide_reflect (d ∈ illegals)) as [Hin'|Hin']; simpl|].
    + exists true. split_and!; [done|split; [intros _|done]|].
      * right; right; right. split_and!; eauto; lia.
      * intros z Hz. apply elem_of_cons in Hz as [->|Hz]; [lia|].
        apply list_elem_of_singleton in Hz as ->. lia.
    + exists false. split_and!; [done|split; [done|]|].
      * intros [[? _]|[(? & _)|[(? & _)|(_ & _ & _ & c' & Hc' & ?)]]]; try lia.
        congruence.
      * intros z Hz. apply elem_of_cons in Hz as [->|Hz]; [lia|].
        apply list_elem_of_singleton in Hz as ->. lia.
    + exists false. split_and!; [done|split; [done|]|].
      * intros [[? _]|[(? & _)|[(? & _)|(_ & _ & (c' & Hc' & ?) & _)]]]; try lia.
        congruence.
      * intros z Hz. apply list_elem_of_singleton in Hz as ->. lia.
Qed.
(** Without the bound on the match the condition does raise: a match of
    length 2 at column 0 of a one-character line subscripts index 2. *)
Lemma boundary_out_of_line :
  boundary (text "a") 0 2 = (IndexError, [2%Z]).
Proof. reflexivity. Qed.

End boundary_facts.

(** ** Reading depends on the characters only; tagging changes tags only *)

Section widget_facts.
Implicit Types (t : Text) (k : Tag) (i j p : nat).

Lemma content_same t1 t2 : chars t1 = chars t2 → content t1 = content t2.
Proof. unfold content. by intros ->. Qed.

Lemma end_index_same t1 t2 : chars t1 = chars t2 → end_index t1 = end_index t2.
Proof. intros H. unfold end_index. by rewrite (content_same _ _ H). Qed.

Lemma search_same t1 t2 pat b e :
  chars t1 = chars t2 → search t1 pat b e = search t2 pat b e.
Proof. intros H. unfold search. by rewrite (content_same _ _ H). Qed.

Lemma linestart_same t1 t2 i : chars t1 = chars t2 → linestart t1 i = linestart t2 i.
Proof. intros H. unfold linestart. by rewrite (content_same _ _ H). Qed.

Lemma lineend_same_text t1 t2 i : chars t1 = chars t2 → lineend t1 i = lineend t2 i.
Proof. intros H. unfold lineend. by rewrite (content_same _ _ H). Qed.

Lemma column_same t1 t2 i : chars t1 = chars t2 → column t1 i = column t2 i.
Proof. intros H. unfold column. by rewrite (linestart_same _ _ _ H). Qed.

Lemma get_same t1 t2 i j : chars t1 = chars t2 → get t1 i j = get t2 i j.
Proof. intros H. unfold get. by rewrite (content_same _ _ H). Qed.

Lemma fwd_same t1 t2 i n : chars t1 = chars t2 → fwd t1 i n = fwd t2 i n.
Proof. intros H. unfold fwd. by rewrite (end_index_same _ _ H). Qed.

Lemma chars_set_tagged k s t : chars (set_tagged k s t) = chars t.
Proof. by destruct k. Qed.

Lemma insert_set_tagged k s t : insert (set_tagged k s t) = insert t.
Proof. by destruct k. Qed.

Lemma tagged_set_tagged k s t : tagged k (set_tagged k s t) = s.
Proof. by destruct k. Qed.

Lemma tagged_set_tagged_ne k k' s t :
  k' ≠ k → tagged k' (set_tagged k s t) = tagged k' t.
Proof. by destruct k, k'. Qed.

Lemma chars_tag_add k a b t : chars (tag_add k a b t) = chars t.
Proof. apply chars_set_tagged. Qed.

Lemma chars_tag_remove k a b t : chars (tag_remove k a b t) = chars t.
Proof. apply chars_set_tagged. Qed.

Lemma insert_tag_add k a b t : insert (tag_add k a b t) = insert t.
Proof. apply insert_set_tagged. Qed.

Lemma insert_tag_remove k a b t : insert (tag_remove k a b t) = insert t.
Proof. apply insert_set_tagged. Qed.

Lemma tagged_tag_add k a b t :
  b ≤ end_index t → tagged k (tag_add k a b t) = tagged k t ∪ set_seq a (b - a).
Proof.
  intros Hb. unfold tag_add. rewrite tagged_set_tagged.
  by replace (b `min` end_index t) with b by lia.
Qed.

Lemma tagged_tag_add_ne k k' a b t :
  k' ≠ k → tagged k' (tag_add k a b t) = tagged k' t.
Proof. apply tagged_set_tagged_ne. Qed.

Lemma tagged_tag_remove k a b t :
  tagged k (tag_remove k a b t) = tagged k t ∖ set_seq a (b - a).
Proof. apply tagged_set_tagged. Qed.

Lemma tagged_tag_remove_ne k k' a b t :
  k' ≠ k → tagged k' (tag_remove k a b t) = tagged k' t.
Proof. apply tagged_set_tagged_ne. Qed.

(** The line of a position, character by character. *)
Lemma line_of_length t i :
  i ≤ length (chars t) → length (line_of t i) = lineend t i - linestart t i.
Proof.
  intros Hi. unfold line_of, get. rewrite length_take, length_drop, content_length.
  pose proof (lineend_le t i Hi). lia.
Qed.

Lemma line_of_lookup t i p :
  linestart t i + p < lineend t i →
  line_of t i !! p = content t !! (linestart t i + p).
Proof.
  intros Hp. unfold line_of, get. rewrite lookup_take_lt by lia.
  by rewrite lookup_drop.
Qed.

Lemma linestart_le t i : linestart t i ≤ i.
Proof. apply linestart_in_le. Qed.

Lemma column_plus t i : linestart t i + column t i = i.
Proof. unfold column. pose proof (linestart_le t i). lia. Qed.

End widget_facts.

(** ** Occurrences of a token *)

Section token_facts.
Implicit Types (t : Text) (tok : list ascii) (i j p : nat).

Lemma valid_token_length tok : valid_token tok → 0 < length tok.
Proof. intros [Hne _]. destruct tok; [done|simpl; lia]. Qed.

Lemma occurs_not_newline t tok j p :
  valid_token tok → occurs t tok j → j ≤ p < j + length tok →
  content t !! p ≠ Some newline.
Proof.
  intros [_ Hnl] Hocc Hp Hc. specialize (Hocc (p - j) ltac:(lia)).
  replace (j + (p - j)) with p in Hocc by lia. rewrite Hc in Hocc.
  apply Hnl. eapply list_elem_of_lookup_2. done.
Qed.

Lemma occurs_within_chars t tok j :
  valid_token tok → occurs t tok j → j + length tok ≤ length (chars t).
Proof.
  intros Hv Hocc. pose proof (valid_token_length _ Hv) as Hlen.
  pose proof (occurs_bound t tok j (proj1 Hv) Hocc) as Hb.
  rewrite end_index_eq in Hb.
  destruct (decide (j + length tok = S (length (chars t)))) as [He|]; [|lia].
  exfalso. apply (occurs_not_newline t tok j (length (chars t)) Hv Hocc); [lia|].
  apply content_last.
Qed.

Lemma occurs_within_line t tok j :
  valid_token tok → occurs t tok j → j + length tok ≤ lineend t j.
Proof.
  intros Hv Hocc. pose proof (occurs_within_chars _ _ _ Hv Hocc) as Hb.
  destruct (decide (lineend t j < j + length tok)) as [Hlt|]; [|lia].
  exfalso. apply (occurs_not_newline t tok j (lineend t j) Hv Hocc).
  - pose proof (lineend_ge t j). lia.
  - apply lineend_newline. lia.
Qed.

Lemma occurs_column t tok j :
  valid_token tok → occurs t tok j →
  column t j + length tok ≤ length (line_of t j).
Proof.
  intros Hv Hocc. pose proof (occurs_within_chars _ _ _ Hv Hocc).
  pose proof (occurs_within_line _ _ _ Hv Hocc).
  rewrite line_of_length by lia. pose proof (column_plus t j). lia.
Qed.

End token_facts.

(** ** The token loops *)

Section token_loop_facts.
Implicit Types (t : Text) (k : Tag) (tok : list ascii) (b i j p : nat).

Lemma visit_spans_cons len v vs :
  visit_spans len (v :: vs) = visit_span len v ∪ visit_spans len vs.
Proof. done. Qed.

Lemma token_loop_spec k tok t0 :
  valid_token tok →
  ∀ fuel b t,
    chars t = chars t0 → 0 < fuel → end_index t0 ≤ fuel + b →
    ∃ t' vs,
      token_loop fuel k tok b t = Done (t', vs)
      ∧ chars t' = chars t0 ∧ insert t' = insert t
      ∧ (∀ k', k' ≠ k → tagged k' t' = tagged k' t)
      ∧ tagged k t' = tagged k t ∪ visit_spans (length tok) vs
      ∧ resumes v_from (λ v, v_index v + length tok) b vs
      ∧ Forall (visit_ok t0 tok) vs.
Proof.
  intros Hv. pose proof (valid_token_length _ Hv) as Hlen.
  induction fuel as [|fuel IH]; intros b t Ht Hfuel Hb; [lia|].
  cbn [token_loop].
  rewrite (end_index_same _ _ Ht), (search_same _ _ _ _ _ Ht).
  destruct (search t0 tok b (end_index t0)) as [index|] eqn:Hs.
  - pose proof Hs as Hs'.
    apply search_Some in Hs' as ([Hbi _] & Hocc & _); [|apply Hv].
    pose proof (occurs_within_chars _ _ _ Hv Hocc) as Hin.
    pose proof (occurs_column _ _ _ Hv Hocc) as Hcol.
    rewrite (linestart_same _ _ _ Ht), (lineend_same_text _ _ _ Ht),
      (get_same _ _ _ _ Ht), (column_same _ _ _ Ht), (fwd_same _ _ _ _ Ht).
    fold (line_of t0 index).
    assert (fwd t0 index (length tok) = index + length tok) as ->.
    { unfold fwd. rewrite end_index_eq. lia. }
    destruct (boundary_cases (line_of t0 index) (column t0 index) (length tok)
                Hlen Hcol) as (ok & Hok & _ & _).
    rewrite Hok. cbn [mbind outcome_bind].
    set (t1 := if ok then tag_add k index (index + length tok) t else t).
    assert (chars t1 = chars t0) as Ht1.
    { subst t1. destruct ok; [by rewrite chars_tag_add|done]. }
    rewrite end_index_eq in Hb.
    destruct (IH (index + length tok) t1 Ht1 ltac:(lia)
                ltac:(rewrite end_index_eq; lia))
      as (t' & vs & -> & Hc & Hi & Hother & Hk & Hres & Hall).
    cbn [mbind outcome_bind mret outcome_ret].
    eexists _, _. split; [done|]. split_and!.
    + done.
    + rewrite Hi. subst t1. destruct ok; [by rewrite insert_tag_add|done].
    + intros k' Hk'. rewrite (Hother k' Hk'). subst t1.
      destruct ok; [by rewrite tagged_tag_add_ne|done].
    + rewrite Hk, visit_spans_cons. unfold visit_span at 1. cbn [v_tagged v_index].
      subst t1. destruct ok.
      * rewrite tagged_tag_add by (rewrite (end_index_same _ _ Ht), end_index_eq; lia).
        replace (index + length tok - index) with (length tok) by lia.
        by rewrite (assoc_L (∪)).
      * by rewrite (left_id_L ∅ (∪)).
    + done.
    + constructor; [|done]. by split_and!.
  - cbn [mret outcome_ret]. eexists _, _. split; [done|]. split_and!; try done.
    unfold visit_spans. simpl. by rewrite (right_id_L ∅ (∪)).
Qed.

End token_loop_facts.

(** ** The string loops *)

Section quote_loop_facts.
Implicit Types (t : Text) (q : ascii) (b i j p : nat).

Lemma char_before_end t q i :
  q ≠ newline → content t !! i = Some q → i < length (chars t).
Proof.
  intros Hq Hi. pose proof (lookup_lt_Some _ _ _ Hi) as Hlt.
  rewrite content_length in Hlt.
  destruct (decide (i = length (chars t))) as [->|]; [|lia].
  rewrite content_last in Hi. congruence.
Qed.

Lemma lineend_gt t q i :
  q ≠ newline → content t !! i = Some q → i < lineend t i.
Proof.
  intros Hq Hi. pose proof (char_before_end _ _ _ Hq Hi) as Hlt.
  pose proof (lineend_ge t i).
  destruct (decide (lineend t i = i)) as [He|]; [|lia].
  pose proof (lineend_newline t i ltac:(lia)) as Hnl. rewrite He in Hnl. congruence.
Qed.

Lemma quote_spans_cons r qs :
  quote_spans (r :: qs) = quote_span r ∪ quote_spans qs.
Proof. done. Qed.

Lemma quote_loop_spec q t0 :
  q ≠ newline →
  ∀ fuel b t,
    chars t = chars t0 → 0 < fuel → end_index t0 ≤ fuel + b →
    ∃ t' qs,
      quote_loop fuel q b t = Done (t', qs)
      ∧ chars t' = chars t0 ∧ insert t' = insert t
      ∧ (∀ k', k' ≠ str → tagged k' t' = tagged k' t)
      ∧ tagged str t' = tagged str t ∪ quote_spans qs
      ∧ resumes q_from q_resume b qs
      ∧ Forall (quote_ok t0 q) qs.
Proof.
  intros Hq.
  induction fuel as [|fuel IH]; intros b t Ht Hfuel Hb; [lia|].
  cbn [quote_loop].
  rewrite (end_index_same _ _ Ht), (search_same _ _ _ _ _ Ht).
  destruct (search t0 [q] b (end_index t0)) as [a|] eqn:Hs.
  - pose proof Hs as Hs'.
    apply search_Some in Hs' as ([Hba _] & Hocc & _); [|done].
    apply occurs_single in Hocc.
    pose proof (char_before_end _ _ _ Hq Hocc) as Ha.
    pose proof (lineend_gt _ _ _ Hq Hocc) as Hgt.
    pose proof (lineend_le t0 a ltac:(lia)) as Hle.
    rewrite (lineend_same_text _ _ _ Ht), (fwd_same _ _ _ _ Ht),
      (search_same _ _ _ _ _ Ht).
    assert (fwd t0 a 1 = a + 1) as ->.
    { unfold fwd. rewrite end_index_eq. lia. }
    rewrite end_index_eq in Hb.
    destruct (search t0 [q] (a + 1) (lineend t0 a)) as [c|] eqn:Hc.
    + pose proof Hc as Hc'.
      apply search_Some in Hc' as (Hac & _ & _); [|done].
      assert (fwd t0 c 1 = c + 1) as Hf.
      { unfold fwd. rewrite end_index_eq. lia. }
      rewrite (fwd_same _ _ _ _ Ht), Hf.
      set (t1 := tag_add str a (c + 1) t).
      assert (chars t1 = chars t0) as Ht1 by (subst t1; by rewrite chars_tag_add).
      rewrite (fwd_same _ _ _ _ Ht1), Hf.
      destruct (IH (c + 1) t1 Ht1 ltac:(lia) ltac:(rewrite end_index_eq; lia))
        as (t' & qs & -> & Hch & Hi & Hother & Hk & Hres & Hall).
      cbn [mbind outcome_bind mret outcome_ret].
      eexists _, _. split; [done|]. split_and!.
      * done.
      * by rewrite Hi.
      * intros k' Hk'. rewrite (Hother k' Hk'). subst t1.
        by rewrite tagged_tag_add_ne.
      * rewrite Hk, quote_spans_cons. unfold quote_span at 1. cbn [q_open q_end].
        subst t1.
        rewrite tagged_tag_add by (rewrite (end_index_same _ _ Ht), end_index_eq; lia).
        by rewrite (assoc_L (∪)).
      * done.
      * constructor; [|done]. unfold quote_ok. cbn [q_from q_open q_close q_end q_resume]. rewrite Hc. by split_and!.
    + set (t1 := tag_add str a (lineend t0 a) t).
      assert (chars t1 = chars t0) as Ht1 by (subst t1; by rewrite chars_tag_add).
      destruct (IH (lineend t0 a) t1 Ht1 ltac:(lia) ltac:(rewrite end_index_eq; lia))
        as (t' & qs & -> & Hch & Hi & Hother & Hk & Hres & Hall).
      cbn [mbind outcome_bind mret outcome_ret].
      eexists _, _. split; [done|]. split_and!.
      * done.
      * by rewrite Hi.
      * intros k' Hk'. rewrite (Hother k' Hk'). subst t1.
        by rewrite tagged_tag_add_ne.
      * rewrite Hk, quote_spans_cons. unfold quote_span at 1. cbn [q_open q_end].
        subst t1.
        rewrite tagged_tag_add by (rewrite (end_index_same _ _ Ht), end_index_eq; lia).
        by rewrite (assoc_L (∪)).
      * done.
      * constructor; [|done]. unfold quote_ok. cbn [q_from q_open q_close q_end q_resume]. rewrite Hc. by split_and!.
  - cbn [mret outcome_ret]. eexists _, _. split; [done|]. split_and!; try done.
    unfold quote_spans. simpl. by rewrite (right_id_L ∅ (∪)).
Qed.

End quote_loop_facts.

(** ** The comment loop *)

Section comment_loop_facts.
Implicit Types (t : Text) (b i j p : nat).

Lemma hash_spans_cons t h hs :
  hash_spans t (h :: hs) = hash_span t h ∪ hash_spans t hs.
Proof. done. Qed.

Lemma hash_not_newline : hash ≠ newline.
Proof. done. Qed.

Lemma comment_loop_spec t0 :
  ∀ fuel b t,
    chars t = chars t0 → 0 < fuel → end_index t0 ≤ fuel + b →
    ∃ t' hs,
      comment_loop fuel b t = Done (t', hs)
      ∧ chars t' = chars t0 ∧ insert t' = insert t
      ∧ (∀ k', k' ≠ str → k' ≠ comment → tagged k' t' = tagged k' t)
      ∧ tagged str t' = tagged str t ∖ hash_spans t0 hs
      ∧ tagged comment t' = tagged comment t ∪ hash_spans t0 hs
      ∧ resumes h_from (hash_resume t0) b hs
      ∧ Forall (hash_ok t0) hs
      ∧ (∀ i, b ≤ i → content t0 !! i = Some hash →
           ∃ h, h ∈ hs ∧ (h_index h = i
                          ∨ (h_comment h = true
                             ∧ h_index h < i < lineend t0 (h_index h)))).
Proof.
  induction fuel as [|fuel IH]; intros b t Ht Hfuel Hb; [lia|].
  cbn [comment_loop].
  rewrite (end_index_same _ _ Ht), (search_same _ _ _ _ _ Ht).
  destruct (search t0 [hash] b (end_index t0)) as [a|] eqn:Hs.
  - pose proof Hs as Hs'.
    apply search_Some in Hs' as ([Hba _] & Hocc & Hmin); [|done].
    apply occurs_single in Hocc.
    pose proof (char_before_end _ _ _ hash_not_newline Hocc) as Ha.
    pose proof (lineend_gt _ _ _ hash_not_newline Hocc) as Hgt.
    pose proof (lineend_le t0 a ltac:(lia)) as Hle.
    rewrite (linestart_same _ _ _ Ht), (get_same _ _ _ _ Ht).
    fold (even_quotes t0 a).
    rewrite end_index_eq in Hb.
    destruct (even_quotes t0 a) eqn:Heven.
    + rewrite (lineend_same_text _ _ _ Ht).
      set (t1 := tag_add comment a (lineend t0 a) (tag_remove str a (lineend t0 a) t)).
      assert (chars t1 = chars t0) as Ht1.
      { subst t1. by rewrite chars_tag_add, chars_tag_remove. }
      destruct (IH (lineend t0 a) t1 Ht1 ltac:(lia) ltac:(rewrite end_index_eq; lia))
        as (t' & hs & -> & Hch & Hi & Hother & Hstr & Hcom & Hres & Hall & Hcov).
      cbn [mbind outcome_bind mret outcome_ret].
      eexists _, _. split; [done|]. split_and!.
      * done.
      * rewrite Hi. subst t1. by rewrite insert_tag_add, insert_tag_remove.
      * intros k' Hk1 Hk2. rewrite (Hother k' Hk1 Hk2). subst t1.
        by rewrite tagged_tag_add_ne, tagged_tag_remove_ne.
      * rewrite Hstr, hash_spans_cons. unfold hash_span at 1. cbn [h_comment h_index].
        subst t1. rewrite tagged_tag_add_ne by done. rewrite tagged_tag_remove.
        by rewrite difference_difference_l_L.
      * rewrite Hcom, hash_spans_cons. unfold hash_span at 1. cbn [h_comment h_index].
        subst t1.
        rewrite tagged_tag_add
          by (rewrite end_index_eq, chars_tag_remove, Ht; lia).
        rewrite tagged_tag_remove_ne by done. by rewrite (assoc_L (∪)).
      * done.
      * constructor; [|done]. by split.
      * intros i Hbi Hi'.
        destruct (decide (i = a)) as [->|Hne].
        { eexists. split; [by left|]. by left. }
        assert (a < i).
        { destruct (decide (i < a)) as [Hlt|]; [|lia].
          exfalso. apply (Hmin i); [lia|]. by apply occurs_single. }
        destruct (decide (i < lineend t0 a)) as [Hlt|Hge].
        { eexists. split; [by left|]. right. cbn [h_comment h_index]. split; [done|lia]. }
        destruct (Hcov i ltac:(lia) Hi') as (h & Hh & Hcase).
        exists h. split; [by right|done].
    + rewrite (fwd_same _ _ _ _ Ht).
      assert (fwd t0 a 1 = a + 1) as ->.
      { unfold fwd. rewrite end_index_eq. lia. }
      destruct (IH (a + 1) t Ht ltac:(lia) ltac:(rewrite end_index_eq; lia))
        as (t' & hs & -> & Hch & Hi & Hother & Hstr & Hcom & Hres & Hall & Hcov).
      cbn [mbind outcome_bind mret outcome_ret].
      eexists _, _. split; [done|]. split_and!; try done.
      * rewrite Hstr, hash_spans_cons. unfold hash_span at 1. cbn [h_comment].
        by rewrite (left_id_L ∅ (∪)).
      * rewrite Hcom, hash_spans_cons. unfold hash_span at 1. cbn [h_comment].
        by rewrite (left_id_L ∅ (∪)).
      * constructor; [|done]. by split.
      * intros i Hbi Hi'.
        destruct (decide (i = a)) as [->|Hne].
        { eexists. split; [by left|]. by left. }
        assert (a < i).
        { destruct (decide (i < a)) as [Hlt|]; [|lia].
          exfalso. apply (Hmin i); [lia|]. by apply occurs_single. }
        destruct (Hcov i ltac:(lia) Hi') as (h & Hh & Hcase).
        exists h. split; [by right|done].
  - cbn [mret outcome_ret]. eexists _, _. split; [done|]. split_and!; try done.
    + unfold hash_spans. simpl. by rewrite difference_empty_L.
    + unfold hash_spans. simpl. by rewrite (right_id_L ∅ (∪)).
    + intros i Hbi Hi. exfalso.
      rewrite search_None in Hs by done. apply (Hs i).
      * apply lookup_lt_Some in Hi. unfold end_index. lia.
      * by apply occurs_single.
Qed.

End comment_loop_facts.

(** ** Whole scans *)

Section scan_facts.
Implicit Types (t : Text) (k : Tag) (tok : list ascii) (b i j p : nat).

Lemma fuel_of_pos t : 0 < fuel_of t.
Proof. unfold fuel_of. rewrite end_index_eq. lia. Qed.

Lemma token_scan_spec k tok t :
  valid_token tok →
  ∃ t' vs,
    token_scan k tok t = Done (t', vs)
    ∧ chars t' = chars t ∧ insert t' = insert t
    ∧ (∀ k', k' ≠ k → tagged k' t' = tagged k' t)
    ∧ tagged k t' = tagged k t ∪ visit_spans (length tok) vs
    ∧ resumes v_from (λ v, v_index v + length tok) 0 vs
    ∧ Forall (visit_ok t tok) vs.
Proof.
  intros Hv. unfold token_scan.
  apply (token_loop_spec k tok t Hv); [done|apply fuel_of_pos|unfold fuel_of; lia].
Qed.

Lemma quote_scan_spec q t :
  q ≠ newline →
  ∃ t' qs,
    quote_scan q t = Done (t', qs)
    ∧ chars t' = chars t ∧ insert t' = insert t
    ∧ (∀ k', k' ≠ str → tagged k' t' = tagged k' t)
    ∧ tagged str t' = tagged str t ∪ quote_spans qs
    ∧ resumes q_from q_resume 0 qs
    ∧ Forall (quote_ok t q) qs.
Proof.
  intros Hq. unfold quote_scan.
  apply (quote_loop_spec q t Hq); [done|apply fuel_of_pos|unfold fuel_of; lia].
Qed.

Lemma comment_scan_spec t :
  ∃ t' hs,
    comment_scan t = Done (t', hs)
    ∧ chars t' = chars t ∧ insert t' = insert t
    ∧ (∀ k', k' ≠ str → k' ≠ comment → tagged k' t' = tagged k' t)
    ∧ tagged str t' = tagged str t ∖ hash_spans t hs
    ∧ tagged comment t' = tagged comment t ∪ hash_spans t hs
    ∧ resumes h_from (hash_resume t) 0 hs
    ∧ Forall (hash_ok t) hs
    ∧ (∀ i, content t !! i = Some hash →
         ∃ h, h ∈ hs ∧ (h_index h = i
                        ∨ (h_comment h = true
                           ∧ h_index h < i < lineend t (h_index h)))).
Proof.
  unfold comment_scan.
  destruct (comment_loop_spec t (fuel_of t) 0 t eq_refl (fuel_of_pos t)
              ltac:(unfold fuel_of; lia))
    as (t' & hs & H1 & H2 & H3 & H4 & H5 & H6 & H7 & H8 & H9).
  exists t', hs. split_and!; try done. intros i Hi. apply H9; [lia|done].
Qed.

(** A tagged visit is a delimited occurrence inside the characters. *)
Lemma visit_ok_occurs t tok v :
  valid_token tok → visit_ok t tok v →
  occurs t tok (v_index v)
  ∧ v_index v + length tok ≤ length (chars t)
  ∧ (v_tagged v = true ↔
     delimited (line_of t (v_index v)) (column t (v_index v)) (length tok))
  ∧ ∀ z, z ∈ v_lookups v →
      (0 ≤ z < Z.of_nat (length (line_of t (v_index v))))%Z.
Proof.
  intros Hv (Hs & Hl & Hb).
  apply search_Some in Hs as (_ & Hocc & _); [|apply Hv].
  pose proof (occurs_within_chars _ _ _ Hv Hocc) as Hin.
  destruct (boundary_cases (line_of t (v_index v)) (column t (v_index v))
              (length tok) (valid_token_length _ Hv) (occurs_column _ _ _ Hv Hocc))
    as (ok & Hok & Hiff & Hrange).
  rewrite Hb in Hok. injection Hok as <-. rewrite Hl. by split_and!.
Qed.

Lemma elem_of_visit_spans len vs p :
  p ∈ visit_spans len vs ↔
  ∃ v, v ∈ vs ∧ v_tagged v = true ∧ v_index v ≤ p < v_index v + len.
Proof.
  unfold visit_spans. rewrite elem_of_union_list. split.
  - intros (X & HX & Hp). apply list_elem_of_fmap in HX as (v & -> & Hv).
    exists v. split; [done|]. unfold visit_span in Hp.
    destruct (v_tagged v); [|by apply not_elem_of_empty in Hp].
    apply elem_of_set_seq in Hp. split; [done|lia].
  - intros (v & Hv & Htag & Hp). exists (visit_span len v). split.
    + apply list_elem_of_fmap. eauto.
    + unfold visit_span. rewrite Htag. apply elem_of_set_seq. lia.
Qed.

Lemma elem_of_quote_spans qs p :
  p ∈ quote_spans qs ↔ ∃ r, r ∈ qs ∧ q_open r ≤ p < q_end r.
Proof.
  unfold quote_spans. rewrite elem_of_union_list. split.
  - intros (X & HX & Hp). apply list_elem_of_fmap in HX as (r & -> & Hr).
    exists r. split; [done|]. unfold quote_span in Hp.
    apply elem_of_set_seq in Hp. lia.
  - intros (r & Hr & Hp). exists (quote_span r). split.
    + apply list_elem_of_fmap. eauto.
    + unfold quote_span. apply elem_of_set_seq. lia.
Qed.

Lemma elem_of_hash_spans t hs p :
  p ∈ hash_spans t hs ↔
  ∃ h, h ∈ hs ∧ h_comment h = true ∧ h_index h ≤ p < lineend t (h_index h).
Proof.
  unfold hash_spans. rewrite elem_of_union_list. split.
  - intros (X & HX & Hp). apply list_elem_of_fmap in HX as (h & -> & Hh).
    exists h. split; [done|]. unfold hash_span in Hp.
    destruct (h_comment h); [|by apply not_elem_of_empty in Hp].
    apply elem_of_set_seq in Hp. split; [done|lia].
  - intros (h & Hh & Hc & Hp). exists (hash_span t h). split.
    + apply list_elem_of_fmap. eauto.
    + unfold hash_span. rewrite Hc. apply elem_of_set_seq. lia.
Qed.

Lemma token_pass_spec k toks :
  Forall valid_token toks →
  ∀ t, ∃ t',
    token_pass k toks t = Done t'
    ∧ chars t' = chars t ∧ insert t' = insert t
    ∧ (∀ k', k' ≠ k → tagged k' t' = tagged k' t)
    ∧ tagged k t ⊆ tagged k t'
    ∧ ∀ p, p ∈ tagged k t' →
        p ∈ tagged k t
        ∨ ∃ tok j, tok ∈ toks ∧ occurs t tok j
            ∧ delimited (line_of t j) (column t j) (length tok)
            ∧ j ≤ p < j + length tok.
Proof.
  induction 1 as [|tok toks Hv Hall IH]; intros t; cbn [token_pass].
  - exists t. split_and!; try done. intros p Hp. by left.
  - destruct (token_scan_spec k tok t Hv)
      as (t1 & vs & -> & Hc1 & Hi1 & Ho1 & Hk1 & _ & Hvs).
    cbn [mbind outcome_bind].
    destruct (IH t1) as (t' & -> & Hc & Hi & Ho & Hsub & Hk).
    exists t'. split_and!.
    + done.
    + congruence.
    + congruence.
    + intros k' Hk'. by rewrite (Ho k' Hk'), (Ho1 k' Hk').
    + etrans; [|exact Hsub]. rewrite Hk1. apply union_subseteq_l.
    + intros p Hp. apply Hk in Hp as [Hp|(tok' & j & Hin & Hocc & Hdel & Hj)].
      * rewrite Hk1 in Hp. apply elem_of_union in Hp as [Hp|Hp]; [by left|].
        right. apply elem_of_visit_spans in Hp as (v & Hvin & Htag & Hp).
        rewrite Forall_forall in Hvs. specialize (Hvs v Hvin).
        apply (visit_ok_occurs _ _ _ Hv) in Hvs as (Hocc & _ & Hiff & _).
        exists tok, (v_index v). split_and!; try done; try lia.
        -- by left.
        -- by apply Hiff.
      * right. exists tok', j. split_and!; try done; try lia.
        -- by right.
        -- unfold occurs in *. by rewrite <- (content_same _ _ Hc1).
        -- unfold line_of in *.
           by rewrite <- (get_same _ _ _ _ Hc1), <- (linestart_same _ _ _ Hc1),
             <- (lineend_same_text _ _ _ Hc1), <- (column_same _ _ _ Hc1).
Qed.

(** The visits of one scan go forward and do not overlap. *)
Lemma visits_from t tok b vs :
  valid_token tok →
  resumes v_from (λ v, v_index v + length tok) b vs →
  Forall (visit_ok t tok) vs →
  ∀ v, v ∈ vs → b ≤ v_index v.
Proof.
  intros Hv. revert b. induction vs as [|v0 vs IH]; intros b Hres Hall v Hin.
  - by apply elem_of_nil in Hin.
  - destruct Hres as [Hfrom Hres]. apply Forall_cons in Hall as [Hok Hall].
    destruct Hok as (Hs & _). apply search_Some in Hs as ([Hb _] & _); [|apply Hv].
    apply elem_of_cons in Hin as [->|Hin]; [lia|].
    specialize (IH _ Hres Hall v Hin). lia.
Qed.

Lemma visits_disjoint t tok b vs :
  valid_token tok →
  resumes v_from (λ v, v_index v + length tok) b vs →
  Forall (visit_ok t tok) vs →
  ∀ v v' p, v ∈ vs → v' ∈ vs →
    v_index v ≤ p < v_index v + length tok →
    v_index v' ≤ p < v_index v' + length tok → v = v'.
Proof.
  intros Hv. revert b. induction vs as [|v0 vs IH]; intros b Hres Hall v v' p Hin Hin'.
  - by apply elem_of_nil in Hin.
  - destruct Hres as [Hfrom Hres]. apply Forall_cons in Hall as [Hok Hall].
    pose proof (visits_from _ _ _ _ Hv Hres Hall) as Hge.
    apply elem_of_cons in Hin as [->|Hin]; apply elem_of_cons in Hin' as [->|Hin'].
    + done.
    + intros. specialize (Hge v' Hin'). lia.
    + intros. specialize (Hge v Hin). lia.
    + by apply (IH _ Hres Hall).
Qed.

End scan_facts.

(** ** The pass as a whole *)

Section pass_facts.
Implicit Types (t : Text) (k : Tag) (e : option Event) (p : nat).

Lemma shift_tags_bound (s : gset nat) i n m p :
  (∀ q, q ∈ s → q < m) → i ≤ m → p ∈ shift_tags s i n → p < m + n.
Proof.
  intros Hs Hi. unfold shift_tags. rewrite !elem_of_union.
  intros [[Hp|Hp]|Hp].
  - apply elem_of_filter in Hp as [_ Hp]. apply Hs in Hp. lia.
  - apply elem_of_map in Hp as (q & -> & Hq).
    apply elem_of_filter in Hq as [_ Hq]. apply Hs in Hq. lia.
  - case_bool_decide as Hd; [|by apply not_elem_of_empty in Hp].
    apply elem_of_set_seq in Hp. destruct Hd as (_ & _ & Hin).
    apply Hs in Hin. lia.
Qed.

Lemma wf_insert_at_cursor cs t : wf t → wf (insert_at_cursor cs t).
Proof.
  intros Hwf k p Hp.
  assert (end_index (insert_at_cursor cs t) = end_index t + length cs) as ->.
  { unfold insert_at_cursor, end_index, content. cbn [chars].
    rewrite !length_app, length_take, length_drop. simpl. lia. }
  assert (insert t `min` length (chars t) ≤ end_index t)
    by (rewrite end_index_eq; lia).
  destruct k; cbn in Hp;
    (eapply shift_tags_bound; [|eassumption|exact Hp]; intros q Hq).
  - by apply (Hwf kw).
  - by apply (Hwf bi).
  - by apply (Hwf str).
  - by apply (Hwf comment).
Qed.

Lemma wf_auto_indent e t : wf t → wf (auto_indent e t).
Proof.
  intros Hwf. unfold auto_indent. destruct e as [ev|]; [|done].
  case_decide; [|done]. case_decide; auto using wf_insert_at_cursor.
Qed.

Lemma difference_all (s : gset nat) m :
  (∀ p, p ∈ s → p < m) → s ∖ set_seq 0 (m - 0) = ∅.
Proof.
  intros Hs. apply set_eq. intros p.
  rewrite elem_of_difference, elem_of_set_seq. split.
  - intros [Hp Hn]. apply Hs in Hp. lia.
  - intros Hp. by apply not_elem_of_empty in Hp.
Qed.

Lemma clear_tags_wf t : wf t → clear_tags t = untagged (chars t) (insert t).
Proof.
  intros Hwf. destruct t as [cs i s1 s2 s3 s4].
  unfold clear_tags, tag_remove, set_tagged, untagged, end_index, content.
  cbn [chars insert tag_kw tag_bi tag_str tag_comment tagged].
  f_equal; apply difference_all; intros p Hp.
  - apply (Hwf kw p Hp).
  - apply (Hwf bi p Hp).
  - apply (Hwf str p Hp).
  - apply (Hwf comment p Hp).
Qed.

Lemma chars_clear_tags t : chars (clear_tags t) = chars t.
Proof. unfold clear_tags. by rewrite !chars_tag_remove. Qed.

Lemma insert_clear_tags t : insert (clear_tags t) = insert t.
Proof. unfold clear_tags. by rewrite !insert_tag_remove. Qed.


(** The stages of a pass: the widget after the keyword loop, the builtin
    loop, the two string loops and the comment loop. *)
Lemma syntaxHighlight_stages syntax e t :
  valid_syntax syntax →
  ∃ t1 t2 t3 t4 t5 qs1 qs2 hs,
    token_pass kw (keywords syntax) (clear_tags (auto_indent e t)) = Done t1
    ∧ token_pass bi (builtins syntax) t1 = Done t2
    ∧ quote_scan dquote t2 = Done (t3, qs1)
    ∧ quote_scan squote t3 = Done (t4, qs2)
    ∧ comment_scan t4 = Done (t5, hs)
    ∧ syntaxHighlight syntax e t = Done t5.
Proof.
  intros [Hkw Hbi]. unfold syntaxHighlight.
  destruct (token_pass_spec kw _ Hkw (clear_tags (auto_indent e t))) as (t1 & H1 & _).
  destruct (token_pass_spec bi _ Hbi t1) as (t2 & H2 & _).
  destruct (quote_scan_spec dquote t2 ltac:(done)) as (t3 & qs1 & H3 & _).
  destruct (quote_scan_spec squote t3 ltac:(done)) as (t4 & qs2 & H4 & _).
  destruct (comment_scan_spec t4) as (t5 & hs & H5 & _).
  exists t1, t2, t3, t4, t5, qs1, qs2, hs.
  rewrite H1. cbn [mbind outcome_bind]. rewrite H2. cbn [mbind outcome_bind].
  rewrite H3. cbn [mbind outcome_bind]. rewrite H4. cbn [mbind outcome_bind].
  rewrite H5. by cbn [mbind outcome_bind].
Qed.

End pass_facts.

(** ** What a pass leaves in the widget *)

Section result_facts.
Implicit Types (t : Text) (k : Tag) (e : option Event) (p : nat).

Lemma quote_ok_bounds t q r :
  q ≠ newline → quote_ok t q r →
  q_open r < q_end r ≤ lineend t (q_open r)
  ∧ lineend t (q_open r) ≤ length (chars t).
Proof.
  intros Hq (Hopen & Hclose & Hend & _).
  apply search_Some in Hopen as (_ & Hocc & _); [|done].
  apply occurs_single in Hocc.
  pose proof (char_before_end _ _ _ Hq Hocc) as Ha.
  pose proof (lineend_gt _ _ _ Hq Hocc) as Hgt.
  pose proof (lineend_le t (q_open r) ltac:(lia)) as Hle.
  split; [|done]. rewrite Hend. destruct (q_close r) as [c|]; [|lia].
  symmetry in Hclose. apply search_Some in Hclose as (Hc & _); [lia|done].
Qed.

Lemma quote_spans_bound t q qs p :
  q ≠ newline → Forall (quote_ok t q) qs →
  p ∈ quote_spans qs → p < length (chars t).
Proof.
  intros Hq Hall Hp. apply elem_of_quote_spans in Hp as (r & Hr & Hp).
  rewrite Forall_forall in Hall.
  pose proof (quote_ok_bounds _ _ _ Hq (Hall r Hr)). lia.
Qed.

Lemma hash_spans_bound t hs p :
  Forall (hash_ok t) hs → p ∈ hash_spans t hs → p < length (chars t).
Proof.
  intros Hall Hp. apply elem_of_hash_spans in Hp as (h & Hh & _ & Hp).
  rewrite Forall_forall in Hall. destruct (Hall h Hh) as (Hs & _).
  apply search_Some in Hs as (_ & Hocc & _); [|done].
  apply occurs_single in Hocc.
  pose proof (char_before_end _ _ _ hash_not_newline Hocc) as Ha.
  pose proof (lineend_le t (h_index h) ltac:(lia)). lia.
Qed.

Lemma token_pass_bound k toks t t' p :
  Forall valid_token toks → token_pass k toks t = Done t' →
  p ∈ tagged k t' → p ∈ tagged k t ∨ p < length (chars t).
Proof.
  intros Hv Hpass Hp.
  destruct (token_pass_spec k toks Hv t) as (t'' & Hpass' & _ & _ & _ & _ & Hk).
  rewrite Hpass in Hpass'. injection Hpass' as <-.
  apply Hk in Hp as [Hp|(tok & j & Hin & Hocc & _ & Hj)]; [by left|right].
  rewrite Forall_forall in Hv.
  pose proof (occurs_within_chars _ _ _ (Hv tok Hin) Hocc). lia.
Qed.

(** After a pass over a well-formed widget: the characters and the cursor
    are those left by the automatic indentation, the Keyword and Builtin
    tags are those of the token loops, every tag lies on a character of the
    text, and no position carries both the String and the Comment tag. *)
Lemma syntaxHighlight_result syntax e t :
  valid_syntax syntax → wf t →
  ∃ t1 t2 t',
    token_pass kw (keywords syntax)
      (untagged (chars (auto_indent e t)) (insert (auto_indent e t))) = Done t1
    ∧ token_pass bi (builtins syntax) t1 = Done t2
    ∧ syntaxHighlight syntax e t = Done t'
    ∧ chars t' = chars (auto_indent e t)
    ∧ insert t' = insert (auto_indent e t)
    ∧ tagged kw t' = tagged kw t1
    ∧ tagged bi t' = tagged bi t2
    ∧ tagged bi t1 = ∅
    ∧ (∀ k p, p ∈ tagged k t' → p < length (chars t'))
    ∧ tagged str t' ∩ tagged comment t' = ∅.
Proof.
  intros Hv Hwf.
  destruct (syntaxHighlight_stages syntax e t Hv)
    as (t1 & t2 & t3 & t4 & t5 & qs1 & qs2 & hs & H1 & H2 & H3 & H4 & H5 & H).
  rewrite (clear_tags_wf _ (wf_auto_indent e t Hwf)) in H1.
  set (t0 := untagged (chars (auto_indent e t)) (insert (auto_indent e t))) in *.
  destruct Hv as [Hkw Hbi].
  destruct (token_pass_spec kw _ Hkw t0) as (? & E1 & Hc1 & Hi1 & Ho1 & _ & _).
  rewrite H1 in E1. injection E1 as <-.
  destruct (token_pass_spec bi _ Hbi t1) as (? & E2 & Hc2 & Hi2 & Ho2 & _ & _).
  rewrite H2 in E2. injection E2 as <-.
  destruct (quote_scan_spec dquote t2 ltac:(done))
    as (? & ? & E3 & Hc3 & Hi3 & Ho3 & Hs3 & _ & Hq3).
  rewrite H3 in E3. injection E3 as <- <-.
  destruct (quote_scan_spec squote t3 ltac:(done))
    as (? & ? & E4 & Hc4 & Hi4 & Ho4 & Hs4 & _ & Hq4).
  rewrite H4 in E4. injection E4 as <- <-.
  destruct (comment_scan_spec t4)
    as (? & ? & E5 & Hc5 & Hi5 & Ho5 & Hs5 & Hm5 & _ & Hh5 & _).
  rewrite H5 in E5. injection E5 as <- <-.
  assert (chars t5 = chars t0) as Hc by congruence.
  assert (tagged kw t5 = tagged kw t1) as Hkw5.
  { rewrite (Ho5 kw), (Ho4 kw), (Ho3 kw), (Ho2 kw); done. }
  assert (tagged bi t5 = tagged bi t2) as Hbi5.
  { rewrite (Ho5 bi), (Ho4 bi), (Ho3 bi); done. }
  assert (tagged comment t4 = ∅) as Hcom4.
  { rewrite (Ho4 comment), (Ho3 comment), (Ho2 comment), (Ho1 comment); done. }
  assert (tagged str t2 = ∅) as Hstr2.
  { rewrite (Ho2 str), (Ho1 str); done. }
  exists t1, t2, t5. split_and!; try done.
  - by rewrite Hi5, Hi4, Hi3, Hi2, Hi1.
  - by rewrite (Ho1 bi).
  - intros k p Hp. rewrite Hc. destruct k.
    + rewrite Hkw5 in Hp.
      destruct (token_pass_bound kw _ t0 t1 p Hkw H1 Hp) as [Hp'|Hp']; [|done].
      by apply not_elem_of_empty in Hp'.
    + rewrite Hbi5 in Hp.
      destruct (token_pass_bound bi _ t1 t2 p Hbi H2 Hp) as [Hp'|Hp'].
      * rewrite (Ho1 bi) in Hp' by done. by apply not_elem_of_empty in Hp'.
      * congruence.
    + rewrite Hs5 in Hp. apply elem_of_difference in Hp as [Hp _].
      rewrite Hs4, Hs3, Hstr2 in Hp.
      apply elem_of_union in Hp as [Hp|Hp];
        [apply elem_of_union in Hp as [Hp|Hp]|].
      * by apply not_elem_of_empty in Hp.
      * apply (quote_spans_bound t2 dquote) in Hp; [congruence|done|done].
      * apply (quote_spans_bound t3 squote) in Hp; [congruence|done|done].
    + rewrite Hm5, Hcom4 in Hp. apply elem_of_union in Hp as [Hp|Hp].
      * by apply not_elem_of_empty in Hp.
      * apply (hash_spans_bound t4) in Hp; [congruence|done].
  - rewrite Hs5, Hm5, Hcom4. apply set_eq. intros p.
    rewrite elem_of_intersection, elem_of_difference, elem_of_union.
    split; [|intros Hp; by apply not_elem_of_empty in Hp].
    intros [[_ Hn] [Hp|Hp]]; [by apply not_elem_of_empty in Hp|done].
Qed.

End result_facts.

(** ** Delimited occurrences do not overlap *)

Section overlap_facts.
Implicit Types (t : Text) (tok : list ascii) (j p q : nat).

Lemma occurs_same t1 t2 tok j :
  chars t1 = chars t2 → occurs t1 tok j → occurs t2 tok j.
Proof. intros H Hocc k Hk. rewrite <- (content_same _ _ H). by apply Hocc. Qed.

Lemma line_of_same t1 t2 j : chars t1 = chars t2 → line_of t1 j = line_of t2 j.
Proof.
  intros H. unfold line_of.
  by rewrite (get_same _ _ _ _ H), (linestart_same _ _ _ H), (lineend_same_text _ _ _ H).
Qed.

Lemma delimited_left t tok j c :
  valid_token tok → occurs t tok j →
  delimited (line_of t j) (column t j) (length tok) →
  0 < j → content t !! (j - 1) = Some c → c = newline ∨ c ∈ illegals.
Proof.
  intros Hv Hocc Hdel Hj Hc.
  pose proof (occurs_column _ _ _ Hv Hocc) as Hcol.
  pose proof (occurs_within_line _ _ _ Hv Hocc) as Hline.
  pose proof (valid_token_length _ Hv) as Hlen.
  pose proof (column_plus t j) as Hplus.
  destruct (decide (column t j = 0)) as [Hz|Hnz].
  - left. destruct (linestart_in_prev (content t) j) as [H0|(e & He & Hnl)];
      fold (linestart t j) in *; [lia|].
    replace (j - 1) with e in Hc by lia. congruence.
  - right.
    assert (∃ c', line_of t j !! (column t j - 1) = Some c' ∧ c' ∈ illegals)
      as (c' & Hc' & Hin).
    { destruct Hdel as [Hw|[(? & _)|[(_ & _ & H)|(_ & _ & H & _)]]]; try done.
      apply delimited_whole in Hw; [lia|done]. }
    rewrite line_of_lookup in Hc' by lia.
    replace (linestart t j + (column t j - 1)) with (j - 1) in Hc' by lia.
    congruence.
Qed.

Lemma delimited_right t tok j c :
  valid_token tok → occurs t tok j →
  delimited (line_of t j) (column t j) (length tok) →
  content t !! (j + length tok) = Some c → c = newline ∨ c ∈ illegals.
Proof.
  intros Hv Hocc Hdel Hc.
  pose proof (occurs_column _ _ _ Hv Hocc) as Hcol.
  pose proof (occurs_within_line _ _ _ Hv Hocc) as Hline.
  pose proof (occurs_within_chars _ _ _ Hv Hocc) as Hchars.
  pose proof (column_plus t j) as Hplus.
  pose proof (line_of_length t j ltac:(lia)) as Hll.
  destruct (decide (j + length tok = lineend t j)) as [He|Hne].
  - left. rewrite He, lineend_newline in Hc by lia. congruence.
  - right.
    assert (∃ c', line_of t j !! (column t j + length tok) = Some c' ∧ c' ∈ illegals)
      as (c' & Hc' & Hin).
    { destruct Hdel as [Hw|[(_ & H)|[(? & _)|(_ & _ & _ & H)]]]; try done.
      - apply delimited_whole in Hw; [lia|done].
      - lia. }
    rewrite line_of_lookup in Hc' by lia.
    replace (linestart t j + (column t j + length tok)) with (j + length tok)
      in Hc' by lia.
    congruence.
Qed.

Lemma occurs_legal t tok j q c :
  identifier_token tok → occurs t tok j → j ≤ q < j + length tok →
  content t !! q = Some c → c ≠ newline ∧ c ∉ illegals.
Proof.
  intros [[_ Hnl] Hleg] Hocc Hq Hc. specialize (Hocc (q - j) ltac:(lia)).
  replace (j + (q - j)) with q in Hocc by lia. rewrite Hc in Hocc.
  symmetry in Hocc. apply list_elem_of_lookup_2 in Hocc.
  split; [by intros ->|by apply Hleg].
Qed.

Lemma occurs_lookup t tok j q :
  valid_token tok → occurs t tok j → j ≤ q < j + length tok →
  ∃ c, content t !! q = Some c.
Proof.
  intros Hv Hocc Hq. apply lookup_lt_is_Some_2.
  pose proof (occurs_within_chars _ _ _ Hv Hocc). rewrite content_length. lia.
Qed.

(** The start of one delimited occurrence cannot lie strictly inside
    another occurrence of identifier characters. *)
Lemma delimited_start_le t tok1 tok2 j1 j2 p :
  identifier_token tok1 → identifier_token tok2 →
  occurs t tok1 j1 → occurs t tok2 j2 →
  delimited (line_of t j2) (column t j2) (length tok2) →
  j1 ≤ p < j1 + length tok1 → j2 ≤ p < j2 + length tok2 →
  j2 ≤ j1.
Proof.
  intros Hi1 Hi2 Ho1 Ho2 Hd2 Hp1 Hp2.
  destruct (decide (j1 < j2)) as [Hlt|]; [exfalso|lia].
  destruct (occurs_lookup t tok1 j1 (j2 - 1) (proj1 Hi1) Ho1 ltac:(lia)) as [c Hc].
  destruct (occurs_legal t tok1 j1 (j2 - 1) c Hi1 Ho1 ltac:(lia) Hc) as [Hnl Hleg].
  destruct (delimited_left t tok2 j2 c (proj1 Hi2) Ho2 Hd2 ltac:(lia) Hc); done.
Qed.

Lemma delimited_end_le t tok1 tok2 j1 j2 p :
  identifier_token tok1 → identifier_token tok2 →
  occurs t tok1 j1 → occurs t tok2 j2 →
  delimited (line_of t j2) (column t j2) (length tok2) →
  j1 ≤ p < j1 + length tok1 → j2 ≤ p < j2 + length tok2 →
  j1 + length tok1 ≤ j2 + length tok2.
Proof.
  intros Hi1 Hi2 Ho1 Ho2 Hd2 Hp1 Hp2.
  destruct (decide (j2 + length tok2 < j1 + length tok1)) as [Hlt|]; [exfalso|lia].
  destruct (occurs_lookup t tok1 j1 (j2 + length tok2) (proj1 Hi1) Ho1 ltac:(lia))
    as [c Hc].
  destruct (occurs_legal t tok1 j1 (j2 + length tok2) c Hi1 Ho1 ltac:(lia) Hc)
    as [Hnl Hleg].
  destruct (delimited_right t tok2 j2 c (proj1 Hi2) Ho2 Hd2 Hc); done.
Qed.

Lemma delimited_overlap t tok1 tok2 j1 j2 p :
  identifier_token tok1 → identifier_token tok2 →
  occurs t tok1 j1 → occurs t tok2 j2 →
  delimited (line_of t j1) (column t j1) (length tok1) →
  delimited (line_of t j2) (column t j2) (length tok2) →
  j1 ≤ p < j1 + length tok1 → j2 ≤ p < j2 + length tok2 →
  tok1 = tok2.
Proof.
  intros Hi1 Hi2 Ho1 Ho2 Hd1 Hd2 Hp1 Hp2.
  pose proof (delimited_start_le t tok1 tok2 j1 j2 p Hi1 Hi2 Ho1 Ho2 Hd2 Hp1 Hp2).
  pose proof (delimited_start_le t tok2 tok1 j2 j1 p Hi2 Hi1 Ho2 Ho1 Hd1 Hp2 Hp1).
  pose proof (delimited_end_le t tok1 tok2 j1 j2 p Hi1 Hi2 Ho1 Ho2 Hd2 Hp1 Hp2).
  pose proof (delimited_end_le t tok2 tok1 j2 j1 p Hi2 Hi1 Ho2 Ho1 Hd1 Hp2 Hp1).
  assert (j1 = j2) as -> by lia.
  assert (length tok1 = length tok2) as Hlen by lia.
  apply list_eq. intros k.
  destruct (decide (k < length tok1)) as [Hk|Hk].
  - rewrite <- (Ho1 k Hk). apply Ho2. lia.
  - rewrite !lookup_ge_None_2; [done|lia|lia].
Qed.

Lemma identifier_token_valid toks :
  Forall identifier_token toks → Forall valid_token toks.
Proof. intros H. eapply Forall_impl; [exact H|]. by intros tok [? _]. Qed.

(** Where the Keyword and Builtin tags of a pass come from. *)
Lemma syntaxHighlight_origin syntax e t :
  valid_syntax syntax → wf t →
  ∃ t',
    syntaxHighlight syntax e t = Done t'
    ∧ (∀ p, p ∈ tagged kw t' →
         ∃ tok j, tok ∈ keywords syntax ∧ occurs t' tok j
           ∧ delimited (line_of t' j) (column t' j) (length tok)
           ∧ j ≤ p < j + length tok)
    ∧ (∀ p, p ∈ tagged bi t' →
         ∃ tok j, tok ∈ builtins syntax ∧ occurs t' tok j
           ∧ delimited (line_of t' j) (column t' j) (length tok)
           ∧ j ≤ p < j + length tok).
Proof.
  intros Hv Hwf.
  destruct (syntaxHighlight_result syntax e t Hv Hwf)
    as (t1 & t2 & t' & H1 & H2 & H & Hc & _ & Hkw' & Hbi' & Hbi1 & _).
  destruct Hv as [Hkw Hbi].
  set (t0 := untagged (chars (auto_indent e t)) (insert (auto_indent e t))) in *.
  destruct (token_pass_spec kw _ Hkw t0) as (? & E1 & Hc1 & _ & _ & _ & Hk1).
  rewrite H1 in E1. injection E1 as <-.
  destruct (token_pass_spec bi _ Hbi t1) as (? & E2 & Hc2 & _ & _ & _ & Hk2).
  rewrite H2 in E2. injection E2 as <-.
  assert (chars t0 = chars t') as Hc0 by (by rewrite Hc).
  assert (chars t1 = chars t') as Hc1' by (by rewrite Hc1).
  exists t'. split; [done|]. split.
  - intros p Hp. rewrite Hkw' in Hp.
    apply Hk1 in Hp as [Hp|(tok & j & Hin & Hocc & Hdel & Hj)].
    { by apply not_elem_of_empty in Hp. }
    exists tok, j. split_and!; try done; try lia.
    + by apply (occurs_same t0).
    + by rewrite <- (line_of_same _ _ _ Hc0), <- (column_same _ _ _ Hc0).
  - intros p Hp. rewrite Hbi' in Hp.
    apply Hk2 in Hp as [Hp|(tok & j & Hin & Hocc & Hdel & Hj)].
    { rewrite Hbi1 in Hp. by apply not_elem_of_empty in Hp. }
    exists tok, j. split_and!; try done; try lia.
    + by apply (occurs_same t1).
    + by rewrite <- (line_of_same _ _ _ Hc1'), <- (column_same _ _ _ Hc1').
Qed.

End overlap_facts.

(** ** The automatic indentation *)

Section indent_facts.
Implicit Types (t : Text) (pre mid rest prev post : list ascii) (i j : nat).

Lemma lineend_at_newline t i : content t !! i = Some newline → lineend t i = i.
Proof.
  intros Hi. apply Nat.le_antisymm; [|apply lineend_ge]. by apply lineend_least.
Qed.

Lemma content_app_lookup t pre mid rest j :
  chars t = pre ++ mid ++ rest → j < length mid →
  content t !! (length pre + j) = mid !! j.
Proof.
  intros Hc Hj. unfold content. rewrite Hc, <- !(assoc_L (++)).
  rewrite lookup_app_r by lia. replace (length pre + j - length pre) with j by lia.
  by rewrite lookup_app_l.
Qed.

Lemma linestart_at t pre rest :
  chars t = pre ++ rest → (pre = [] ∨ last pre = Some newline) →
  linestart t (length pre) = length pre.
Proof.
  intros Hc [->|Hlast]; [done|].
  destruct pre as [|c pre _] using rev_ind; [done|].
  rewrite last_snoc in Hlast. injection Hlast as ->.
  rewrite length_app. simpl. replace (length pre + 1) with (S (length pre)) by lia.
  unfold linestart. simpl.
  assert (content t !! length pre = Some newline) as ->.
  { unfold content. rewrite Hc, <- !(assoc_L (++)).
    rewrite lookup_app_r by lia. by rewrite Nat.sub_diag. }
  by rewrite decide_True.
Qed.

Lemma linestart_after t pre mid rest j :
  chars t = pre ++ mid ++ rest → (pre = [] ∨ last pre = Some newline) →
  newline ∉ mid → j ≤ length mid →
  linestart t (length pre + j) = length pre.
Proof.
  intros Hc Hpre Hmid Hj.
  rewrite <- (linestart_at t pre (mid ++ rest) Hc Hpre) at 2.
  apply linestart_in_same; [lia|].
  intros p Hp Hnl. replace p with (length pre + (p - length pre)) in Hnl by lia.
  rewrite (content_app_lookup t pre mid rest) in Hnl by (done || lia).
  apply Hmid. by eapply list_elem_of_lookup_2.
Qed.

Lemma lineend_before t pre mid rest j :
  chars t = pre ++ mid ++ newline :: rest → newline ∉ mid → j ≤ length mid →
  lineend t (length pre + j) = length pre + length mid.
Proof.
  intros Hc Hmid Hj.
  assert (content t !! (length pre + length mid) = Some newline) as Hnl.
  { unfold content. rewrite Hc, <- !(assoc_L (++)).
    rewrite lookup_app_r by lia. rewrite lookup_app_r by lia.
    by replace (length pre + length mid - length pre - length mid) with 0 by lia. }
  apply Nat.le_antisymm.
  - apply lineend_least; [lia|done].
  - destruct (decide (lineend t (length pre + j) < length pre + length mid))
      as [Hlt|]; [|lia].
    exfalso. pose proof (lineend_ge t (length pre + j)) as Hge.
    assert (length pre + j ≤ length (chars t)) as Hin.
    { rewrite Hc, !length_app. simpl. lia. }
    pose proof (lineend_newline t (length pre + j) Hin) as Hnl'.
    replace (lineend t (length pre + j))
      with (length pre + (lineend t (length pre + j) - length pre)) in Hnl' by lia.
    rewrite (content_app_lookup t pre mid (newline :: rest)) in Hnl' by (done || lia).
    apply Hmid. by eapply list_elem_of_lookup_2.
Qed.

Lemma get_middle t pre mid rest :
  chars t = pre ++ mid ++ rest →
  get t (length pre) (length pre + length mid) = mid.
Proof.
  intros Hc. unfold get, content. rewrite Hc, <- !(assoc_L (++)).
  rewrite drop_app_length.
  replace (length pre + length mid - length pre) with (length mid) by lia.
  by rewrite take_app_length.
Qed.

Lemma get_char_lookup t i c : content t !! i = Some c → get_char t i = [c].
Proof.
  intros Hi. unfold get_char.
  rewrite <- (take_drop_middle _ _ _ Hi), drop_app_length'
    by (rewrite length_take; apply lookup_lt_Some in Hi; lia).
  done.
Qed.

Lemma lstrip_length s : length s - length (lstrip s) = leading_whitespace s.
Proof.
  induction s as [|c s IH]; simpl; [done|].
  destruct (isspace c); simpl; [|lia].
  pose proof (f_equal S IH) as H. rewrite <- H.
  assert (length (lstrip s) ≤ length s); [|lia].
  clear. induction s as [|c s IH]; simpl; [done|]. destruct (isspace c); simpl; lia.
Qed.

Lemma mul_spaces k : mul (mul [space] 4) k = replicate (k * 4) space.
Proof.
  unfold mul. change (mjoin (replicate 4 [space])) with (replicate 4 space).
  induction k as [|k IH]; [done|].
  change (replicate (S k) (replicate 4 space))
    with (replicate 4 space :: replicate k (replicate 4 space)).
  change (mjoin (replicate 4 space :: replicate k (replicate 4 space)))
    with (replicate 4 space ++ mjoin (replicate k (replicate 4 space))).
  by rewrite IH.
Qed.

Lemma newline_not_in_spaces n : newline ∉ replicate n space.
Proof. intros Hin. by apply elem_of_replicate in Hin as [? _]. Qed.

Lemma auto_indent_return t pre prev post :
  chars t = pre ++ prev ++ newline :: post →
  insert t = length pre + length prev + 1 →
  (pre = [] ∨ last pre = Some newline) → newline ∉ prev →
  chars (auto_indent (Some (mkEvent "Return")) t)
  = pre ++ prev ++ newline :: replicate (indent_of prev) space ++ post
  ∧ insert (auto_indent (Some (mkEvent "Return")) t) = insert t + indent_of prev.
Proof.
  intros Hc Hi Hpre Hprev. unfold auto_indent. cbn [keysym].
  rewrite decide_True by done.
  replace (back (insert t) 1) with (length pre + length prev) by (unfold back; lia).
  rewrite (linestart_after t pre prev (newline :: post) (length prev) Hc Hpre Hprev)
    by lia.
  rewrite (lineend_before t pre prev post (length prev) Hc Hprev) by lia.
  rewrite (get_middle t pre prev _ Hc), lstrip_length, mul_spaces.
  set (n := leading_whitespace prev / 4 * 4).
  set (t1 := insert_at_cursor (replicate n space) t).
  assert (chars t1 = pre ++ prev ++ newline :: replicate n space ++ post) as Hc1.
  { subst t1. unfold insert_at_cursor. cbn [chars]. rewrite Hi, Hc.
    replace ((length pre + length prev + 1)
               `min` length (pre ++ prev ++ newline :: post))
      with (length (pre ++ prev ++ [newline]))
      by (rewrite !length_app; simpl; lia).
    replace (pre ++ prev ++ newline :: post)
      with ((pre ++ prev ++ [newline]) ++ post)
      by (by rewrite <- !(assoc_L (++))).
    rewrite take_app_length, drop_app_length. by rewrite <- !(assoc_L (++)). }
  assert (insert t1 = length pre + length prev + 1 + n) as Hi1.
  { subst t1. unfold insert_at_cursor. cbn [insert]. rewrite Hi, Hc, length_replicate.
    rewrite !length_app. simpl. lia. }
  assert (linestart t1 (insert t1) = S (length pre + length prev)) as Hls.
  { rewrite Hi1.
    replace (length pre + length prev + 1 + n)
      with (length (pre ++ prev ++ [newline]) + n)
      by (rewrite !length_app; simpl; lia).
    rewrite (linestart_after t1 (pre ++ prev ++ [newline]) (replicate n space) post).
    - rewrite !length_app. simpl. lia.
    - rewrite Hc1. by rewrite <- !(assoc_L (++)).
    - right. by rewrite !(assoc_L (++)), last_snoc.
    - apply newline_not_in_spaces.
    - by rewrite length_replicate. }
  assert (lineend t1 (line_up t1 (insert t1)) = length pre + length prev) as Hle.
  { unfold line_up. rewrite Hls.
    rewrite (linestart_after t1 pre prev (newline :: replicate n space ++ post)
               (length prev) Hc1 Hpre Hprev) by lia.
    set (col := column t1 (insert t1)).
    replace ((length pre + col) `min` (length pre + length prev))
      with (length pre + (col `min` length prev)) by lia.
    apply (lineend_before t1 pre prev (replicate n space ++ post)); [done|done|lia]. }
  rewrite Hle.
  assert (get_char t1 (back (length pre + length prev) 1) = [colon]
          ↔ last prev = Some colon) as Hcolon.
  { unfold back. destruct prev as [|c prev _] using rev_ind.
    - simpl. rewrite Nat.add_0_r. split; [|done].
      assert (content t1 !! (length pre - 1) = Some newline) as Hnl.
      { unfold content. rewrite Hc1. simpl.
        destruct Hpre as [->|Hlast]; [done|].
        destruct pre as [|d pre _] using rev_ind; [done|].
        rewrite last_snoc in Hlast. injection Hlast as ->.
        rewrite length_app. simpl.
        replace (length pre + 1 - 1) with (length pre) by lia.
        rewrite <- !(assoc_L (++)). rewrite lookup_app_r by lia.
        by rewrite Nat.sub_diag. }
      rewrite (get_char_lookup _ _ _ Hnl). done.
    - rewrite last_snoc, length_app. simpl.
      replace (length pre + (length prev + 1) - 1) with (length pre + length prev)
        by lia.
      assert (content t1 !! (length pre + length prev) = Some c) as Hlk.
      { rewrite (content_app_lookup t1 pre (prev ++ [c]) _ _ Hc1)
          by (rewrite length_app; simpl; lia).
        rewrite lookup_app_r by lia. by rewrite Nat.sub_diag. }
      rewrite (get_char_lookup _ _ _ Hlk). split; congruence. }
  unfold indent_of. fold n.
  destruct (decide (last prev = Some colon)) as [Hlast|Hlast].
  - rewrite decide_True by (by apply Hcolon).
    unfold insert_at_cursor at 1 2. cbn [chars insert]. rewrite Hi1, Hc1. split.
    + replace ((length pre + length prev + 1 + n)
                 `min` length (pre ++ prev ++ newline :: replicate n space ++ post))
        with (length (pre ++ prev ++ newline :: replicate n space))
        by (rewrite !length_app; simpl; rewrite !length_app, length_replicate; lia).
      replace (pre ++ prev ++ newline :: replicate n space ++ post)
        with ((pre ++ prev ++ newline :: replicate n space) ++ post)
        by (by rewrite <- !(assoc_L (++))).
      rewrite take_app_length, drop_app_length.
      rewrite <- !(assoc_L (++)). simpl.
      do 3 f_equal. rewrite replicate_add. by rewrite <- (assoc_L (++)).
    + rewrite !length_app. simpl. rewrite !length_app, length_replicate. simpl. lia.
  - rewrite decide_False by (by rewrite Hcolon).
    rewrite Hc1, Hi1, Nat.add_0_r. split; [done|lia].
Qed.

End indent_facts.

Section indent_frame.
Implicit Types (t : Text) (e : option Event) (cs : list ascii).

Lemma chars_insert_at_cursor cs t :
  chars (insert_at_cursor cs t)
  = take (insert t) (chars t) ++ cs ++ drop (insert t) (chars t).
Proof.
  unfold insert_at_cursor. cbn [chars].
  destruct (Nat.min_spec (insert t) (length (chars t))) as [[_ ->]|[Hle ->]]; [done|].
  by rewrite firstn_all, drop_all, (take_ge _ (insert t)), (drop_ge _ (insert t)).
Qed.

Lemma insert_insert_at_cursor cs t :
  insert (insert_at_cursor cs t) = insert t `min` length (chars t) + length cs.
Proof. done. Qed.

Lemma line_up_same t1 t2 i : chars t1 = chars t2 → line_up t1 i = line_up t2 i.
Proof.
  intros H. unfold line_up. rewrite (linestart_same _ _ _ H), (column_same _ _ _ H).
  destruct (linestart t2 i); [done|]. by rewrite (linestart_same _ _ _ H).
Qed.

Lemma get_char_same t1 t2 i : chars t1 = chars t2 → get_char t1 i = get_char t2 i.
Proof. intros H. unfold get_char. by rewrite (content_same _ _ H). Qed.

Lemma insert_at_cursor_same cs t1 t2 :
  chars t1 = chars t2 → insert t1 = insert t2 →
  chars (insert_at_cursor cs t1) = chars (insert_at_cursor cs t2)
  ∧ insert (insert_at_cursor cs t1) = insert (insert_at_cursor cs t2).
Proof.
  intros Hc Hi. by rewrite !chars_insert_at_cursor, !insert_insert_at_cursor, Hc, Hi.
Qed.

(** The indentation reads the characters and the cursor only. *)
Lemma auto_indent_same e t1 t2 :
  chars t1 = chars t2 → insert t1 = insert t2 →
  chars (auto_indent e t1) = chars (auto_indent e t2)
  ∧ insert (auto_indent e t1) = insert (auto_indent e t2).
Proof.
  intros Hc Hi. unfold auto_indent. destruct e as [ev|]; [|done].
  case_decide; [|done].
  rewrite (linestart_same _ _ _ Hc), (lineend_same_text _ _ _ Hc),
    (get_same _ _ _ _ Hc), Hi.
  set (sp := mul _ _).
  destruct (insert_at_cursor_same sp t1 t2 Hc Hi) as [Hc1 Hi1].
  rewrite (get_char_same _ _ _ Hc1), (lineend_same_text _ _ _ Hc1),
    (line_up_same _ _ _ Hc1), Hi1.
  case_decide; [|done].
  by apply insert_at_cursor_same.
Qed.

(** The indentation only puts spaces at the cursor, and none unless the key
    is the enter key. *)
Lemma auto_indent_chars e t :
  ∃ n, chars (auto_indent e t)
       = take (insert t) (chars t) ++ replicate n space ++ drop (insert t) (chars t)
     ∧ ((∀ ev, e = Some ev → keysym ev ≠ "Return") → n = 0).
Proof.
  assert (chars t = take (insert t) (chars t) ++ replicate 0 space
                    ++ drop (insert t) (chars t)) as Hsame.
  { simpl. by rewrite take_drop. }
  unfold auto_indent. destruct e as [ev|]; [|by exists 0].
  case_decide as Hkey; [|by exists 0].
  rewrite lstrip_length, mul_spaces.
  set (n := _ / 4 * 4). set (t1 := insert_at_cursor (replicate n space) t).
  case_decide.
  - exists (n + 4). split; [|intros Hne; by destruct (Hne ev eq_refl)].
    rewrite chars_insert_at_cursor. subst t1.
    rewrite chars_insert_at_cursor, insert_insert_at_cursor, length_replicate.
    set (i := insert t `min` length (chars t)).
    assert (take (insert t) (chars t) = take i (chars t)) as ->.
    { subst i. destruct (Nat.min_spec (insert t) (length (chars t)))
        as [[_ ->]|[Hle ->]]; [done|]. by rewrite firstn_all, take_ge. }
    assert (length (take i (chars t)) = i) as Hlen.
    { rewrite length_take. subst i. lia. }
    rewrite (assoc_L (++) (take i (chars t))).
    replace (i + n) with (length (take i (chars t) ++ replicate n space))
      by (rewrite length_app, length_replicate; lia).
    rewrite take_app_length, drop_app_length.
    rewrite <- !(assoc_L (++)). f_equal.
    rewrite replicate_add. by rewrite <- (assoc_L (++)).
  - exists n. split; [|intros Hne; by destruct (Hne ev eq_refl)].
    subst t1. by rewrite chars_insert_at_cursor.
Qed.

End indent_frame.

(** * Properties of the highlighting pass *)

Lemma spec_syntax_valid : valid_syntax spec_syntax.
Proof. by apply (bool_decide_unpack _). Qed.

(** Where every character takes one index position, as the characters
    0..255 of these texts do, a Tk column is a Python index: for every token
    [tok] and every occurrence visited by its scan (each search resumes at
    the end of the previous match, the first at "1.0"), the scan adds the tag
    to the occurrence if and only if it is a delimited whole-token
    occurrence in the sense of section 4.1, and the positions of the tagged
    occurrences are exactly what the scan adds to the tag.  With [for] as a
    keyword, the line [for] is tagged as a whole, the line [before] is not
    tagged and in [x=for;] the [for] is tagged. *)
Theorem token_tagged_iff_delimited :
  (∀ (k : Tag) (tok : list ascii) (t : Text),
     valid_token tok →
     ∃ t' vs,
       token_scan k tok t = Done (t', vs)
       ∧ resumes v_from (λ v, v_index v + length tok) 0 vs
       ∧ tagged k t' = tagged k t ∪ visit_spans (length tok) vs
       ∧ ∀ v, v ∈ vs →
           search t tok (v_from v) (end_index t) = Some (v_index v)
           ∧ (v_tagged v = true ↔
              delimited (line_of t (v_index v)) (column t (v_index v)) (length tok))
           ∧ (v_tagged v = true ↔
              ∀ p, v_index v ≤ p < v_index v + length tok →
                   p ∈ visit_spans (length tok) vs))
  ∧ highlighted spec_syntax (text "for") kw = Done (span 0 3)
  ∧ highlighted spec_syntax (text "before") kw = Done ∅
  ∧ highlighted spec_syntax (text "x=for;") kw = Done (span 2 5).
Proof.
  split; [|by vm_compute].
  intros k tok t Hv.
  destruct (token_scan_spec k tok t Hv) as (t' & vs & Hs & _ & _ & _ & Hk & Hres & Hall).
  exists t', vs. split_and!; try done.
  intros v Hin. pose proof Hall as Hall'. rewrite Forall_forall in Hall'.
  pose proof (Hall' v Hin) as Hok. pose proof Hok as (Hsearch & _).
  apply (visit_ok_occurs _ _ _ Hv) in Hok as (_ & _ & Hiff & _).
  split_and!; try done. split.
  - intros Htag p Hp. apply elem_of_visit_spans. eauto.
  - intros Hcover. pose proof (valid_token_length _ Hv) as Hlen.
    pose proof (Hcover (v_index v) ltac:(lia)) as Hc.
    apply elem_of_visit_spans in Hc as (v' & Hin' & Htag' & Hp).
    by rewrite (visits_disjoint t tok 0 vs Hv Hres Hall v v' (v_index v) Hin Hin'
                  ltac:(lia) Hp).
Qed.

Lemma token_tagged_iff_delimited_witness :
  valid_token (text "for")
  ∧ ∃ t' vs,
      token_scan kw (text "for") (untagged (text "x=for;") 0) = Done (t', vs)
      ∧ resumes v_from (λ v, v_index v + length (text "for")) 0 vs
      ∧ tagged kw t'
        = tagged kw (untagged (text "x=for;") 0)
          ∪ visit_spans (length (text "for")) vs
      ∧ ∀ v, v ∈ vs →
          search (untagged (text "x=for;") 0) (text "for") (v_from v)
            (end_index (untagged (text "x=for;") 0)) = Some (v_index v)
          ∧ (v_tagged v = true ↔
             delimited (line_of (untagged (text "x=for;") 0) (v_index v))
               (column (untagged (text "x=for;") 0) (v_index v))
               (length (text "for")))
          ∧ (v_tagged v = true ↔
             ∀ p, v_index v ≤ p < v_index v + length (text "for") →
                  p ∈ visit_spans (length (text "for")) vs).
Proof.
  assert (valid_token (text "for")) as Hv by (by apply (bool_decide_unpack _)).
  split; [exact Hv|].
  exact (proj1 token_tagged_iff_delimited kw (text "for")
           (untagged (text "x=for;") 0) Hv).
Defined.



(** C3. For every hash sign of the widget, with the double quotes and the
    single quotes of its line counted strictly before its column: when both
    counts are even, every position from the hash sign to the end of its line
    carries the Comment tag and no String tag after the scan; when one of
    the counts is odd, the scan adds no Comment tag at the hash sign, and no
    range of positions tagged by the scan begins there. *)
Theorem comment_scan_parity (t : Text) :
  ∃ t' hs,
    comment_scan t = Done (t', hs)
    ∧ tagged comment t' = tagged comment t ∪ hash_spans t hs
    ∧ tagged str t' = tagged str t ∖ hash_spans t hs
    ∧ ∀ i, content t !! i = Some hash →
        let before := get t (linestart t i) i in
        (count before dquote mod 2 = 0 ∧ count before squote mod 2 = 0 →
         ∀ p, i ≤ p < lineend t i → p ∈ tagged comment t' ∧ p ∉ tagged str t')
        ∧ (count before dquote mod 2 ≠ 0 ∨ count before squote mod 2 ≠ 0 →
           (∀ h, h ∈ hs → h_index h = i → h_comment h = false)
           ∧ (i ∈ hash_spans t hs → linestart t i < i ∧ i - 1 ∈ hash_spans t hs)).
Proof.
  destruct (comment_scan_spec t)
    as (t' & hs & Hs & _ & _ & _ & Hstr & Hcom & _ & Hall & Hcov).
  exists t', hs. split_and!; try done.
  rewrite Forall_forall in Hall.
  intros i Hi before. pose proof (char_before_end _ _ _ hash_not_newline Hi) as Hilt.
  split.
  - intros [Hd Hq] p Hp.
    assert (even_quotes t i = true) as Heven.
    { unfold even_quotes. fold before. rewrite Hd, Hq. done. }
    assert (p ∈ hash_spans t hs) as Hin.
    { apply elem_of_hash_spans.
      destruct (Hcov i Hi) as (h & Hh & [Hidx|(Hc & Hlo & Hhi)]).
      - exists h. split; [done|]. destruct (Hall h Hh) as (_ & Hhc).
        rewrite Hidx in *. split; [congruence|lia].
      - exists h. split; [done|]. split; [done|].
        rewrite <- (lineend_same t (h_index h) i) by lia. lia. }
    rewrite Hcom, Hstr. split; [apply elem_of_union; by right|].
    intros Hn. apply elem_of_difference in Hn as [_ Hn]. done.
  - intros Hodd.
    assert (even_quotes t i = false) as Heven.
    { unfold even_quotes. fold before. apply andb_false_iff.
      destruct Hodd as [H|H]; [left|right]; by apply Nat.eqb_neq. }
    split.
    + intros h Hh Hidx. destruct (Hall h Hh) as (_ & Hhc). congruence.
    + intros Hin. apply elem_of_hash_spans in Hin as (h & Hh & Hc & Hlo & Hhi).
      destruct (Hall h Hh) as (_ & Hhc).
      assert (h_index h ≠ i) as Hne by (intros Heq; congruence).
      split.
      * unfold linestart.
        rewrite (linestart_in_same (content t) (h_index h) i) by
          (try lia; intros q Hq; apply (lineend_no_newline t (h_index h)); lia).
        pose proof (linestart_in_le (content t) (h_index h)). lia.
      * apply elem_of_hash_spans. exists h. split_and!; try done; lia.
Qed.

(** C5, as the claim states it, fails on the second line, [s = "a" # b]: the
    positions from the space before the hash sign (column 7) to the end of
    the line are not all tagged Comment. *)
Lemma comment_excludes_space_before_hash :
  ¬ ∃ s, highlighted spec_syntax
           (text "s = " ++ [dquote] ++ text "a" ++ [dquote] ++ text " # b") comment
         = Done s
       ∧ ∀ p, 7 ≤ p < 11 → p ∈ s.
Proof.
  intros (s & Hs & Hall). vm_compute in Hs. injection Hs as <-.
  specialize (Hall 7 ltac:(lia)). by vm_compute in Hall.
Qed.

(** C5, amended. On the one-line text with a single double quote before the
    hash sign ([s = ], a double quote, [a # b]) no position is tagged
    Comment; on [s = "a" # b] (two double quotes before it) exactly [# b],
    from the hash sign at column 8 to the end of the line, is tagged
    Comment. *)
Theorem comment_examples :
  highlighted spec_syntax (text "s = " ++ [dquote] ++ text "a # b") comment
  = Done ∅
  ∧ highlighted spec_syntax
      (text "s = " ++ [dquote] ++ text "a" ++ [dquote] ++ text " # b") comment
    = Done (span 8 11).
Proof. by vm_compute. Qed.

(** On the key release of the enter key, with the cursor just after the
    newline that ends the line [prev], as the key leaves it: before any tag
    is touched, floor(L/4)*4 spaces are put at the cursor, [L] being the
    length of the leading whitespace run of [prev], and 4 more when [prev]
    ends in a colon (and only then); the pass ends with that text.  After
    the line [    if x:] 8 spaces are inserted, after [  y = 1] none. *)
Theorem return_inserts_indent :
  (∀ (syntax : Syntax) (t : Text) (pre prev post : list ascii),
     valid_syntax syntax →
     chars t = pre ++ prev ++ newline :: post →
     insert t = length pre + length prev + 1 →
     (pre = [] ∨ last pre = Some newline) →
     newline ∉ prev →
     chars (auto_indent (Some (mkEvent "Return")) t)
     = pre ++ prev ++ newline :: replicate (indent_of prev) space ++ post
     ∧ ∃ t',
         syntaxHighlight syntax (Some (mkEvent "Return")) t = Done t'
         ∧ chars t'
           = pre ++ prev ++ newline :: replicate (indent_of prev) space ++ post
         ∧ insert t' = insert t + indent_of prev)
  ∧ (∀ prev, indent_of prev
             = leading_whitespace prev / 4 * 4
               + (if decide (last prev = Some colon) then 4 else 0))
  ∧ indent_of (text "    if x:") = 8
  ∧ indent_of (text "  y = 1") = 0.
Proof.
  split; [|by vm_compute].
  intros syntax t pre prev post Hv Hc Hi Hpre Hprev.
  destruct (auto_indent_return t pre prev post Hc Hi Hpre Hprev) as [Hc' Hi'].
  split; [done|].
  destruct (syntaxHighlight_stages syntax (Some (mkEvent "Return")) t Hv)
    as (t1 & t2 & t3 & t4 & t5 & qs1 & qs2 & hs & H1 & H2 & H3 & H4 & H5 & H).
  destruct Hv as [Hkw Hbi].
  destruct (token_pass_spec kw _ Hkw (clear_tags (auto_indent (Some (mkEvent "Return")) t)))
    as (? & E1 & Hc1 & Hi1 & _).
  rewrite H1 in E1. injection E1 as <-.
  destruct (token_pass_spec bi _ Hbi t1) as (? & E2 & Hc2 & Hi2 & _).
  rewrite H2 in E2. injection E2 as <-.
  destruct (quote_scan_spec dquote t2 ltac:(done)) as (? & ? & E3 & Hc3 & Hi3 & _).
  rewrite H3 in E3. injection E3 as <- <-.
  destruct (quote_scan_spec squote t3 ltac:(done)) as (? & ? & E4 & Hc4 & Hi4 & _).
  rewrite H4 in E4. injection E4 as <- <-.
  destruct (comment_scan_spec t4) as (? & ? & E5 & Hc5 & Hi5 & _).
  rewrite H5 in E5. injection E5 as <- <-.
  exists t5. split; [done|]. split.
  - by rewrite Hc5, Hc4, Hc3, Hc2, Hc1, chars_clear_tags.
  - by rewrite Hi5, Hi4, Hi3, Hi2, Hi1, insert_clear_tags.
Qed.

Lemma return_inserts_indent_witness :
  valid_syntax spec_syntax
  ∧ chars (untagged (text "def f():" ++ newline :: text "    if x:" ++ [newline]) 19)
    = (text "def f():" ++ [newline]) ++ text "    if x:" ++ newline :: []
  ∧ insert (untagged (text "def f():" ++ newline :: text "    if x:" ++ [newline]) 19)
    = length (text "def f():" ++ [newline]) + length (text "    if x:") + 1
  ∧ (text "def f():" ++ [newline] = []
     ∨ last (text "def f():" ++ [newline]) = Some newline)
  ∧ (newline ∉ text "    if x:")
  ∧ chars (auto_indent (Some (mkEvent "Return"))
             (untagged (text "def f():" ++ newline :: text "    if x:" ++ [newline]) 19))
    = (text "def f():" ++ [newline]) ++ text "    if x:"
      ++ newline :: replicate (indent_of (text "    if x:")) space ++ []
  ∧ ∃ t',
      syntaxHighlight spec_syntax (Some (mkEvent "Return"))
        (untagged (text "def f():" ++ newline :: text "    if x:" ++ [newline]) 19)
      = Done t'
      ∧ chars t'
        = (text "def f():" ++ [newline]) ++ text "    if x:"
          ++ newline :: replicate (indent_of (text "    if x:")) space ++ []
      ∧ insert t'
        = insert (untagged (text "def f():" ++ newline :: text "    if x:" ++ [newline]) 19)
          + indent_of (text "    if x:").
Proof.
  assert (valid_syntax spec_syntax) as Hs by (by apply (bool_decide_unpack _)).
  assert (newline ∉ text "    if x:") as Hn by (by apply (bool_decide_unpack _)).
  split; [exact Hs|]. split; [reflexivity|]. split; [reflexivity|].
  split; [right; reflexivity|]. split; [exact Hn|].
  exact (proj1 return_inserts_indent spec_syntax
           (untagged (text "def f():" ++ newline :: text "    if x:" ++ [newline]) 19)
           (text "def f():" ++ [newline]) (text "    if x:") []
           Hs eq_refl eq_refl (or_intror eq_refl) Hn).
Defined.

(** C7. A pass leaves the text as it is when it is invoked without an event
    or with an event whose key is not the enter key; in every case the text
    after the pass is the text before it with spaces put at the cursor, and
    nothing else is changed. *)
Theorem text_changes_only_on_return (syntax : Syntax) (event : option Event) (t : Text) :
  valid_syntax syntax →
  ∃ t',
    syntaxHighlight syntax event t = Done t'
    ∧ (event = None → chars t' = chars t)
    ∧ (∀ ev, event = Some ev → keysym ev ≠ "Return" → chars t' = chars t)
    ∧ ∃ n, chars t'
           = take (insert t) (chars t) ++ replicate n space
             ++ drop (insert t) (chars t).
Proof.
  intros Hv.
  destruct (syntaxHighlight_stages syntax event t Hv)
    as (t1 & t2 & t3 & t4 & t5 & qs1 & qs2 & hs & H1 & H2 & H3 & H4 & H5 & H).
  destruct Hv as [Hkw Hbi].
  destruct (token_pass_spec kw _ Hkw (clear_tags (auto_indent event t)))
    as (? & E1 & Hc1 & _).
  rewrite H1 in E1. injection E1 as <-.
  destruct (token_pass_spec bi _ Hbi t1) as (? & E2 & Hc2 & _).
  rewrite H2 in E2. injection E2 as <-.
  destruct (quote_scan_spec dquote t2 ltac:(done)) as (? & ? & E3 & Hc3 & _).
  rewrite H3 in E3. injection E3 as <- <-.
  destruct (quote_scan_spec squote t3 ltac:(done)) as (? & ? & E4 & Hc4 & _).
  rewrite H4 in E4. injection E4 as <- <-.
  destruct (comment_scan_spec t4) as (? & ? & E5 & Hc5 & _).
  rewrite H5 in E5. injection E5 as <- <-.
  assert (chars t5 = chars (auto_indent event t)) as Hc.
  { by rewrite Hc5, Hc4, Hc3, Hc2, Hc1, chars_clear_tags. }
  destruct (auto_indent_chars event t) as (n & Hn & Hzero).
  exists t5. split; [done|]. rewrite Hc. split_and!.
  - intros ->. done.
  - intros ev -> Hkey. rewrite Hn, Hzero; [simpl; by rewrite take_drop|].
    by intros ? [= <-].
  - by exists n.
Qed.

Lemma text_changes_only_on_return_witness :
  valid_syntax spec_syntax
  ∧ ∃ t',
      syntaxHighlight spec_syntax (Some (mkEvent "a")) (untagged (text "x=for;") 3)
      = Done t'
      ∧ (Some (mkEvent "a") = None → chars t' = chars (untagged (text "x=for;") 3))
      ∧ (∀ ev, Some (mkEvent "a") = Some ev → keysym ev ≠ "Return" →
           chars t' = chars (untagged (text "x=for;") 3))
      ∧ ∃ n, chars t'
             = take (insert (untagged (text "x=for;") 3))
                 (chars (untagged (text "x=for;") 3))
               ++ replicate n space
               ++ drop (insert (untagged (text "x=for;") 3))
                    (chars (untagged (text "x=for;") 3)).
Proof.
  assert (valid_syntax spec_syntax) as Hs by (by apply (bool_decide_unpack _)).
  split; [exact Hs|].
  exact (text_changes_only_on_return spec_syntax (Some (mkEvent "a"))
           (untagged (text "x=for;") 3) Hs).
Defined.

(** C8. A pass starts by removing the four tags from the whole text, which
    leaves a well-formed widget without any tag; its result depends on the
    characters, the cursor, the event and the catalog, not on the tags the
    widget carried; and a second pass that does not change the text (no
    event, or a key other than the enter key) leaves the widget, and so
    every tag, exactly as the first pass left it. *)
Theorem pass_idempotent (syntax : Syntax) (e1 e2 : option Event) (t : Text) :
  valid_syntax syntax →
  wf t →
  (∀ ev, e2 = Some ev → keysym ev ≠ "Return") →
  clear_tags t = untagged (chars t) (insert t)
  ∧ (∀ t0, wf t0 → chars t0 = chars t → insert t0 = insert t →
       syntaxHighlight syntax e1 t0 = syntaxHighlight syntax e1 t)
  ∧ ∃ t1,
      syntaxHighlight syntax e1 t = Done t1
      ∧ syntaxHighlight syntax e2 t1 = Done t1.
Proof.
  intros Hv Hwf He2.
  assert (∀ e t0, wf t0 →
            syntaxHighlight syntax e t0
            = (let t := untagged (chars (auto_indent e t0)) (insert (auto_indent e t0)) in
               t ← token_pass kw (keywords syntax) t;
               t ← token_pass bi (builtins syntax) t;
               '(t, _) ← quote_scan dquote t;
               '(t, _) ← quote_scan squote t;
               '(t, _) ← comment_scan t;
               mret t)) as Hpass.
  { intros e t0 Hwf0. unfold syntaxHighlight.
    by rewrite (clear_tags_wf _ (wf_auto_indent e t0 Hwf0)). }
  split; [by apply clear_tags_wf|]. split.
  - intros t0 Hwf0 Hc Hi. rewrite (Hpass e1 t0 Hwf0), (Hpass e1 t Hwf).
    by destruct (auto_indent_same e1 t0 t Hc Hi) as [-> ->].
  - destruct (syntaxHighlight_result syntax e1 t Hv Hwf)
      as (_ & _ & t1 & _ & _ & H1 & Hc1 & Hi1 & _ & _ & _ & Hbound & _).
    exists t1. split; [done|].
    assert (wf t1) as Hwf1.
    { intros k p Hp. apply Hbound in Hp. rewrite end_index_eq. lia. }
    assert (auto_indent e2 t1 = t1) as Hid.
    { unfold auto_indent. destruct e2 as [ev|]; [|done].
      rewrite decide_False; [done|]. by apply He2. }
    rewrite (Hpass e2 t1 Hwf1), Hid, Hc1, Hi1, <- (Hpass e1 t Hwf). done.
Qed.

Lemma pass_idempotent_witness :
  valid_syntax spec_syntax
  ∧ wf (untagged (text "x=for; # for") 0)
  ∧ (∀ ev, @None Event = Some ev → keysym ev ≠ "Return")
  ∧ clear_tags (untagged (text "x=for; # for") 0)
    = untagged (chars (untagged (text "x=for; # for") 0))
        (insert (untagged (text "x=for; # for") 0))
  ∧ (∀ t0, wf t0 → chars t0 = chars (untagged (text "x=for; # for") 0) →
       insert t0 = insert (untagged (text "x=for; # for") 0) →
       syntaxHighlight spec_syntax None t0
       = syntaxHighlight spec_syntax None (untagged (text "x=for; # for") 0))
  ∧ ∃ t1,
      syntaxHighlight spec_syntax None (untagged (text "x=for; # for") 0) = Done t1
      ∧ syntaxHighlight spec_syntax None t1 = Done t1.
Proof.
  assert (valid_syntax spec_syntax) as Hs by (by apply (bool_decide_unpack _)).
  assert (wf (untagged (text "x=for; # for") 0)) as Hwf.
  { intros k p Hp. destruct k; by apply not_elem_of_empty in Hp. }
  assert (∀ ev, @None Event = Some ev → keysym ev ≠ "Return") as He
    by (intros ev Hev; discriminate Hev).
  split; [exact Hs|]. split; [exact Hwf|]. split; [exact He|].
  exact (pass_idempotent spec_syntax None None (untagged (text "x=for; # for") 0)
           Hs Hwf He).
Defined.

(** C10. The comment loop changes no Keyword and no Builtin tag: it takes
    the String tag from the positions it tags Comment and from no other, and
    what it returns is what the pass returns.  So after a pass the Keyword
    tags are those the keyword loop left and the Builtin tags those the
    builtin loop left, also inside a comment: in [# for x] the [for] carries
    the Keyword tag and the whole line the Comment tag. *)
Theorem comment_keeps_token_tags :
  (∀ t : Text,
     ∃ t' hs,
       comment_scan t = Done (t', hs)
       ∧ tagged kw t' = tagged kw t
       ∧ tagged bi t' = tagged bi t
       ∧ tagged str t' = tagged str t ∖ hash_spans t hs
       ∧ tagged comment t' = tagged comment t ∪ hash_spans t hs)
  ∧ (∀ (syntax : Syntax) (event : option Event) (t : Text),
       valid_syntax syntax →
       ∃ t1 t2 t3 t4 t' qs1 qs2 hs,
         token_pass kw (keywords syntax) (clear_tags (auto_indent event t)) = Done t1
         ∧ token_pass bi (builtins syntax) t1 = Done t2
         ∧ quote_scan dquote t2 = Done (t3, qs1)
         ∧ quote_scan squote t3 = Done (t4, qs2)
         ∧ comment_scan t4 = Done (t', hs)
         ∧ syntaxHighlight syntax event t = Done t'
         ∧ tagged kw t' = tagged kw t1
         ∧ tagged bi t' = tagged bi t2
         ∧ ∀ p, p ∈ tagged kw t1 → p ∈ hash_spans t4 hs →
                p ∈ tagged kw t' ∧ p ∈ tagged comment t')
  ∧ highlighted spec_syntax (text "# for x") kw = Done (span 2 5)
  ∧ highlighted spec_syntax (text "# for x") comment = Done (span 0 7).
Proof.
  split; [|split; [|by vm_compute]].
  - intros t.
    destruct (comment_scan_spec t) as (t' & hs & Hs & _ & _ & Ho & Hstr & Hcom & _).
    exists t', hs. split_and!; try done; by apply Ho.
  - intros syntax event t Hv.
    destruct (syntaxHighlight_stages syntax event t Hv)
      as (t1 & t2 & t3 & t4 & t5 & qs1 & qs2 & hs & H1 & H2 & H3 & H4 & H5 & H).
    destruct Hv as [Hkw Hbi].
    destruct (token_pass_spec bi _ Hbi t1) as (? & E2 & _ & _ & Ho2 & _).
    rewrite H2 in E2. injection E2 as <-.
    destruct (quote_scan_spec dquote t2 ltac:(done)) as (? & ? & E3 & _ & _ & Ho3 & _).
    rewrite H3 in E3. injection E3 as <- <-.
    destruct (quote_scan_spec squote t3 ltac:(done)) as (? & ? & E4 & _ & _ & Ho4 & _).
    rewrite H4 in E4. injection E4 as <- <-.
    destruct (comment_scan_spec t4) as (? & ? & E5 & _ & _ & Ho5 & _ & Hm5 & _).
    rewrite H5 in E5. injection E5 as <- <-.
    assert (tagged kw t5 = tagged kw t1) as Hkw5.
    { rewrite (Ho5 kw), (Ho4 kw), (Ho3 kw), (Ho2 kw); done. }
    exists t1, t2, t3, t4, t5, qs1, qs2, hs. split_and!; try done.
    + rewrite (Ho5 bi), (Ho4 bi), (Ho3 bi); done.
    + intros p Hp Hin. split; [by rewrite Hkw5|].
      rewrite Hm5. apply elem_of_union. by right.
Qed.

Lemma comment_keeps_token_tags_witness :
  valid_syntax spec_syntax
  ∧ ∃ t1 t2 t3 t4 t' qs1 qs2 hs,
      token_pass kw (keywords spec_syntax)
        (clear_tags (auto_indent None (untagged (text "# for x") 0))) = Done t1
      ∧ token_pass bi (builtins spec_syntax) t1 = Done t2
      ∧ quote_scan dquote t2 = Done (t3, qs1)
      ∧ quote_scan squote t3 = Done (t4, qs2)
      ∧ comment_scan t4 = Done (t', hs)
      ∧ syntaxHighlight spec_syntax None (untagged (text "# for x") 0) = Done t'
      ∧ tagged kw t' = tagged kw t1
      ∧ tagged bi t' = tagged bi t2
      ∧ ∀ p, p ∈ tagged kw t1 → p ∈ hash_spans t4 hs →
             p ∈ tagged kw t' ∧ p ∈ tagged comment t'.
Proof.
  assert (valid_syntax spec_syntax) as Hs by (by apply (bool_decide_unpack _)).
  split; [exact Hs|].
  exact (proj1 (proj2 comment_keeps_token_tags) spec_syntax None
           (untagged (text "# for x") 0) Hs).
Defined.

(** C4, as the claim states it, fails on the one-line text ["for"]: no
    position is tagged Comment there, so the comment-over-string override
    does not apply, and yet the Keyword span of [for] lies inside the String
    span of the whole line. *)
Lemma keyword_overlaps_string :
  highlighted spec_syntax (dquote :: text "for" ++ [dquote]) comment = Done ∅
  ∧ ¬ ∀ k1 k2 s1 s2,
        k1 ≠ k2 →
        highlighted spec_syntax (dquote :: text "for" ++ [dquote]) k1 = Done s1 →
        highlighted spec_syntax (dquote :: text "for" ++ [dquote]) k2 = Done s2 →
        s1 ∩ s2 = ∅.
Proof.
  split; [by vm_compute|]. intros H.
  specialize (H kw str (span 1 4) (span 0 5) ltac:(done)
                ltac:(by vm_compute) ltac:(by vm_compute)).
  assert (2 ∈ span 1 4 ∩ span 0 5) as Hin by (by vm_compute).
  rewrite H in Hin. by apply not_elem_of_empty in Hin.
Qed.

(** C4, amended. After a complete pass over a well-formed widget every
    tagged position is a position of the text, and no position carries both
    the String and the Comment tag.  The string and comment loops remove no
    Keyword and no Builtin tag: after the pass the Keyword tags are those
    the keyword loops made and the Builtin tags those the builtin loops
    made, also where a String or Comment tag covers them. *)
Theorem tags_in_bounds (syntax : Syntax) (event : option Event) (t : Text) :
  valid_syntax syntax →
  wf t →
  ∃ t1 t2 t',
    token_pass kw (keywords syntax)
      (untagged (chars (auto_indent event t)) (insert (auto_indent event t)))
    = Done t1
    ∧ token_pass bi (builtins syntax) t1 = Done t2
    ∧ syntaxHighlight syntax event t = Done t'
    ∧ (∀ k p, p ∈ tagged k t' → p < length (chars t'))
    ∧ tagged str t' ∩ tagged comment t' = ∅
    ∧ tagged kw t' = tagged kw t1
    ∧ tagged bi t' = tagged bi t2.
Proof.
  intros Hv Hwf.
  destruct (syntaxHighlight_result syntax event t Hv Hwf)
    as (t1 & t2 & t' & H1 & H2 & H & _ & _ & Hkw & Hbi & _ & Hbound & Hdisj).
  by exists t1, t2, t'.
Qed.

Lemma tags_in_bounds_witness :
  valid_syntax spec_syntax
  ∧ wf (untagged (dquote :: text "for" ++ dquote :: text " # x") 0)
  ∧ ∃ t1 t2 t',
      token_pass kw (keywords spec_syntax)
        (untagged
           (chars (auto_indent None
                     (untagged (dquote :: text "for" ++ dquote :: text " # x") 0)))
           (insert (auto_indent None
                      (untagged (dquote :: text "for" ++ dquote :: text " # x") 0))))
      = Done t1
      ∧ token_pass bi (builtins spec_syntax) t1 = Done t2
      ∧ syntaxHighlight spec_syntax None
          (untagged (dquote :: text "for" ++ dquote :: text " # x") 0) = Done t'
      ∧ (∀ k p, p ∈ tagged k t' → p < length (chars t'))
      ∧ tagged str t' ∩ tagged comment t' = ∅
      ∧ tagged kw t' = tagged kw t1
      ∧ tagged bi t' = tagged bi t2.
Proof.
  assert (valid_syntax spec_syntax) as Hs by (by apply (bool_decide_unpack _)).
  assert (wf (untagged (dquote :: text "for" ++ dquote :: text " # x") 0)) as Hwf.
  { intros k p Hp. destruct k; by apply not_elem_of_empty in Hp. }
  split; [exact Hs|]. split; [exact Hwf|].
  exact (tags_in_bounds spec_syntax None
           (untagged (dquote :: text "for" ++ dquote :: text " # x") 0) Hs Hwf).
Defined.

(** * Further properties of the pass *)

(** ** Every whole-word occurrence of a token is tagged *)

Section token_cover_facts.
Implicit Types (t : Text) (k : Tag) (tok : list ascii) (b i j p : nat).

(** Every occurrence at or after the start of a scan lies inside a visited
    match. *)
Lemma token_loop_covers k tok t0 :
  valid_token tok →
  ∀ fuel b t t' vs,
    chars t = chars t0 →
    token_loop fuel k tok b t = Done (t', vs) →
    ∀ i, b ≤ i → occurs t0 tok i →
      ∃ v, v ∈ vs ∧ v_index v ≤ i < v_index v + length tok.
Proof.
  intros Hv. pose proof (valid_token_length _ Hv) as Hlen.
  induction fuel as [|fuel IH]; intros b t t' vs Ht Hloop i Hbi Hocc; [done|].
  cbn [token_loop] in Hloop.
  rewrite (end_index_same _ _ Ht), (search_same _ _ _ _ _ Ht) in Hloop.
  destruct (search t0 tok b (end_index t0)) as [index|] eqn:Hs.
  - pose proof Hs as Hs'.
    apply search_Some in Hs' as ([Hb _] & Ho & Hmin); [|apply Hv].
    pose proof (occurs_within_chars _ _ _ Hv Ho) as Hin.
    rewrite (fwd_same _ _ _ _ Ht) in Hloop.
    assert (fwd t0 index (length tok) = index + length tok) as Hf.
    { unfold fwd. rewrite end_index_eq. lia. }
    rewrite Hf in Hloop.
    destruct ((boundary _ _ _).1) as [ok| |] eqn:Hok in Hloop; try done.
    cbn [mbind outcome_bind] in Hloop.
    set (t1 := if ok then _ else _) in Hloop.
    assert (chars t1 = chars t0) as Ht1.
    { subst t1. destruct ok; [by rewrite chars_tag_add|done]. }
    destruct (token_loop fuel k tok (index + length tok) t1)
      as [[t2 vs2]| |] eqn:Hrec; try done.
    cbn [mbind outcome_bind mret outcome_ret] in Hloop. injection Hloop as <- <-.
    assert (index ≤ i).
    { destruct (decide (i < index)) as [Hlt|]; [|lia].
      exfalso. apply (Hmin i); [lia|done]. }
    destruct (decide (i < index + length tok)) as [Hlt|Hge].
    + eexists. split; [by left|]. cbn [v_index]. lia.
    + destruct (IH _ _ _ _ Ht1 Hrec i ltac:(lia) Hocc) as (v & Hvin & Hvi).
      exists v. split; [by right|done].
  - exfalso. rewrite search_None in Hs by apply Hv. apply (Hs i); [|done].
    pose proof (occurs_bound _ _ _ (proj1 Hv) Hocc). lia.
Qed.

(** A scan tags every delimited occurrence of an identifier token. *)
Lemma token_scan_complete k tok t j p :
  identifier_token tok → occurs t tok j →
  delimited (line_of t j) (column t j) (length tok) →
  j ≤ p < j + length tok →
  ∃ t' vs, token_scan k tok t = Done (t', vs) ∧ chars t' = chars t
           ∧ tagged k t ⊆ tagged k t' ∧ p ∈ tagged k t'.
Proof.
  intros Hid Hocc Hdel Hp. pose proof Hid as [Hv Hleg].
  destruct (token_scan_spec k tok t Hv)
    as (t' & vs & Hs & Hc & _ & _ & Hk & _ & Hall).
  exists t', vs. split_and!; try done.
  { rewrite Hk. apply union_subseteq_l. }
  destruct (token_loop_covers k tok t Hv _ _ _ _ _ eq_refl Hs j ltac:(lia) Hocc)
    as (v & Hvin & Hvj).
  rewrite Forall_forall in Hall.
  destruct (visit_ok_occurs _ _ _ Hv (Hall v Hvin)) as (Hov & _ & Hiff & _).
  assert (v_index v = j) as Hvi.
  { destruct (decide (v_index v < j)) as [Hlt|]; [exfalso|lia].
    destruct (occurs_lookup t tok (v_index v) (j - 1) Hv Hov ltac:(lia)) as [c Hc'].
    destruct (occurs_legal t tok (v_index v) (j - 1) c Hid Hov ltac:(lia) Hc').
    destruct (delimited_left t tok j c Hv Hocc Hdel ltac:(lia) Hc'); done. }
  rewrite Hk. apply elem_of_union. right. apply elem_of_visit_spans.
  exists v. split; [done|]. rewrite Hvi. split; [|done].
  apply Hiff. by rewrite Hvi.
Qed.

Lemma token_pass_complete k toks :
  Forall identifier_token toks →
  ∀ t t', token_pass k toks t = Done t' →
    ∀ tok j p, tok ∈ toks → occurs t tok j →
      delimited (line_of t j) (column t j) (length tok) →
      j ≤ p < j + length tok → p ∈ tagged k t'.
Proof.
  induction 1 as [|tok0 toks Hid Hall IH]; intros t t' Hpass tok j p Hin Hocc Hdel Hp.
  - by apply elem_of_nil in Hin.
  - cbn [token_pass] in Hpass.
    pose proof (identifier_token_valid _ Hall) as Hvalid.
    apply elem_of_cons in Hin as [->|Hin].
    + destruct (token_scan_complete k tok0 t j p Hid Hocc Hdel Hp)
        as (t1 & vs & Hs & Hc1 & _ & Hp1).
      rewrite Hs in Hpass. cbn [mbind outcome_bind] in Hpass.
      destruct (token_pass_spec k toks Hvalid t1) as (t2 & E & _ & _ & _ & Hsub & _).
      rewrite Hpass in E. injection E as <-. by apply Hsub.
    + destruct (token_scan_spec k tok0 t (proj1 Hid)) as (t1 & vs & Hs & Hc1 & _).
      rewrite Hs in Hpass. cbn [mbind outcome_bind] in Hpass.
      apply (IH t1 t' Hpass tok j p Hin).
      * by apply (occurs_same t).
      * by rewrite (line_of_same _ _ _ Hc1), (column_same _ _ _ Hc1).
      * done.
Qed.

End token_cover_facts.

(** ** Quote parity *)

Section parity_facts.
Implicit Types (t : Text) (q : ascii) (a b i m p : nat).

Lemma get_split t a m p :
  a ≤ m → m ≤ p → get t a p = get t a m ++ get t m p.
Proof.
  intros Ham Hmp. unfold get.
  replace (p - a) with ((m - a) + (p - m)) by lia.
  rewrite <- take_take_drop, drop_drop. by replace (a + (m - a)) with m by lia.
Qed.

Lemma count_app (l1 l2 : list ascii) q : count (l1 ++ l2) q = count l1 q + count l2 q.
Proof. unfold count. by rewrite filter_app, length_app. Qed.

Lemma count_none (l : list ascii) q : (∀ k, l !! k ≠ Some q) → count l q = 0.
Proof.
  induction l as [|c l IH]; intros H; [done|].
  unfold count in *. rewrite filter_cons.
  destruct (decide (c = q)) as [->|Hne]; [by destruct (H 0)|].
  apply IH. intros k. apply (H (S k)).
Qed.

Lemma get_lookup t a p k : k < p - a → get t a p !! k = content t !! (a + k).
Proof. intros Hk. unfold get. rewrite lookup_take_lt by done. apply lookup_drop. Qed.

Lemma count_get_none t q a p :
  (∀ m, a ≤ m < p → content t !! m ≠ Some q) → count (get t a p) q = 0.
Proof.
  intros H. apply count_none. intros k Hk.
  destruct (decide (k < p - a)) as [Hlt|Hge].
  - rewrite get_lookup in Hk by done. apply (H (a + k)); [lia|done].
  - unfold get in Hk. rewrite lookup_take_ge in Hk by lia. done.
Qed.

Lemma count_get_one t q a :
  content t !! a = Some q → count (get t a (a + 1)) q = 1.
Proof.
  intros Ha. unfold get. replace (a + 1 - a) with 1 by lia.
  fold (get_char t a). rewrite (get_char_lookup _ _ _ Ha).
  unfold count. rewrite filter_cons, decide_True by done. done.
Qed.

(** The quotes counted before [p] on its line, from a position [a] of that
    line on which the count is even. *)
Lemma count_line_from t q a p :
  linestart t p ≤ a → a ≤ p →
  count (get t (linestart t p) a) q mod 2 = 0 →
  count (get t (linestart t p) p) q mod 2 = count (get t a p) q mod 2.
Proof.
  intros Hla Hap Heven. rewrite (get_split t _ a p) by done. rewrite count_app.
  by rewrite Nat.Div0.add_mod, Heven, Nat.add_0_l, Nat.Div0.mod_mod.
Qed.

Lemma linestart_same_line t a p :
  a ≤ p → (∀ m, a ≤ m < p → content t !! m ≠ Some newline) →
  linestart t p = linestart t a.
Proof. intros. by apply linestart_in_same. Qed.

Lemma linestart_no_newline t i p :
  linestart t i ≤ p < i → content t !! p ≠ Some newline.
Proof. apply linestart_in_no_newline. Qed.

End parity_facts.

Section quote_parity_facts.
Implicit Types (t : Text) (q : ascii) (a b i m p : nat).

Lemma count_between t q a p :
  content t !! a = Some q → a < p →
  (∀ m, a < m < p → content t !! m ≠ Some q) →
  count (get t a p) q = 1.
Proof.
  intros Ha Hap Hnone. rewrite (get_split t a (a + 1) p) by lia.
  rewrite count_app, (count_get_one _ _ _ Ha), count_get_none; [done|].
  intros m Hm. apply Hnone. lia.
Qed.

Lemma quotes_before_even t q b p :
  quote_inv t q b → b ≤ p → content t !! p ≠ Some newline →
  (∀ m, b ≤ m < p → content t !! m ≠ Some q) →
  quotes_before t q p mod 2 = 0.
Proof.
  intros Hinv Hbp Hp Hnone. unfold quotes_before.
  destruct (decide (linestart t p ≤ b)) as [Hle|Hgt].
  - assert (content t !! b ≠ Some newline) as Hb.
    { destruct (decide (b = p)) as [->|]; [done|].
      apply (linestart_no_newline t p). lia. }
    destruct Hinv as [Heven|]; [|done].
    assert (linestart t p = linestart t b) as Hls.
    { apply linestart_same_line; [done|].
      intros m Hm. apply (linestart_no_newline t p). lia. }
    rewrite (count_line_from t q b p) by (rewrite ?Hls; done || apply linestart_le).
    by rewrite count_get_none.
  - rewrite count_get_none; [done|]. intros m Hm. apply Hnone. lia.
Qed.

(** The positions tagged by a quote loop, read off the line of each
    position. *)
Lemma quote_loop_parity q t0 :
  q ≠ newline →
  ∀ fuel b t t' qs,
    chars t = chars t0 →
    quote_loop fuel q b t = Done (t', qs) →
    quote_inv t0 q b →
    (∀ r, r ∈ qs → b ≤ q_open r)
    ∧ ∀ p, b ≤ p → p < length (chars t0) → content t0 !! p ≠ Some newline →
        (p ∈ quote_spans qs ↔
         quotes_before t0 q p mod 2 = 1 ∨ content t0 !! p = Some q).
Proof.
  intros Hq.
  induction fuel as [|fuel IH]; intros b t t' qs Ht Hloop Hinv; [done|].
  cbn [quote_loop] in Hloop.
  rewrite (end_index_same _ _ Ht), (search_same _ _ _ _ _ Ht) in Hloop.
  destruct (search t0 [q] b (end_index t0)) as [a|] eqn:Hs.
  - pose proof Hs as Hs'.
    apply search_Some in Hs' as ([Hba _] & Hocc & Hmin); [|done].
    apply occurs_single in Hocc.
    assert (∀ m, b ≤ m < a → content t0 !! m ≠ Some q) as Hnone.
    { intros m Hm Hc. apply (Hmin m Hm). by apply occurs_single. }
    pose proof (char_before_end _ _ _ Hq Hocc) as Ha.
    pose proof (lineend_gt _ _ _ Hq Hocc) as Hgt.
    pose proof (lineend_le t0 a ltac:(lia)) as Hle.
    assert (content t0 !! a ≠ Some newline) as Hanl by congruence.
    pose proof (quotes_before_even t0 q b a Hinv Hba Hanl Hnone) as Heven.
    assert (∀ p, a ≤ p < lineend t0 a → linestart t0 p = linestart t0 a) as Hls.
    { intros p Hp. apply linestart_same_line; [lia|].
      intros m Hm. apply (lineend_no_newline t0 a). lia. }
    assert (∀ p, a < p < lineend t0 a →
              (∀ m, a < m < p → content t0 !! m ≠ Some q) →
              quotes_before t0 q p mod 2 = 1) as Hodd.
    { intros p Hp Hnq. unfold quotes_before in *.
      rewrite (count_line_from t0 q a p); rewrite ?(Hls p) by lia;
        [|apply linestart_le|lia|done].
      by rewrite (count_between t0 q a p Hocc) by (lia || done). }
    assert (∀ p, b ≤ p < a → content t0 !! p ≠ Some newline →
              ¬ (quotes_before t0 q p mod 2 = 1 ∨ content t0 !! p = Some q)) as Hlow.
    { intros p Hp Hnl [Hc|Hc]; [|by apply (Hnone p)].
      rewrite (quotes_before_even t0 q b p Hinv) in Hc; [done|lia|done|].
      intros m Hm. apply Hnone. lia. }
    rewrite (lineend_same_text _ _ _ Ht), (fwd_same _ _ _ _ Ht),
      (search_same _ _ _ _ _ Ht) in Hloop.
    assert (fwd t0 a 1 = a + 1) as Hfa.
    { unfold fwd. rewrite end_index_eq. lia. }
    rewrite Hfa in Hloop.
    destruct (search t0 [q] (a + 1) (lineend t0 a)) as [c|] eqn:Hc.
    + pose proof Hc as Hc'.
      apply search_Some in Hc' as (Hac & Hcq & Hcmin); [|done].
      apply occurs_single in Hcq.
      assert (∀ m, a < m < c → content t0 !! m ≠ Some q) as Hmid.
      { intros m Hm Hmq. apply (Hcmin m); [lia|]. by apply occurs_single. }
      assert (fwd t0 c 1 = c + 1) as Hfc.
      { unfold fwd. rewrite end_index_eq. lia. }
      rewrite (fwd_same _ _ _ _ Ht), Hfc in Hloop.
      set (t1 := tag_add str a (c + 1) t) in Hloop.
      assert (chars t1 = chars t0) as Ht1 by (subst t1; by rewrite chars_tag_add).
      rewrite (fwd_same _ _ _ _ Ht1), Hfc in Hloop.
      destruct (quote_loop fuel q (c + 1) t1) as [[t2 qs']| |] eqn:Hrec; try done.
      cbn [mbind outcome_bind mret outcome_ret] in Hloop. injection Hloop as <- <-.
      assert (quote_inv t0 q (c + 1)) as Hinv'.
      { destruct (decide (c + 1 = lineend t0 a)) as [He|Hne].
        - right. rewrite He. apply lineend_newline. lia.
        - left. unfold quotes_before in *.
          rewrite (count_line_from t0 q a (c + 1)); rewrite ?(Hls (c + 1)) by lia;
            [|apply linestart_le|lia|done].
          rewrite (get_split t0 a c (c + 1)) by lia.
          rewrite count_app, (count_between t0 q a c Hocc) by (lia || done).
          by rewrite (count_get_one _ _ _ Hcq). }
      destruct (IH _ _ _ _ Ht1 Hrec Hinv') as [Hopen Hiff].
      split.
      * intros r [->|Hr]%elem_of_cons; [done|]. specialize (Hopen r Hr). lia.
      * intros p Hbp Hp Hnl. rewrite quote_spans_cons, elem_of_union.
        unfold quote_span at 1. cbn [q_open q_end]. rewrite elem_of_set_seq.
        destruct (decide (p < a)) as [Hpa|Hpa].
        { split; [|intros H; by destruct (Hlow p ltac:(lia) Hnl)].
          intros [?|Hin]; [lia|].
          apply elem_of_quote_spans in Hin as (r & Hr & Hrp).
          specialize (Hopen r Hr). lia. }
        destruct (decide (p ≤ c)) as [Hpc|Hpc].
        { split; [intros _|intros _; left; lia].
          destruct (decide (p = a)) as [->|]; [by right|].
          destruct (decide (p = c)) as [->|]; [by right|].
          left. apply Hodd; [lia|]. intros m Hm. apply Hmid. lia. }
        rewrite <- (Hiff p) by (lia || done).
        split; [intros [?|?]; [lia|done]|by right].
    + rewrite search_None in Hc by done.
      assert (∀ m, a < m < lineend t0 a → content t0 !! m ≠ Some q) as Hmid.
      { intros m Hm Hmq. apply (Hc m); [lia|]. by apply occurs_single. }
      set (t1 := tag_add str a (lineend t0 a) t) in Hloop.
      assert (chars t1 = chars t0) as Ht1 by (subst t1; by rewrite chars_tag_add).
      destruct (quote_loop fuel q (lineend t0 a) t1) as [[t2 qs']| |] eqn:Hrec;
        try done.
      cbn [mbind outcome_bind mret outcome_ret] in Hloop. injection Hloop as <- <-.
      assert (quote_inv t0 q (lineend t0 a)) as Hinv'.
      { right. apply lineend_newline. lia. }
      destruct (IH _ _ _ _ Ht1 Hrec Hinv') as [Hopen Hiff].
      split.
      * intros r [->|Hr]%elem_of_cons; [done|]. specialize (Hopen r Hr). lia.
      * intros p Hbp Hp Hnl. rewrite quote_spans_cons, elem_of_union.
        unfold quote_span at 1. cbn [q_open q_end]. rewrite elem_of_set_seq.
        destruct (decide (p < a)) as [Hpa|Hpa].
        { split; [|intros H; by destruct (Hlow p ltac:(lia) Hnl)].
          intros [?|Hin]; [lia|].
          apply elem_of_quote_spans in Hin as (r & Hr & Hrp).
          specialize (Hopen r Hr). lia. }
        destruct (decide (p < lineend t0 a)) as [Hpc|Hpc].
        { split; [intros _|intros _; left; lia].
          destruct (decide (p = a)) as [->|]; [by right|].
          left. apply Hodd; [lia|]. intros m Hm. apply Hmid. lia. }
        rewrite <- (Hiff p) by (lia || done).
        split; [intros [?|?]; [lia|done]|by right].
  - cbn [mret outcome_ret] in Hloop. injection Hloop as <- <-.
    rewrite search_None in Hs by done.
    assert (∀ m, b ≤ m → content t0 !! m ≠ Some q) as Hnone.
    { intros m Hm Hmq. apply (Hs m); [|by apply occurs_single].
      apply lookup_lt_Some in Hmq. unfold end_index. lia. }
    split; [intros r Hr; by apply elem_of_nil in Hr|].
    intros p Hbp Hp Hnl. split.
    + intros Hin. apply elem_of_quote_spans in Hin as (r & Hr & _).
      by apply elem_of_nil in Hr.
    + intros [Hc|Hc]; exfalso; [|by apply (Hnone p)].
      rewrite (quotes_before_even t0 q b p Hinv) in Hc; [done|lia|done|].
      intros m Hm. apply Hnone. lia.
Qed.

End quote_parity_facts.


(** ** The tags of a pass, read off the text *)

Section exact_facts.
Implicit Types (t : Text) (q : ascii) (e : option Event) (p : nat).

Lemma quotes_before_same t1 t2 q p :
  chars t1 = chars t2 → quotes_before t1 q p = quotes_before t2 q p.
Proof.
  intros H. unfold quotes_before.
  by rewrite (get_same _ _ _ _ H), (linestart_same _ _ _ H).
Qed.

Lemma in_quotes_same t1 t2 q p :
  chars t1 = chars t2 → in_quotes t1 q p ↔ in_quotes t2 q p.
Proof.
  intros H. unfold in_quotes.
  by rewrite (quotes_before_same _ _ _ _ H), (content_same _ _ H), H.
Qed.

Lemma even_quotes_same t1 t2 i :
  chars t1 = chars t2 → even_quotes t1 i = even_quotes t2 i.
Proof.
  intros H. unfold even_quotes.
  by rewrite (get_same _ _ _ _ H), (linestart_same _ _ _ H).
Qed.

Lemma in_comment_same t1 t2 p :
  chars t1 = chars t2 → in_comment t1 p ↔ in_comment t2 p.
Proof.
  intros H. unfold in_comment. apply exist_proper. intros i.
  by rewrite (lineend_same_text _ _ _ H), (content_same _ _ H),
    (even_quotes_same _ _ _ H).
Qed.

Lemma whole_word_same t1 t2 toks p :
  chars t1 = chars t2 → whole_word t1 toks p → whole_word t2 toks p.
Proof.
  intros H (tok & j & Hin & Hocc & Hdel & Hj). exists tok, j.
  split; [done|]. split; [by apply (occurs_same t1)|]. split; [|done].
  by rewrite <- (line_of_same _ _ _ H), <- (column_same _ _ _ H).
Qed.

Lemma quote_inv_start t q : quote_inv t q 0.
Proof. by left. Qed.

Lemma quote_spans_exact t q t' qs p :
  q ≠ newline → quote_scan q t = Done (t', qs) →
  p ∈ quote_spans qs ↔ in_quotes t q p.
Proof.
  intros Hq Hs.
  destruct (quote_scan_spec q t Hq) as (? & ? & E & _ & _ & _ & _ & _ & Hall).
  rewrite Hs in E. injection E as <- <-.
  destruct (quote_loop_parity q t Hq _ _ _ _ _ eq_refl Hs (quote_inv_start t q))
    as [_ Hiff].
  split.
  - intros Hin. pose proof Hin as Hin'.
    apply elem_of_quote_spans in Hin' as (r & Hr & Hp).
    rewrite Forall_forall in Hall.
    destruct (quote_ok_bounds _ _ _ Hq (Hall r Hr)) as [Hspan Hle].
    assert (p < length (chars t)) as Hlt by lia.
    assert (content t !! p ≠ Some newline) as Hnl.
    { apply (lineend_no_newline t (q_open r)). lia. }
    split_and!; try done. by apply Hiff; [lia|..].
  - intros (Hlt & Hnl & Hcase). by apply Hiff; [lia|..].
Qed.

Lemma hash_spans_exact t t' hs p :
  comment_scan t = Done (t', hs) → p ∈ hash_spans t hs ↔ in_comment t p.
Proof.
  intros Hs.
  destruct (comment_scan_spec t) as (? & ? & E & _ & _ & _ & _ & _ & _ & Hall & Hcov).
  rewrite Hs in E. injection E as <- <-. rewrite Forall_forall in Hall.
  rewrite elem_of_hash_spans. split.
  - intros (h & Hh & Hc & Hp). destruct (Hall h Hh) as (Hsearch & Hhc).
    apply search_Some in Hsearch as (_ & Hocc & _); [|done].
    apply occurs_single in Hocc.
    exists (h_index h). split_and!; [lia|lia|done|congruence].
  - intros (i & Hp & Hi & Heven).
    pose proof (char_before_end _ _ _ hash_not_newline Hi) as Hilt.
    destruct (Hcov i Hi) as (h & Hh & [Hidx|(Hc & Hlo & Hhi)]).
    + exists h. split; [done|]. destruct (Hall h Hh) as (_ & Hhc).
      rewrite Hidx in *. split; [congruence|lia].
    + exists h. split; [done|]. split; [done|].
      rewrite <- (lineend_same t (h_index h) i) by lia. lia.
Qed.

(** The String and Comment tags after a pass over a well-formed widget. *)
Lemma syntaxHighlight_anatomy syntax e t :
  valid_syntax syntax → wf t →
  ∃ t',
    syntaxHighlight syntax e t = Done t'
    ∧ chars t' = chars (auto_indent e t)
    ∧ (∀ p, p ∈ tagged comment t' ↔ in_comment t' p)
    ∧ (∀ p, p ∈ tagged str t' ↔
            (in_quotes t' dquote p ∨ in_quotes t' squote p) ∧ ¬ in_comment t' p).
Proof.
  intros Hv Hwf.
  destruct (syntaxHighlight_stages syntax e t Hv)
    as (t1 & t2 & t3 & t4 & t5 & qs1 & qs2 & hs & H1 & H2 & H3 & H4 & H5 & H).
  rewrite (clear_tags_wf _ (wf_auto_indent e t Hwf)) in H1.
  set (t0 := untagged (chars (auto_indent e t)) (insert (auto_indent e t))) in *.
  destruct Hv as [Hkw Hbi].
  destruct (token_pass_spec kw _ Hkw t0) as (? & E1 & Hc1 & _ & Ho1 & _ & _).
  rewrite H1 in E1. injection E1 as <-.
  destruct (token_pass_spec bi _ Hbi t1) as (? & E2 & Hc2 & _ & Ho2 & _ & _).
  rewrite H2 in E2. injection E2 as <-.
  destruct (quote_scan_spec dquote t2 ltac:(done))
    as (? & ? & E3 & Hc3 & _ & Ho3 & Hs3 & _ & _).
  rewrite H3 in E3. injection E3 as <- <-.
  destruct (quote_scan_spec squote t3 ltac:(done))
    as (? & ? & E4 & Hc4 & _ & Ho4 & Hs4 & _ & _).
  rewrite H4 in E4. injection E4 as <- <-.
  destruct (comment_scan_spec t4) as (? & ? & E5 & Hc5 & _ & _ & Hs5 & Hm5 & _).
  rewrite H5 in E5. injection E5 as <- <-.
  assert (tagged comment t4 = ∅) as Hcom4.
  { rewrite (Ho4 comment), (Ho3 comment), (Ho2 comment), (Ho1 comment); done. }
  assert (tagged str t2 = ∅) as Hstr2.
  { rewrite (Ho2 str), (Ho1 str); done. }
  assert (chars t2 = chars t5) as Hc25 by congruence.
  assert (chars t3 = chars t5) as Hc35 by congruence.
  assert (∀ p, p ∈ tagged comment t5 ↔ in_comment t5 p) as Hcomment.
  { intros p. rewrite Hm5, Hcom4, (left_id_L ∅ (∪)).
    rewrite (hash_spans_exact t4 t5 hs p H5). by apply in_comment_same. }
  exists t5. split_and!; try done.
  - by rewrite Hc5, Hc4, Hc3, Hc2, Hc1.
  - intros p. rewrite Hs5, Hs4, Hs3, Hstr2, (left_id_L ∅ (∪)).
    rewrite elem_of_difference, elem_of_union.
    rewrite (quote_spans_exact t2 dquote t3 qs1 p) by done.
    rewrite (quote_spans_exact t3 squote t4 qs2 p) by done.
    rewrite (in_quotes_same _ _ _ _ Hc25), (in_quotes_same _ _ _ _ Hc35).
    rewrite <- Hcomment, Hm5, Hcom4, (left_id_L ∅ (∪)). done.
Qed.

End exact_facts.



(** * Where the code leaves its own rule *)

(** C1. The claim fails on a line with a character above U+FFFF before the
    match: the widget counts such a character as two columns, the Python
    string of the line counts it once, and the loop compares the column with
    the length of that string and uses it as a subscript.  In the line of
    U+1F600, a space and [for], the search gives column 3 and length 3, the
    line has 5 characters, and the [for], which stands between a character
    of [illegals] and the end of the line, gets no tag.  In the line of four
    U+1F600, [xfor] and five spaces the subscripts 8 and 12 both read a
    space, and the [for] inside [xfor] gets the tag.  Without the characters
    above U+FFFF the same words are tagged as the claim says. *)
Theorem astral_shifts_boundary :
  let t := Utf16.mkText (Utf16.encode (Utf16.astral :: Utf16.str " for")) ∅ in
  let t4 :=
    Utf16.mkText
      (Utf16.encode (replicate 4 Utf16.astral ++ Utf16.str "xfor     ")) ∅ in
  Utf16.search t (Utf16.str "for") 0 (Utf16.end_index t) = Some (3, 3)
  ∧ Utf16.column t 3 = 3
  ∧ Utf16.get t (Utf16.linestart t 3) (Utf16.lineend t 3)
    = Utf16.astral :: Utf16.str " for"
  ∧ Utf16.boundary (Utf16.astral :: Utf16.str " for") 3 3 = Done false
  ∧ Utf16.token_scan (Utf16.str "for") (Utf16.astral :: Utf16.str " for") = Done ∅
  ∧ Utf16.token_scan (Utf16.str "for") (Utf16.str "x for") = Done (set_seq 2 3)
  ∧ Utf16.search t4 (Utf16.str "for") 0 (Utf16.end_index t4) = Some (9, 3)
  ∧ Utf16.column t4 9 = 9
  ∧ Utf16.get t4 (Utf16.linestart t4 9) (Utf16.lineend t4 9)
    = replicate 4 Utf16.astral ++ Utf16.str "xfor     "
  ∧ Utf16.boundary (replicate 4 Utf16.astral ++ Utf16.str "xfor     ") 9 3
    = Done true
  ∧ Utf16.token_scan (Utf16.str "for")
      (replicate 4 Utf16.astral ++ Utf16.str "xfor     ")
    = Done (set_seq 9 3)
  ∧ Utf16.token_scan (Utf16.str "for") (Utf16.str "xfor     ") = Done ∅.
Proof. cbv zeta. split_and!; by vm_compute. Qed.

(** With [in] as a keyword and [int] as a builtin, the line of four
    U+1F600, [int] and five spaces gets the Keyword tag on the first two
    characters of [int] and the Builtin tag on all three. *)
Lemma astral_keyword_in_builtin :
  Utf16.token_scan (Utf16.str "in")
    (replicate 4 Utf16.astral ++ Utf16.str "int     ")
  = Done (set_seq 8 2)
  ∧ Utf16.token_scan (Utf16.str "int")
      (replicate 4 Utf16.astral ++ Utf16.str "int     ")
    = Done (set_seq 8 3).
Proof. split; by vm_compute. Qed.

(** C6. The claim fails when the key release of the enter key arrives with
    the cursor elsewhere than just after the newline, as after pressing the
    enter key and typing [a] before letting the key go: the line read for
    the leading whitespace is then the line of the cursor, and only the
    test for the colon looks at the line above.  After the line [    if x:]
    the claim asks for 8 spaces; the code puts 4 at the cursor, behind the
    [a]. *)
Theorem return_release_after_typing :
  line_of (untagged (text "    if x:" ++ [newline] ++ text "a") 11)
    (line_up (untagged (text "    if x:" ++ [newline] ++ text "a") 11) 11)
  = text "    if x:"
  ∧ indent_of (text "    if x:") = 8
  ∧ auto_indent (Some (mkEvent "Return"))
      (untagged (text "    if x:" ++ [newline] ++ text "a") 11)
    = untagged (text "    if x:" ++ [newline] ++ text "a" ++ replicate 4 space) 15
  ∧ ∃ t',
      syntaxHighlight spec_syntax (Some (mkEvent "Return"))
        (untagged (text "    if x:" ++ [newline] ++ text "a") 11)
      = Done t'
      ∧ chars t' = text "    if x:" ++ [newline] ++ text "a" ++ replicate 4 space
      ∧ insert t' = 15.
Proof.
  split; [by vm_compute|]. split; [by vm_compute|]. split; [by vm_compute|].
  eexists. split; [by vm_compute|]. by split.
Qed.

(** * The keyword loop on characters that take one position

    On a text of the characters 0..255 the loop of [Utf16] does what
    [Page.token_loop] does. *)

Section utf16_bridge.
Implicit Types (c : ascii) (s pat line tok : list ascii) (t : Tk.Text) (k : Tk.Tag).

Lemma of_ascii_inj c1 c2 : Utf16.of_ascii c1 = Utf16.of_ascii c2 → c1 = c2.
Proof.
  unfold Utf16.of_ascii. intros H%Nat2N.inj.
  by rewrite <- (ascii_nat_embedding c1), <- (ascii_nat_embedding c2), H.
Qed.

Lemma of_ascii_lt c : (Utf16.of_ascii c < 256)%N.
Proof.
  unfold Utf16.of_ascii. pose proof (nat_ascii_bounded c). lia.
Qed.

Lemma of_ascii_newline c : Utf16.of_ascii c = Utf16.newline ↔ c = newline.
Proof.
  split; [|intros ->; by vm_compute]. intros H.
  apply of_ascii_inj. rewrite H. by vm_compute.
Qed.

Lemma encode_fmap s : Utf16.encode (Utf16.of_ascii <$> s) = Utf16.of_ascii <$> s.
Proof.
  induction s as [|c s IH]; [done|]. cbn [fmap list_fmap Utf16.encode].
  pose proof (of_ascii_lt c).
  destruct (65535 <? Utf16.of_ascii c)%N eqn:E; [apply N.ltb_lt in E; lia|].
  by rewrite <- IH at 2.
Qed.

Lemma decode_low (h l : N) (us : list N) :
  Utf16.is_high h = false →
  Utf16.decode (h :: l :: us) = h :: Utf16.decode (l :: us).
Proof. intros Hh. cbn [Utf16.decode]. by rewrite Hh. Qed.

Lemma decode_fmap s : Utf16.decode (Utf16.of_ascii <$> s) = Utf16.of_ascii <$> s.
Proof.
  induction s as [|c s IH]; [done|]. destruct s as [|c' s]; [done|].
  change (Utf16.of_ascii <$> c :: c' :: s)
    with (Utf16.of_ascii c :: Utf16.of_ascii c' :: (Utf16.of_ascii <$> s)).
  rewrite decode_low.
  - f_equal. exact IH.
  - unfold Utf16.is_high. pose proof (of_ascii_lt c).
    apply andb_false_iff. left. apply N.leb_gt. lia.
Qed.

Lemma linestart_in_fmap s i :
  Utf16.linestart_in (Utf16.of_ascii <$> s) i = Tk.linestart_in s i.
Proof.
  induction i as [|j IH]; [done|]. cbn [Utf16.linestart_in Tk.linestart_in].
  rewrite list_lookup_fmap. destruct (s !! j) as [c|]; cbn [fmap option_fmap option_map]; [|done].
  destruct (decide (c = newline)) as [->|Hc].
  - by rewrite decide_True.
  - rewrite decide_False; [done|]. by intros ?%of_ascii_newline.
Qed.

Lemma line_rest_fmap s : Utf16.line_rest (Utf16.of_ascii <$> s) = Tk.line_rest s.
Proof.
  induction s as [|c s IH]; [done|].
  cbn [fmap list_fmap Utf16.line_rest Tk.line_rest] in *.
  destruct (decide (c = newline)) as [->|Hc].
  - by rewrite decide_True.
  - rewrite decide_False; [by rewrite IH|]. by intros ?%of_ascii_newline.
Qed.

Lemma starts_with_fmap pat s :
  Utf16.starts_with (Utf16.of_ascii <$> pat) (Utf16.of_ascii <$> s) = Tk.starts_with pat s.
Proof.
  revert s. induction pat as [|p pat IH]; intros s; [done|].
  destruct s as [|c s]; [done|].
  cbn [fmap list_fmap Utf16.starts_with Tk.starts_with] in *.
  destruct (decide (p = c)) as [->|Hc].
  - rewrite decide_True by done. apply IH.
  - rewrite decide_False; [done|]. by intros ?%of_ascii_inj.
Qed.

Lemma find_from_fmap pat s i :
  Utf16.find_from (Utf16.of_ascii <$> pat) (Utf16.of_ascii <$> s) i
  = Tk.find_from pat s i.
Proof.
  revert i. induction s as [|c s IH]; intros i.
  - pose proof (starts_with_fmap pat []) as Hs.
    cbn [fmap list_fmap] in *. cbn [Utf16.find_from Tk.find_from].
    by rewrite Hs.
  - pose proof (starts_with_fmap pat (c :: s)) as Hs.
    cbn [fmap list_fmap] in *. cbn [Utf16.find_from Tk.find_from].
    rewrite Hs. destruct (Tk.starts_with pat (c :: s)); [done|]. apply IH.
Qed.

Lemma content_fmap k t : Utf16.content (Utf16.widen k t) = Utf16.of_ascii <$> Tk.content t.
Proof. unfold Utf16.content, Tk.content. by rewrite fmap_app. Qed.

Lemma end_index_fmap k t : Utf16.end_index (Utf16.widen k t) = Tk.end_index t.
Proof.
  unfold Utf16.end_index, Tk.end_index. by rewrite content_fmap, length_fmap.
Qed.

Lemma linestart_fmap k t i : Utf16.linestart (Utf16.widen k t) i = Tk.linestart t i.
Proof.
  unfold Utf16.linestart, Tk.linestart. by rewrite content_fmap, linestart_in_fmap.
Qed.

Lemma lineend_fmap k t i : Utf16.lineend (Utf16.widen k t) i = Tk.lineend t i.
Proof.
  unfold Utf16.lineend, Tk.lineend.
  by rewrite content_fmap, <- fmap_drop, line_rest_fmap.
Qed.

Lemma column_fmap k t i : Utf16.column (Utf16.widen k t) i = Tk.column t i.
Proof. unfold Utf16.column, Tk.column. by rewrite linestart_fmap. Qed.

Lemma fwd_fmap k t i n : Utf16.fwd (Utf16.widen k t) i n = Tk.fwd t i n.
Proof. unfold Utf16.fwd, Tk.fwd. by rewrite end_index_fmap. Qed.

Lemma get_fmap k t i j : Utf16.get (Utf16.widen k t) i j = Utf16.of_ascii <$> Tk.get t i j.
Proof.
  unfold Utf16.get, Tk.get.
  by rewrite content_fmap, <- fmap_drop, <- fmap_take, decode_fmap.
Qed.

Lemma search_fmap k t tok b e :
  Utf16.search (Utf16.widen k t) (Utf16.of_ascii <$> tok) b e
  = (λ i, (i, length tok)) <$> Tk.search t tok b e.
Proof.
  unfold Utf16.search, Tk.search.
  rewrite encode_fmap, content_fmap, <- fmap_drop, find_from_fmap, length_fmap.
  destruct (Tk.find_from tok (drop b (Tk.content t)) b) as [i|]; [|done].
  by case_decide.
Qed.

Lemma subscript_fmap line i :
  Utf16.subscript (Utf16.of_ascii <$> line) i
  = match Py.subscript line i with
    | Done c => Done (Utf16.of_ascii c)
    | IndexError => IndexError
    | OutOfFuel => OutOfFuel
    end.
Proof.
  unfold Utf16.subscript, Py.subscript. rewrite length_fmap, list_lookup_fmap.
  destruct (_ && _)%Z; [|done]. by destruct (line !! _).
Qed.

Lemma in_illegals_fmap line i :
  Utf16.in_illegals (Utf16.of_ascii <$> line) i = (Page.in_illegals line i).1.
Proof.
  unfold Utf16.in_illegals, Page.in_illegals. cbn [fst]. rewrite subscript_fmap.
  destruct (Py.subscript line i) as [c| |]; [|done|done].
  cbn [mbind outcome_bind mret outcome_ret]. f_equal.
  apply bool_decide_ext. unfold Utf16.illegals. rewrite list_elem_of_fmap. split.
  - intros (c' & Hc & Hin). by rewrite (of_ascii_inj _ _ Hc).
  - intros Hin. by exists c.
Qed.

Lemma or_fst (x y : Py.Checked) : (Py.or_ x y).1 = Utf16.or_ x.1 y.1.
Proof. by destruct x as [[[]| |] l]. Qed.

Lemma and_fst (x y : Py.Checked) : (Py.and_ x y).1 = Utf16.and_ x.1 y.1.
Proof. by destruct x as [[[]| |] l]. Qed.

Lemma boundary_fmap line col len :
  Utf16.boundary (Utf16.of_ascii <$> line) col len = (Page.boundary line col len).1.
Proof.
  unfold Utf16.boundary, Page.boundary.
  rewrite !or_fst, !and_fst, <- !in_illegals_fmap, length_fmap. done.
Qed.

Lemma tag_add_fmap k t a b :
  Utf16.tag_add a b (Utf16.widen k t) = (Utf16.widen k (Tk.tag_add k a b t)).
Proof.
  unfold Utf16.tag_add, Tk.tag_add. rewrite end_index_fmap.
  unfold Utf16.widen. cbn [Utf16.units Utf16.tag].
  by rewrite chars_set_tagged, tagged_set_tagged.
Qed.

Lemma token_loop_fmap k tok :
  ∀ fuel b t,
    Utf16.token_loop fuel (Utf16.of_ascii <$> tok) b (Utf16.widen k t)
    = match Page.token_loop fuel k tok b t with
      | Done (t', _) => Done (Utf16.widen k t')
      | IndexError => IndexError
      | OutOfFuel => OutOfFuel
      end.
Proof.
  induction fuel as [|fuel IH]; intros b t; [done|].
  cbn [Utf16.token_loop Page.token_loop].
  rewrite search_fmap, end_index_fmap.
  destruct (Tk.search t tok b (Tk.end_index t)) as [index|];
    cbn [fmap option_fmap option_map]; [|done].
  rewrite get_fmap, linestart_fmap, lineend_fmap, column_fmap, boundary_fmap,
    fwd_fmap.
  destruct (Page.boundary _ _ _).1 as [ok| |]; [|done|done].
  cbn [mbind outcome_bind].
  destruct ok.
  - rewrite tag_add_fmap, IH. by destruct (Page.token_loop _ _ _ _ _) as [[]| |].
  - rewrite IH. by destruct (Page.token_loop _ _ _ _ _) as [[]| |].
Qed.

Lemma token_scan_fmap k tok s :
  Utf16.token_scan (Utf16.of_ascii <$> tok) (Utf16.of_ascii <$> s)
  = match Page.token_scan k tok (Tk.untagged s 0) with
    | Done (t', _) => Done (Tk.tagged k t')
    | IndexError => IndexError
    | OutOfFuel => OutOfFuel
    end.
Proof.
  unfold Utf16.token_scan, Page.token_scan, Page.fuel_of.
  rewrite encode_fmap, length_fmap.
  replace (Tk.end_index (Tk.untagged s 0)) with (S (length s))
    by (rewrite end_index_eq; done).
  replace (Utf16.mkText (Utf16.of_ascii <$> s) ∅) with (Utf16.widen k (Tk.untagged s 0))
    by (by destruct k).
  rewrite token_loop_fmap.
  by destruct (Page.token_loop _ _ _ _ _) as [[]| |].
Qed.

End utf16_bridge.

(** X1. On a buffer of characters up to U+00FF, where every character takes
    one index position, the loop for a token written with identifier
    characters tags exactly the positions that lie in a delimited occurrence
    of the token: no whole-word occurrence is missed and nothing else is
    tagged. *)
Theorem latin1_token_tags_exact (tok s : list ascii) :
  identifier_token tok →
  ∃ X,
    Utf16.token_scan (Utf16.of_ascii <$> tok) (Utf16.of_ascii <$> s) = Done X
    ∧ ∀ p, p ∈ X ↔ whole_word (untagged s 0) [tok] p.
Proof.
  intros Hid. pose proof Hid as [Hv _].
  rewrite (token_scan_fmap kw).
  destruct (token_scan_spec kw tok (untagged s 0) Hv)
    as (t' & vs & Hs & _ & _ & _ & Hk & _ & Hall).
  rewrite Hs. exists (tagged kw t'). split; [done|].
  rewrite Forall_forall in Hall. intros p. split.
  - rewrite Hk. intros [Hp|Hp]%elem_of_union; [by apply not_elem_of_empty in Hp|].
    apply elem_of_visit_spans in Hp as (v & Hin & Htag & Hp).
    destruct (visit_ok_occurs _ _ _ Hv (Hall v Hin)) as (Hocc & _ & Hiff & _).
    exists tok, (v_index v).
    split; [by left|]. split; [done|]. split; [by apply Hiff|done].
  - intros (tok' & j & ->%list_elem_of_singleton & Hocc & Hdel & Hp).
    destruct (token_scan_complete kw tok (untagged s 0) j p Hid Hocc Hdel Hp)
      as (t'' & vs' & Hs' & _ & _ & Hin).
    rewrite Hs in Hs'. by injection Hs' as <- <-.
Qed.

Lemma latin1_token_tags_exact_witness :
  identifier_token (text "for")
  ∧ ∃ X,
      Utf16.token_scan (Utf16.of_ascii <$> text "for")
        (Utf16.of_ascii <$> text "before for x=for;")
      = Done X
      ∧ ∀ p, p ∈ X ↔ whole_word (untagged (text "before for x=for;") 0)
                        [text "for"] p.
Proof.
  assert (identifier_token (text "for")) as Hid.
  { split; [by apply (bool_decide_unpack _)|].
    apply Forall_forall. by apply (bool_decide_unpack _). }
  split; [exact Hid|].
  exact (latin1_token_tags_exact (text "for") (text "before for x=for;") Hid).
Defined.

(** ** Statements about the whole pass *)

Lemma identifier_syntax_valid syntax : identifier_syntax syntax → valid_syntax syntax.
Proof. intros [Hk Hb]. split; by apply identifier_token_valid. Qed.

(** Soundness and completeness of the token loops for identifier tokens. *)
Lemma token_tags_exact_aux (syntax : Syntax) (event : option Event) (t : Text) :
  identifier_syntax syntax →
  wf t →
  ∃ t',
    syntaxHighlight syntax event t = Done t'
    ∧ ∀ p, (p ∈ tagged kw t' ↔ whole_word t' (keywords syntax) p)
           ∧ (p ∈ tagged bi t' ↔ whole_word t' (builtins syntax) p).
Proof.
  intros Hid Hwf. pose proof (identifier_syntax_valid _ Hid) as Hv.
  destruct (syntaxHighlight_result syntax event t Hv Hwf)
    as (t1 & t2 & t' & H1 & H2 & H & Hc & _ & Hkw' & Hbi' & _).
  destruct (syntaxHighlight_origin syntax event t Hv Hwf) as (t'' & H' & Hkw & Hbi).
  rewrite H in H'. injection H' as <-.
  destruct Hid as [Hik Hib]. destruct Hv as [Hvk Hvb].
  set (t0 := untagged (chars (auto_indent event t)) (insert (auto_indent event t))) in *.
  destruct (token_pass_spec kw _ Hvk t0) as (? & E1 & Hc1 & _).
  rewrite H1 in E1. injection E1 as <-.
  assert (chars t' = chars t0) as Hc0 by (by rewrite Hc).
  assert (chars t' = chars t1) as Hc1' by (by rewrite Hc1).
  exists t'. split; [done|]. intros p. split; split.
  - apply Hkw.
  - intros Hw. apply (whole_word_same _ _ _ _ Hc0) in Hw
      as (tok & j & Hin & Hocc & Hdel & Hj).
    rewrite Hkw'. by apply (token_pass_complete kw _ Hik t0 t1 H1 tok j p).
  - apply Hbi.
  - intros Hw. apply (whole_word_same _ _ _ _ Hc1') in Hw
      as (tok & j & Hin & Hocc & Hdel & Hj).
    rewrite Hbi'. by apply (token_pass_complete bi _ Hib t1 t2 H2 tok j p).
Qed.

Lemma untagged_wf cs i : wf (untagged cs i).
Proof. intros k p Hp. destruct k; by apply not_elem_of_empty in Hp. Qed.

Lemma identifier_token_check tok :
  valid_token tok → Forall (λ c, c ∉ illegals) tok → identifier_token tok.
Proof. intros Hv Hall. split; [done|]. by apply Forall_forall. Qed.

Lemma spec_syntax_identifier : identifier_syntax spec_syntax.
Proof.
  split; [|constructor].
  repeat constructor;
    apply identifier_token_check; by apply (bool_decide_unpack _).
Qed.

(** X2. After a pass over a well-formed widget a position carries the
    Comment tag exactly when a hash sign with an even number of double
    quotes and of single quotes before it stands at or before the position
    on the same line. *)
Theorem comment_tags_exact (syntax : Syntax) (event : option Event) (t : Text) :
  valid_syntax syntax →
  wf t →
  ∃ t',
    syntaxHighlight syntax event t = Done t'
    ∧ ∀ p, p ∈ tagged comment t' ↔
           ∃ i, i ≤ p < lineend t' i
                ∧ content t' !! i = Some hash
                ∧ count (get t' (linestart t' i) i) dquote mod 2 = 0
                ∧ count (get t' (linestart t' i) i) squote mod 2 = 0.
Proof.
  intros Hv Hwf.
  destruct (syntaxHighlight_anatomy syntax event t Hv Hwf) as (t' & H & _ & Hcom & _).
  exists t'. split; [done|]. intros p. rewrite Hcom. unfold in_comment, even_quotes.
  apply exist_proper. intros i.
  rewrite andb_true_iff, !Nat.eqb_eq. tauto.
Qed.

Lemma comment_tags_exact_witness :
  valid_syntax spec_syntax
  ∧ wf (untagged (text "x = 1 # one" ++ newline :: text "y = '#' # two") 0)
  ∧ ∃ t',
      syntaxHighlight spec_syntax None
        (untagged (text "x = 1 # one" ++ newline :: text "y = '#' # two") 0)
      = Done t'
      ∧ ∀ p, p ∈ tagged comment t' ↔
             ∃ i, i ≤ p < lineend t' i
                  ∧ content t' !! i = Some hash
                  ∧ count (get t' (linestart t' i) i) dquote mod 2 = 0
                  ∧ count (get t' (linestart t' i) i) squote mod 2 = 0.
Proof.
  assert (valid_syntax spec_syntax) as Hs by (by apply (bool_decide_unpack _)).
  split; [exact Hs|]. split; [apply untagged_wf|].
  exact (comment_tags_exact spec_syntax None _ Hs (untagged_wf _ _)).
Defined.

(** X3. After a pass over a well-formed widget a position carries the String
    tag exactly when it is a character of a line other than its newline,
    lies in no comment, and for the double quote or for the single quote: an
    odd number of such quotes stand before it on its line, or it is such a
    quote. *)
Theorem string_tags_exact (syntax : Syntax) (event : option Event) (t : Text) :
  valid_syntax syntax →
  wf t →
  ∃ t',
    syntaxHighlight syntax event t = Done t'
    ∧ ∀ p, p ∈ tagged str t' ↔
           (p < length (chars t') ∧ content t' !! p ≠ Some newline
            ∧ ((quotes_before t' dquote p mod 2 = 1 ∨ content t' !! p = Some dquote)
               ∨ (quotes_before t' squote p mod 2 = 1
                  ∨ content t' !! p = Some squote)))
           ∧ p ∉ tagged comment t'.
Proof.
  intros Hv Hwf.
  destruct (syntaxHighlight_anatomy syntax event t Hv Hwf)
    as (t' & H & _ & Hcom & Hstr).
  exists t'. split; [done|]. intros p. rewrite Hstr, Hcom. unfold in_quotes. tauto.
Qed.

Lemma string_tags_exact_witness :
  valid_syntax spec_syntax
  ∧ wf (untagged (text "a 'b' c # 'd'") 0)
  ∧ ∃ t',
      syntaxHighlight spec_syntax None (untagged (text "a 'b' c # 'd'") 0) = Done t'
      ∧ ∀ p, p ∈ tagged str t' ↔
             (p < length (chars t') ∧ content t' !! p ≠ Some newline
              ∧ ((quotes_before t' dquote p mod 2 = 1
                  ∨ content t' !! p = Some dquote)
                 ∨ (quotes_before t' squote p mod 2 = 1
                    ∨ content t' !! p = Some squote)))
             ∧ p ∉ tagged comment t'.
Proof.
  assert (valid_syntax spec_syntax) as Hs by (by apply (bool_decide_unpack _)).
  split; [exact Hs|]. split; [apply untagged_wf|].
  exact (string_tags_exact spec_syntax None _ Hs (untagged_wf _ _)).
Defined.

Lemma auto_indent_not_return event t : not_return event → auto_indent event t = t.
Proof.
  intros He. unfold auto_indent. destruct event as [ev|]; [|done].
  rewrite decide_False; [done|]. by apply He.
Qed.

(** X4. The tags a pass leaves depend on the text alone: two well-formed
    widgets with the same characters, whatever their cursors and earlier
    tags, get the same String and Comment tags from a pass that is not
    triggered by the enter key, and with a catalog of identifier tokens the
    same Keyword and Builtin tags. *)
Theorem tags_depend_on_text_only
    (syntax : Syntax) (e1 e2 : option Event) (t1 t2 : Text) :
  valid_syntax syntax →
  wf t1 → wf t2 →
  chars t1 = chars t2 →
  not_return e1 → not_return e2 →
  ∃ t1' t2',
    syntaxHighlight syntax e1 t1 = Done t1'
    ∧ syntaxHighlight syntax e2 t2 = Done t2'
    ∧ chars t1' = chars t2'
    ∧ tagged str t1' = tagged str t2'
    ∧ tagged comment t1' = tagged comment t2'
    ∧ (identifier_syntax syntax →
       tagged kw t1' = tagged kw t2' ∧ tagged bi t1' = tagged bi t2').
Proof.
  intros Hv Hwf1 Hwf2 Hc He1 He2.
  destruct (syntaxHighlight_anatomy syntax e1 t1 Hv Hwf1)
    as (t1' & H1 & Hc1 & Hcom1 & Hstr1).
  destruct (syntaxHighlight_anatomy syntax e2 t2 Hv Hwf2)
    as (t2' & H2 & Hc2 & Hcom2 & Hstr2).
  rewrite (auto_indent_not_return _ _ He1) in Hc1.
  rewrite (auto_indent_not_return _ _ He2) in Hc2.
  assert (chars t1' = chars t2') as Hc' by congruence.
  exists t1', t2'. split_and!; try done.
  - apply set_eq. intros p.
    by rewrite Hstr1, Hstr2, !(in_quotes_same _ _ _ _ Hc'), (in_comment_same _ _ _ Hc').
  - apply set_eq. intros p. by rewrite Hcom1, Hcom2, (in_comment_same _ _ _ Hc').
  - intros Hid.
    destruct (token_tags_exact_aux syntax e1 t1 Hid Hwf1) as (? & E1 & Htok1).
    rewrite H1 in E1. injection E1 as <-.
    destruct (token_tags_exact_aux syntax e2 t2 Hid Hwf2) as (? & E2 & Htok2).
    rewrite H2 in E2. injection E2 as <-.
    split; apply set_eq; intros p.
    + rewrite (proj1 (Htok1 p)), (proj1 (Htok2 p)).
      split; apply whole_word_same; done.
    + rewrite (proj2 (Htok1 p)), (proj2 (Htok2 p)).
      split; apply whole_word_same; done.
Qed.

Lemma tags_depend_on_text_only_witness :
  valid_syntax spec_syntax
  ∧ wf (untagged (text "for x # y") 0)
  ∧ wf (mkText (text "for x # y") 4 (span 5 7) ∅ (span 0 2) ∅)
  ∧ chars (untagged (text "for x # y") 0)
    = chars (mkText (text "for x # y") 4 (span 5 7) ∅ (span 0 2) ∅)
  ∧ not_return None
  ∧ not_return (Some (mkEvent "a"))
  ∧ ∃ t1' t2',
      syntaxHighlight spec_syntax None (untagged (text "for x # y") 0) = Done t1'
      ∧ syntaxHighlight spec_syntax (Some (mkEvent "a"))
          (mkText (text "for x # y") 4 (span 5 7) ∅ (span 0 2) ∅) = Done t2'
      ∧ chars t1' = chars t2'
      ∧ tagged str t1' = tagged str t2'
      ∧ tagged comment t1' = tagged comment t2'
      ∧ (identifier_syntax spec_syntax →
         tagged kw t1' = tagged kw t2' ∧ tagged bi t1' = tagged bi t2').
Proof.
  assert (valid_syntax spec_syntax) as Hs by (by apply (bool_decide_unpack _)).
  assert (wf (mkText (text "for x # y") 4 (span 5 7) ∅ (span 0 2) ∅)) as Hwf.
  { intros k p Hp. rewrite end_index_eq.
    destruct k; unfold tagged in Hp;
      cbn [tag_kw tag_bi tag_str tag_comment] in Hp;
      try (by apply not_elem_of_empty in Hp);
      unfold span in Hp; apply elem_of_set_seq in Hp;
      cbn [chars]; simpl length; lia. }
  assert (not_return None) as Hn1 by (intros ev Hev; discriminate Hev).
  assert (not_return (Some (mkEvent "a"))) as Hn2.
  { intros ev Hev. injection Hev as <-. discriminate. }
  split; [exact Hs|]. split; [apply untagged_wf|]. split; [exact Hwf|].
  split; [reflexivity|]. split; [exact Hn1|]. split; [exact Hn2|].
  exact (tags_depend_on_text_only spec_syntax None (Some (mkEvent "a")) _ _
           Hs (untagged_wf _ _) Hwf eq_refl Hn1 Hn2).
Defined.

(** X5. No tag of a pass lies on a line break: every tagged position holds
    a character other than the newline, so every tagged range stays within
    one line. *)
Theorem no_newline_tagged (syntax : Syntax) (event : option Event) (t : Text) :
  valid_syntax syntax →
  wf t →
  ∃ t',
    syntaxHighlight syntax event t = Done t'
    ∧ ∀ k p, p ∈ tagged k t' →
        ∃ c, chars t' !! p = Some c ∧ c ≠ newline.
Proof.
  intros Hv Hwf.
  destruct (syntaxHighlight_anatomy syntax event t Hv Hwf)
    as (t' & H & _ & Hcom & Hstr).
  destruct (syntaxHighlight_origin syntax event t Hv Hwf) as (? & E & Hkw & Hbi).
  rewrite H in E. injection E as <-.
  destruct (syntaxHighlight_result syntax event t Hv Hwf)
    as (_ & _ & ? & _ & _ & E & _ & _ & _ & _ & _ & Hbound & _).
  rewrite H in E. injection E as <-.
  exists t'. split; [done|]. intros k p Hp.
  pose proof (Hbound k p Hp) as Hlt.
  destruct (lookup_lt_is_Some_2 (chars t') p Hlt) as [c Hc].
  exists c. split; [done|]. intros ->.
  rewrite <- content_lookup_chars in Hc by done.
  destruct Hv as [Hvk Hvb]. rewrite Forall_forall in Hvk. rewrite Forall_forall in Hvb.
  destruct k.
  - destruct (Hkw p Hp) as (tok & j & Hin & Hocc & _ & Hj).
    by apply (occurs_not_newline t' tok j p (Hvk _ Hin) Hocc Hj).
  - destruct (Hbi p Hp) as (tok & j & Hin & Hocc & _ & Hj).
    by apply (occurs_not_newline t' tok j p (Hvb _ Hin) Hocc Hj).
  - apply Hstr in Hp as [[(_ & Hnl & _)|(_ & Hnl & _)] _]; done.
  - apply Hcom in Hp as (i & Hi & _). by apply (lineend_no_newline t' i p).
Qed.

Lemma no_newline_tagged_witness :
  valid_syntax spec_syntax
  ∧ wf (untagged (text "x = 'a" ++ newline :: text "for # b") 0)
  ∧ ∃ t',
      syntaxHighlight spec_syntax None
        (untagged (text "x = 'a" ++ newline :: text "for # b") 0) = Done t'
      ∧ ∀ k p, p ∈ tagged k t' →
          ∃ c, chars t' !! p = Some c ∧ c ≠ newline.
Proof.
  assert (valid_syntax spec_syntax) as Hs by (by apply (bool_decide_unpack _)).
  split; [exact Hs|]. split; [apply untagged_wf|].
  exact (no_newline_tagged spec_syntax None _ Hs (untagged_wf _ _)).
Defined.

(** The indentation is a whole number of four-space steps, and the cursor
    ends behind it. *)
Lemma auto_indent_steps event t :
  insert t ≤ length (chars t) →
  ∃ k, chars (auto_indent event t)
       = take (insert t) (chars t) ++ replicate (4 * k) space
         ++ drop (insert t) (chars t)
     ∧ insert (auto_indent event t) = insert t + 4 * k
     ∧ (not_return event → k = 0).
Proof.
  intros Hi.
  assert (chars t = take (insert t) (chars t) ++ replicate (4 * 0) space
                    ++ drop (insert t) (chars t)) as Hsame.
  { simpl. by rewrite take_drop. }
  unfold auto_indent. destruct event as [ev|]; [|exists 0; split_and!; [done|lia|done]].
  case_decide as Hkey; [|exists 0; split_and!; [done|lia|done]].
  rewrite lstrip_length, mul_spaces.
  set (L := leading_whitespace _).
  set (t1 := insert_at_cursor (replicate (L / 4 * 4) space) t).
  assert (chars t1 = take (insert t) (chars t) ++ replicate (L / 4 * 4) space
                     ++ drop (insert t) (chars t)) as Hc1.
  { subst t1. by rewrite chars_insert_at_cursor. }
  assert (insert t1 = insert t + L / 4 * 4) as Hi1.
  { subst t1. rewrite insert_insert_at_cursor, length_replicate. lia. }
  case_decide.
  - exists (L / 4 + 1). split_and!.
    + rewrite chars_insert_at_cursor, Hi1, Hc1.
      assert (length (take (insert t) (chars t)) = insert t) as Hlen.
      { rewrite length_take. lia. }
      rewrite (assoc_L (++) (take (insert t) (chars t))).
      replace (insert t + L / 4 * 4)
        with (length (take (insert t) (chars t) ++ replicate (L / 4 * 4) space))
        by (rewrite length_app, length_replicate; lia).
      rewrite take_app_length, drop_app_length.
      rewrite <- !(assoc_L (++)). f_equal.
      replace (4 * (L / 4 + 1)) with (L / 4 * 4 + 4) by lia.
      rewrite replicate_add. by rewrite <- (assoc_L (++)).
    + rewrite insert_insert_at_cursor, Hi1, Hc1.
      rewrite !length_app, length_replicate, length_take, length_drop.
      change (length (text "    ")) with 4. lia.
    + intros Hne. by destruct (Hne ev eq_refl).
  - exists (L / 4). split_and!.
    + rewrite Hc1. by replace (4 * (L / 4)) with (L / 4 * 4) by lia.
    + lia.
    + intros Hne. by destruct (Hne ev eq_refl).
Qed.

Lemma syntaxHighlight_frame syntax event t :
  valid_syntax syntax →
  ∃ t', syntaxHighlight syntax event t = Done t'
        ∧ chars t' = chars (auto_indent event t)
        ∧ insert t' = insert (auto_indent event t).
Proof.
  intros Hv.
  destruct (syntaxHighlight_stages syntax event t Hv)
    as (t1 & t2 & t3 & t4 & t5 & qs1 & qs2 & hs & H1 & H2 & H3 & H4 & H5 & H).
  destruct Hv as [Hkw Hbi].
  destruct (token_pass_spec kw _ Hkw (clear_tags (auto_indent event t)))
    as (? & E1 & Hc1 & Hi1 & _).
  rewrite H1 in E1. injection E1 as <-.
  destruct (token_pass_spec bi _ Hbi t1) as (? & E2 & Hc2 & Hi2 & _).
  rewrite H2 in E2. injection E2 as <-.
  destruct (quote_scan_spec dquote t2 ltac:(done)) as (? & ? & E3 & Hc3 & Hi3 & _).
  rewrite H3 in E3. injection E3 as <- <-.
  destruct (quote_scan_spec squote t3 ltac:(done)) as (? & ? & E4 & Hc4 & Hi4 & _).
  rewrite H4 in E4. injection E4 as <- <-.
  destruct (comment_scan_spec t4) as (? & ? & E5 & Hc5 & Hi5 & _).
  rewrite H5 in E5. injection E5 as <- <-.
  exists t5. split; [done|]. split.
  - by rewrite Hc5, Hc4, Hc3, Hc2, Hc1, chars_clear_tags.
  - by rewrite Hi5, Hi4, Hi3, Hi2, Hi1, insert_clear_tags.
Qed.

(** X6. With the cursor inside the text, a pass inserts a whole number of
    four-space steps at the cursor and leaves the cursor just behind them;
    a pass that is not triggered by the enter key inserts nothing and does
    not move the cursor. *)
Theorem indent_in_steps_of_four (syntax : Syntax) (event : option Event) (t : Text) :
  valid_syntax syntax →
  insert t ≤ length (chars t) →
  ∃ t' k,
    syntaxHighlight syntax event t = Done t'
    ∧ chars t'
      = take (insert t) (chars t) ++ replicate (4 * k) space
        ++ drop (insert t) (chars t)
    ∧ insert t' = insert t + 4 * k
    ∧ (not_return event → k = 0).
Proof.
  intros Hv Hi.
  destruct (syntaxHighlight_frame syntax event t Hv) as (t' & H & Hc & Hi').
  destruct (auto_indent_steps event t Hi) as (k & Hck & Hik & Hz).
  exists t', k. split_and!; try done; congruence.
Qed.

Lemma indent_in_steps_of_four_witness :
  valid_syntax spec_syntax
  ∧ insert (untagged (text "      x:" ++ [newline]) 9)
    ≤ length (chars (untagged (text "      x:" ++ [newline]) 9))
  ∧ ∃ t' k,
      syntaxHighlight spec_syntax (Some (mkEvent "Return"))
        (untagged (text "      x:" ++ [newline]) 9) = Done t'
      ∧ chars t'
        = take (insert (untagged (text "      x:" ++ [newline]) 9))
            (chars (untagged (text "      x:" ++ [newline]) 9))
          ++ replicate (4 * k) space
          ++ drop (insert (untagged (text "      x:" ++ [newline]) 9))
               (chars (untagged (text "      x:" ++ [newline]) 9))
      ∧ insert t' = insert (untagged (text "      x:" ++ [newline]) 9) + 4 * k
      ∧ (not_return (Some (mkEvent "Return")) → k = 0).
Proof.
  assert (valid_syntax spec_syntax) as Hs by (by apply (bool_decide_unpack _)).
  assert (insert (untagged (text "      x:" ++ [newline]) 9)
          ≤ length (chars (untagged (text "      x:" ++ [newline]) 9))) as Hi
    by (simpl; lia).
  split; [exact Hs|]. split; [exact Hi|].
  exact (indent_in_steps_of_four spec_syntax (Some (mkEvent "Return")) _ Hs Hi).
Defined.

(** * Pages, saving and closing *)

Import Editor.

Section monad_facts.
Context {A B : Type}.
Implicit Types (s : State) (self : nat).

Lemma bind_Ret (m : M A) (f : A → M B) s b s2 :
  (m ≫= f) s = Ret b s2 → ∃ a s1, m s = Ret a s1 ∧ f a s1 = Ret b s2.
Proof.
  unfold mbind, M_bind. destruct (m s) as [a s1|e]; [|done]. eauto.
Qed.

Lemma bind_Fail (m : M A) (f : A → M B) s e :
  (m ≫= f) s = Fail e →
  m s = Fail e ∨ ∃ a s1, m s = Ret a s1 ∧ f a s1 = Fail e.
Proof.
  unfold mbind, M_bind.
  destruct (m s) as [a s1|e'] eqn:E; intros H; [right; eauto|left; by injection H as ->].
Qed.

End monad_facts.

Section primitive_facts.
Implicit Types (s : State) (self : nat) (p : PageObj).

Lemma the_page_Ret self s p s1 :
  the_page self s = Ret p s1 → s1 = s ∧ pages (world s) !! self = Some p.
Proof.
  unfold the_page, get_world, mbind, M_bind.
  destruct (pages (world s) !! self) as [q|]; [|done].
  by intros [= -> ->].
Qed.

Lemma the_page_Some self s p :
  pages (world s) !! self = Some p → the_page self s = Ret p s.
Proof. intros H. unfold the_page, get_world, mbind, M_bind. by rewrite H. Qed.

Lemma set_page_Ret self p s u s1 :
  set_page self p s = Ret u s1 →
  s1 = mkState (mkWorld (<[self := p]> (pages (world s))) (tabs (world s))
                  (selected (world s)) (fresh (world s)))
         (script s) (trace s).
Proof. unfold set_page, get_world, put_world, mbind, M_bind. by intros [= _ <-]. Qed.

Lemma act_Ret a s u s1 :
  act a s = Ret u s1 → s1 = mkState (world s) (script s) (trace s ++ [a]).
Proof. unfold act. by intros [= _ <-]. Qed.

Lemma answer_Ret s a s1 :
  answer s = Ret a s1 →
  script s = a :: script s1 ∧ world s1 = world s ∧ trace s1 = trace s.
Proof.
  unfold answer. destruct (script s) as [|a' rest]; [done|]. by intros [= -> <-].
Qed.

Lemma asksaveasfilename_Ret s path s1 :
  asksaveasfilename s = Ret path s1 →
  script s = SaveAsName path :: script s1 ∧ world s1 = world s ∧ trace s1 = trace s.
Proof.
  unfold asksaveasfilename. intros (a & s' & Ha & Hk)%bind_Ret. apply answer_Ret in Ha as (Hs & Hw & Ht).
  destruct a; try done. injection Hk as <- <-. by rewrite Hs.
Qed.

Lemma askyesnocancel_Ret s r s1 :
  askyesnocancel s = Ret r s1 →
  script s = YesNoCancel r :: script s1 ∧ world s1 = world s ∧ trace s1 = trace s.
Proof.
  unfold askyesnocancel. intros (a & s' & Ha & Hk)%bind_Ret. apply answer_Ret in Ha as (Hs & Hw & Ht).
  destruct a; try done. injection Hk as <- <-. by rewrite Hs.
Qed.

Lemma askyesno_Ret s r s1 :
  askyesno s = Ret r s1 →
  script s = YesNo r :: script s1 ∧ world s1 = world s ∧ trace s1 = trace s.
Proof.
  unfold askyesno. intros (a & s' & Ha & Hk)%bind_Ret. apply answer_Ret in Ha as (Hs & Hw & Ht).
  destruct a; try done. injection Hk as <- <-. by rewrite Hs.
Qed.

Lemma write_file_Ret path content s r s1 :
  write_file (Some path) content s = Ret r s1 →
  script s = Written r :: script s1 ∧ world s1 = world s
  ∧ trace s1 = trace s ++ [WriteFile path content].
Proof.
  unfold write_file.
  intros (u & s' & Ha & (a & s'' & Hb & Hk)%bind_Ret)%bind_Ret.
  apply act_Ret in Ha as ->. apply answer_Ret in Hb as (Hs & Hw & Ht).
  destruct a; try done. injection Hk as <- <-. by rewrite <- Hs.
Qed.

Lemma contents_chars (t : Text) : contents t = chars t.
Proof.
  unfold contents, get, back. rewrite end_index_eq.
  replace (S (length (chars t)) - 1 - 0) with (length (chars t)) by lia.
  unfold content. by rewrite drop_0, take_app_length.
Qed.

End primitive_facts.

Section failure_facts.
Implicit Types (s : State) (self : nat) (p : PageObj) (f : failure).

Lemma the_page_Fail self s f :
  the_page self s = Fail f → f = NoSuchPage ∧ pages (world s) !! self = None.
Proof.
  unfold the_page, get_world, mbind, M_bind.
  destruct (pages (world s) !! self) as [q|]; [done|]. by intros [= <-].
Qed.

Lemma asksaveasfilename_Fail s f : asksaveasfilename s = Fail f → f = NoAnswer.
Proof.
  unfold asksaveasfilename, answer, mbind, M_bind.
  destruct (script s) as [|[] rest]; cbn; by intros [= <-].
Qed.

Lemma askyesnocancel_Fail s f : askyesnocancel s = Fail f → f = NoAnswer.
Proof.
  unfold askyesnocancel, answer, mbind, M_bind.
  destruct (script s) as [|[] rest]; cbn; by intros [= <-].
Qed.

Lemma askyesno_Fail s f : askyesno s = Fail f → f = NoAnswer.
Proof.
  unfold askyesno, answer, mbind, M_bind.
  destruct (script s) as [|[] rest]; cbn; by intros [= <-].
Qed.

Lemma write_file_Fail path content s f :
  write_file path content s = Fail f → f = NoAnswer.
Proof.
  destruct path as [path|]; [|done].
  unfold write_file, act, answer, mbind, M_bind. cbn.
  destruct (script s) as [|[] rest]; cbn; by intros [= <-].
Qed.

End failure_facts.

Import EditorSpec.

Section save_facts.
Implicit Types (s : State) (self : nat) (p : PageObj) (c : bool).

Lemma only_page_refl self w : only_page self w w.
Proof. by split_and!. Qed.

Lemma only_page_trans self w1 w2 w3 :
  only_page self w1 w2 → only_page self w2 w3 → only_page self w1 w3.
Proof.
  intros (H1 & H2 & H3 & H4) (G1 & G2 & G3 & G4). split_and!; try congruence.
  intros n Hn. by rewrite G4, H4.
Qed.

Lemma only_page_set self p w :
  only_page self w
    (mkWorld (<[self := p]> (pages w)) (tabs w) (selected w) (fresh w)).
Proof. split_and!; try done. intros n Hn. cbn. by rewrite lookup_insert_ne. Qed.

Lemma only_page_set2 self p q w :
  only_page self w
    (mkWorld (<[self := q]> (<[self := p]> (pages w))) (tabs w) (selected w)
       (fresh w)).
Proof.
  split_and!; try done. intros n Hn. cbn. by rewrite !lookup_insert_ne.
Qed.

Lemma writes_only_nil content : writes_only content [].
Proof. by intros a ?%elem_of_nil. Qed.

Lemma writes_only_app content new1 new2 :
  writes_only content new1 → writes_only content new2 →
  writes_only content (new1 ++ new2).
Proof. intros H1 H2 a [?|?]%elem_of_app; [by apply H1|by apply H2]. Qed.

(** A retry after a failed write: whatever the retry leaves is a result of
    the call that retried. *)
Lemma retry_post p p4 c0 p' new1 new0 :
  page_text p4 = page_text p → page_path p4 = None →
  writes_only (contents (page_text p)) new1 → last new1 = Some ShowError →
  save_post p4 c0 p' new0 → save_post p false p' (new1 ++ new0).
Proof.
  intros Htext Hnone Hwr1 Hlast (Ht & Hwr & Htrue & Hfalse).
  rewrite Htext in Hwr, Hfalse.
  split; [congruence|]. split; [by apply writes_only_app|].
  split; [done|]. intros _. destruct c0.
  - destruct Htrue as (-> & ->); [done|]. right. by rewrite app_nil_r.
  - destruct Hfalse as [(path & Hpath & Hun & Hl & Htitle)|[Hno Hl]]; [done| |].
    + left. exists path. rewrite last_app, Hl. split_and!; try done.
      destruct Htitle as [Hb|[_ Hpp]]; [by left|congruence].
    + right. by rewrite last_app, Hl.
Qed.

Lemma save_spec fuel :
  ∀ self saveAs s p c s',
    pages (world s) !! self = Some p →
    save fuel self saveAs s = Ret c s' →
    only_page self (world s) (world s')
    ∧ (c = true → script s = SaveAsName [] :: script s')
    ∧ ∃ p' new, pages (world s') !! self = Some p'
                ∧ trace s' = trace s ++ new ∧ save_post p c p' new.
Proof.
  induction fuel as [|fuel IH]; intros self saveAs s p c s' Hp Hsave; [done|].
  cbn [save] in Hsave.
  apply bind_Ret in Hsave as (p0 & s0 & Hget & Hsave).
  apply the_page_Ret in Hget as [-> Hp0]. rewrite Hp in Hp0. injection Hp0 as <-.
  apply bind_Ret in Hsave as (cancelled & s1 & Hfirst & Hsave).
  (* the dialogue *)
  assert (cancelled = true ∧ world s1 = world s ∧ trace s1 = trace s
          ∧ script s = SaveAsName [] :: script s1
          ∨ cancelled = false ∧ trace s1 = trace s
            ∧ only_page self (world s) (world s1)
            ∧ ∃ p1 path, pages (world s1) !! self = Some p1
                ∧ page_text p1 = page_text p ∧ page_saved p1 = page_saved p
                ∧ page_path p1 = Some path
                ∧ (tab_title p1 = basename path
                   ∨ (tab_title p1 = tab_title p ∧ page_path p = Some path)))
    as Hdialogue.
  { destruct (bool_decide (page_path p = None) || saveAs) eqn:Hask.
    - apply bind_Ret in Hfirst as (path & s2 & Hask' & Hfirst).
      apply asksaveasfilename_Ret in Hask' as (Hsc & Hw & Ht).
      destruct (decide (path = [])) as [->|Hne].
      + injection Hfirst as <- <-. left. by split_and!.
      + apply bind_Ret in Hfirst as (u & s3 & Hset & Hfirst).
        apply set_page_Ret in Hset as ->. injection Hfirst as <- <-. right.
        cbn [world trace script]. rewrite Hw.
        split; [done|]. split; [done|]. split; [apply only_page_set|].
        eexists _, path. cbn [pages]. rewrite lookup_insert_eq. split; [done|].
        cbn [page_text page_saved page_path tab_title]. split_and!; try done.
        by left.
    - injection Hfirst as <- <-. right.
      split; [done|]. split; [done|]. split; [apply only_page_refl|].
      apply orb_false_iff in Hask as [Hnone _].
      apply bool_decide_eq_false in Hnone.
      destruct (page_path p) as [path|] eqn:Hpath; [|done].
      exists p, path. split_and!; try done. by right. }
  destruct Hdialogue
    as [(-> & Hw & Ht & Hsc)
       |(-> & Ht & Honly & p1 & path & Hp1 & Htext & Hsaved & Hpath & Htitle)].
  { injection Hsave as <- <-. split; [rewrite Hw; apply only_page_refl|].
    split; [done|]. exists p, []. rewrite Hw, app_nil_r.
    split_and!; [done|done|]. split_and!; [done|apply writes_only_nil|done|done]. }
  apply bind_Ret in Hsave as (p0 & s0 & Hget & Hsave).
  apply the_page_Ret in Hget as [-> Hp0]. rewrite Hp1 in Hp0. injection Hp0 as <-.
  apply bind_Ret in Hsave as (r & s2 & Hwrite & Hsave).
  rewrite Hpath in Hwrite, Hsave.
  apply write_file_Ret in Hwrite as (Hsc2 & Hw2 & Ht2).
  rewrite Ht, Htext in Ht2.
  set (wr := WriteFile path (contents (page_text p))) in *.
  assert (writes_only (contents (page_text p)) [wr]) as Hwr1.
  { intros a ->%list_elem_of_singleton. right. by exists path. }
  assert (writes_only (contents (page_text p)) [wr; ShowError]) as Hwr2.
  { apply (writes_only_app _ [wr] [ShowError]); [done|].
    intros a ->%list_elem_of_singleton. by left. }
  destruct r.
  - (* written *)
    apply bind_Ret in Hsave as (u & s3 & Hset & Hsave).
    apply set_page_Ret in Hset as ->. injection Hsave as <- <-.
    cbn [world trace script pages]. rewrite Hw2. split.
    { eapply only_page_trans; [exact Honly|apply only_page_set]. }
    split; [done|].
    eexists _, [wr]. rewrite lookup_insert_eq. split_and!; [done|done|].
    split; [done|]. split; [done|]. split; [done|]. intros _. left. exists path.
    cbn [page_text page_saved page_path tab_title].
    split_and!; [done|done|done|done].
  - (* the write failed *)
    apply bind_Ret in Hsave as (u & s3 & Hact & Hsave).
    apply act_Ret in Hact as ->.
    apply bind_Ret in Hsave as (u' & s4 & Hset & Hsave).
    apply set_page_Ret in Hset as ->. cbn [world script trace] in Hsave.
    apply bind_Ret in Hsave as (c0 & s5 & Hrec & Hsave). injection Hsave as <- <-.
    eapply IH in Hrec as (Honly' & _ & p' & new & Hp' & Hnew & Hpost);
      [|cbn [world pages]; apply lookup_insert_eq].
    cbn [world] in Honly'. split.
    { eapply only_page_trans; [exact Honly|]. rewrite <- Hw2.
      eapply only_page_trans; [apply only_page_set|exact Honly']. }
    split; [done|]. exists p', ([wr; ShowError] ++ new).
    split_and!; [done| |].
    + cbn [trace] in Hnew. rewrite Hnew, Ht2, <- !app_assoc. done.
    + eapply retry_post; [| | | |exact Hpost]; done.
  - (* closing the file failed *)
    apply bind_Ret in Hsave as (u0 & s2' & Hset0 & Hsave).
    apply set_page_Ret in Hset0 as ->.
    apply bind_Ret in Hsave as (u & s3 & Hact & Hsave).
    apply act_Ret in Hact as ->.
    apply bind_Ret in Hsave as (u' & s4 & Hset & Hsave).
    apply set_page_Ret in Hset as ->. cbn [world script trace pages tabs selected fresh] in Hsave.
    apply bind_Ret in Hsave as (c0 & s5 & Hrec & Hsave). injection Hsave as <- <-.
    eapply IH in Hrec as (Honly' & _ & p' & new & Hp' & Hnew & Hpost);
      [|cbn [world pages]; apply lookup_insert_eq].
    cbn [world] in Honly'. split.
    { eapply only_page_trans; [exact Honly|]. rewrite <- Hw2.
      eapply only_page_trans; [apply only_page_set2|exact Honly']. }
    split; [done|]. exists p', ([wr; ShowError] ++ new).
    split_and!; [done| |].
    + cbn [trace] in Hnew. rewrite Hnew, Ht2, <- !app_assoc. done.
    + eapply retry_post; [| | | |exact Hpost]; done.
Qed.

End save_facts.

Section save_fuel.
Implicit Types (s : State) (self : nat) (p : PageObj) (c : bool).

(** Every retry takes an answer from the script first: the only failure of
    [save] on a page that is there is a script that does not answer. *)
Lemma save_Fail fuel :
  ∀ self saveAs s f,
    length (script s) < fuel → is_Some (pages (world s) !! self) →
    save fuel self saveAs s = Fail f → f = NoAnswer.
Proof.
  induction fuel as [|fuel IH]; intros self saveAs s f Hlen Hsome Hsave; [lia|].
  cbn [save] in Hsave.
  apply bind_Fail in Hsave as [Hf|(p & s0 & Hget & Hsave)].
  { apply the_page_Fail in Hf as [_ Hnone]. rewrite Hnone in Hsome.
    by destruct Hsome. }
  apply the_page_Ret in Hget as [-> Hp].
  apply bind_Fail in Hsave as [Hf|(cancelled & s1 & Hfirst & Hsave)].
  { destruct (bool_decide (page_path p = None) || saveAs); [|done].
    apply bind_Fail in Hf as [Hf|(path & s2 & Hask & Hf)].
    - by apply asksaveasfilename_Fail in Hf.
    - destruct (decide (path = [])); [done|].
      by apply bind_Fail in Hf as [Hf|(u & s3 & Hset & Hf)]. }
  destruct cancelled; [done|].
  assert (length (script s1) ≤ length (script s)
          ∧ ∃ p1 path, pages (world s1) !! self = Some p1
                       ∧ page_path p1 = Some path) as (Hlen1 & p1 & path & Hp1 & Hpath).
  { destruct (bool_decide (page_path p = None) || saveAs) eqn:Hask.
    - apply bind_Ret in Hfirst as (path & s2 & Hask' & Hfirst).
      apply asksaveasfilename_Ret in Hask' as (Hsc & _ & _).
      destruct (decide (path = [])); [done|].
      apply bind_Ret in Hfirst as (u & s3 & Hset & Hfirst).
      apply set_page_Ret in Hset as ->. injection Hfirst as <-.
      cbn [script world pages]. rewrite Hsc. split; [cbn; lia|].
      eexists _, path. by rewrite lookup_insert_eq.
    - injection Hfirst as <-. split; [done|].
      apply orb_false_iff in Hask as [Hnone _].
      apply bool_decide_eq_false in Hnone.
      destruct (page_path p) as [path|] eqn:Hpath; [|done]. by exists p, path. }
  apply bind_Fail in Hsave as [Hf|(p0 & s0 & Hget & Hsave)].
  { apply the_page_Fail in Hf as [_ Hnone]. by rewrite Hnone in Hp1. }
  apply the_page_Ret in Hget as [-> Hp0]. rewrite Hp1 in Hp0. injection Hp0 as <-.
  apply bind_Fail in Hsave as [Hf|(r & s2 & Hwrite & Hsave)].
  { by apply write_file_Fail in Hf. }
  rewrite Hpath in Hwrite, Hsave.
  apply write_file_Ret in Hwrite as (Hsc2 & _ & _).
  assert (length (script s2) < fuel) as Hlen2.
  { rewrite Hsc2 in Hlen1. cbn in Hlen1. lia. }
  destruct r.
  - by apply bind_Fail in Hsave as [Hf|(u & s3 & Hset & Hf)].
  - apply bind_Fail in Hsave as [Hf|(u & s3 & Hact & Hsave)]; [done|].
    apply act_Ret in Hact as ->.
    apply bind_Fail in Hsave as [Hf|(u' & s4 & Hset & Hsave)]; [done|].
    apply set_page_Ret in Hset as ->.
    apply bind_Fail in Hsave as [Hf|(c0 & s5 & Hrec & Hf)]; [|done].
    eapply IH in Hf; [done|done|].
    cbn [world pages]. by rewrite lookup_insert_eq.
  - apply bind_Fail in Hsave as [Hf|(u0 & s2' & Hset0 & Hsave)]; [done|].
    apply set_page_Ret in Hset0 as ->.
    apply bind_Fail in Hsave as [Hf|(u & s3 & Hact & Hsave)]; [done|].
    apply act_Ret in Hact as ->.
    apply bind_Fail in Hsave as [Hf|(u' & s4 & Hset & Hsave)]; [done|].
    apply set_page_Ret in Hset as ->.
    apply bind_Fail in Hsave as [Hf|(c0 & s5 & Hrec & Hf)]; [|done].
    eapply IH in Hf; [done|done|].
    cbn [world pages]. by rewrite lookup_insert_eq.
Qed.

End save_fuel.

Section basename_facts.
Implicit Types (sep c : ascii) (s w : list ascii).

Lemma split_single sep s w : split sep s = [w] → s = w ∧ sep ∉ w.
Proof.
  revert w. induction s as [|c s IH]; intros w; cbn [split].
  - intros [= <-]. split; [done|]. apply not_elem_of_nil.
  - destruct (decide (c = sep)) as [->|Hc].
    + intros [= <- Hnil]. by destruct s; [|cbn in Hnil; destruct (decide _), (split sep s)].
    + destruct (split sep s) as [|w' ws] eqn:Hs; [intros [= <-]|].
      * by destruct s; [|cbn in Hs; destruct (decide _), (split sep s)].
      * intros [= <- ->]. destruct (IH w' eq_refl) as [-> Hw]. split; [done|].
        by intros [->|?]%elem_of_cons.
Qed.

Lemma split_not_nil sep s : split sep s ≠ [].
Proof.
  destruct s as [|c s]; [done|]. cbn [split].
  by destruct (decide (c = sep)), (split sep s).
Qed.

Lemma split_no_sep sep s : sep ∉ s → split sep s = [s].
Proof.
  induction s as [|c s IH]; [done|]. intros Hs. cbn [split].
  destruct (decide (c = sep)) as [->|Hc]; [by destruct Hs; left|].
  rewrite IH; [done|]. intros ?. apply Hs. by right.
Qed.

Lemma last_cons_ne {A} (x : A) (l : list A) : l ≠ [] → last (x :: l) = last l.
Proof. by destruct l. Qed.

Lemma split_last sep s :
  ∃ dir, s = dir ++ default [] (last (split sep s))
         ∧ (sep ∉ default [] (last (split sep s)))
         ∧ (dir = [] ∨ last dir = Some sep).
Proof.
  induction s as [|c s (dir & Hs & Hsep & Hdir)].
  - exists []. split_and!; [done|apply not_elem_of_nil|by left].
  - cbn [split]. destruct (decide (c = sep)) as [->|Hc].
    + rewrite last_cons_ne by apply split_not_nil.
      exists (sep :: dir). split_and!; [by rewrite Hs at 1|done|right].
      destruct Hdir as [->|Hl]; [done|].
      rewrite last_cons_ne; [done|]. by intros ->.
    + destruct (split sep s) as [|w ws] eqn:Hsplit;
        [by apply split_not_nil in Hsplit|].
      destruct ws as [|w' ws].
      * apply split_single in Hsplit as [-> Hw]. exists []. cbn.
        split_and!; [done| |by left]. by intros [->|?]%elem_of_cons.
      * rewrite last_cons_ne by done. rewrite last_cons_ne in Hs, Hsep by done.
        exists (c :: dir). split_and!; [by rewrite Hs at 1|done|right].
        destruct Hdir as [->|Hl].
        -- cbn in Hs. rewrite <- Hs in Hsep.
           apply split_no_sep in Hsep. by rewrite Hsplit in Hsep.
        -- rewrite last_cons_ne; [done|]. by intros ->.
Qed.

End basename_facts.

Section notebook_facts.
Implicit Types (s : State) (self n : nat) (l : list nat) (w : World).

Lemma elem_of_tabs_without self l n :
  NoDup l →
  n ∈ tabs_before self l ++ tabs_after self l ↔ n ∈ l ∧ n ≠ self.
Proof.
  induction l as [|x l IH]; intros Hnd; cbn [tabs_before tabs_after].
  - cbn. split; [by intros ?%elem_of_nil|by intros [?%elem_of_nil _]].
  - apply NoDup_cons in Hnd as [Hx Hnd]. destruct (decide (x = self)) as [->|Hne].
    + cbn. rewrite elem_of_cons. split.
      * intros Hn. split; [by right|]. by intros ->.
      * by intros [[->|Hn] Hne].
    + cbn. rewrite !elem_of_cons, (IH Hnd). split.
      * intros [->|[Hn Hs]]; [by split; [left|]|by split; [right|]].
      * intros [[->|Hn] Hs]; [by left|by right].
Qed.

Lemma NoDup_tabs_without self l :
  NoDup l → NoDup (tabs_before self l ++ tabs_after self l).
Proof.
  induction l as [|x l IH]; intros Hnd; cbn [tabs_before tabs_after]; [done|].
  apply NoDup_cons in Hnd as [Hx Hnd]. destruct (decide (x = self)); [done|].
  cbn. apply NoDup_cons. split; [|by apply IH].
  rewrite elem_of_tabs_without by done. by intros [? _].
Qed.

Lemma forget_Ret self s u s1 :
  forget self s = Ret u s1 →
  self ∈ tabs (world s)
  ∧ tabs (world s1)
    = tabs_before self (tabs (world s)) ++ tabs_after self (tabs (world s))
  ∧ pages (world s1) = pages (world s) ∧ fresh (world s1) = fresh (world s)
  ∧ script s1 = script s ∧ trace s1 = trace s.
Proof.
  unfold forget, get_world, put_world, mbind, M_bind.
  case_bool_decide as Hin; [|done]. by intros [= _ <-].
Qed.

Lemma forget_Fail self s f :
  forget self s = Fail f → f = NoSuchPage ∧ self ∉ tabs (world s).
Proof.
  unfold forget, get_world, put_world, mbind, M_bind.
  case_bool_decide as Hin; [done|]. by intros [= <-].
Qed.

Lemma until_nul_id cs : "000"%char ∉ cs → until_nul cs = cs.
Proof.
  induction cs as [|c cs IH]; [done|]. intros Hno. cbn [until_nul].
  case_decide as Hc; [destruct Hno; rewrite Hc; by left|].
  rewrite IH; [done|]. intros ?. apply Hno. by right.
Qed.

Lemma until_nul_eq cs : until_nul cs = cs ↔ "000"%char ∉ cs.
Proof.
  split; [|apply until_nul_id].
  induction cs as [|c cs IH]; [intros _; apply not_elem_of_nil|].
  cbn [until_nul]. case_decide as Hc; [done|].
  intros [= Heq]. intros [Hz|Hin]%elem_of_cons; [congruence|]. by apply IH.
Qed.

Lemma until_nul_clean cs : "000"%char ∉ until_nul cs.
Proof.
  induction cs as [|c cs IH]; cbn [until_nul]; [apply not_elem_of_nil|].
  case_decide as Hc; [apply not_elem_of_nil|].
  intros [Hz|?]%elem_of_cons; [congruence|done].
Qed.

(** [Page.__init__] always returns: the pass over the new text ends. *)
Lemma new_page_Ret syntax cont title path s :
  valid_syntax syntax →
  ∃ t,
    new_page syntax cont title path s
    = Ret (fresh (world s))
        (mkState
           (mkWorld
              (<[fresh (world s) := mkPage t path (default [] cont) title]>
                 (pages (world s)))
              (tabs (world s) ++ [fresh (world s)]) (Some (fresh (world s)))
              (S (fresh (world s))))
           (script s) (trace s))
    ∧ chars t = until_nul (default [] cont) ∧ wf t.
Proof.
  intros Hv. unfold new_page, get_world, put_world, set_page, mbind, M_bind.
  cbn [world script trace pages tabs selected fresh].
  set (t1 := match cont with Some c => _ | None => _ end).
  assert (chars t1 = until_nul (default [] cont) ∧ wf t1) as [Hc1 Hwf1].
  { subst t1. destruct cont as [c|]; cbn [default].
    - split; [cbn; by rewrite app_nil_r|].
      intros k p Hp. rewrite end_index_eq. unfold tagged, insert_text in Hp.
      assert (length (chars (insert_text (end_index (untagged [] 0)) c
                               (untagged [] 0))) = length (until_nul c)) as ->.
      { cbn. by rewrite app_nil_r. }
      assert (p < 0 + length (until_nul c)); [|lia].
      destruct k; cbn in Hp;
        (eapply shift_tags_bound; [|reflexivity|exact Hp]);
        by intros q ?%not_elem_of_empty.
    - split; [done|apply untagged_wf]. }
  destruct (syntaxHighlight_result syntax None t1 Hv Hwf1)
    as (ta & tb & t' & _ & _ & Hdone & Hc & _ & _ & _ & _ & Hwf & _).
  rewrite Hdone. exists t'. cbn [auto_indent] in Hc. split_and!.
  - unfold get_world, put_world, mret, M_ret. cbn [world script trace pages tabs selected fresh]. rewrite insert_insert_eq.
    by replace (match cont with Some c => c | None => [] end)
      with (default [] cont) by by destruct cont.
  - by rewrite Hc.
  - intros k p Hp. rewrite end_index_eq. apply Hwf in Hp. lia.
Qed.

End notebook_facts.

Section close_facts.
Implicit Types (s : State) (self n : nat) (p : PageObj) (c : bool) (w : World).

Lemma only_page_same self w w' :
  only_page self w w' → pages w' !! self = pages w !! self → w' = w.
Proof.
  intros (Ht & Hs & Hf & Hp) Hself. destruct w, w'; cbn in *. f_equal; try done.
  apply map_eq. intros n. destruct (decide (n = self)) as [->|Hn]; [done|].
  by apply Hp.
Qed.

(** What [close] has done when it comes to removing the tab. *)
Lemma close_asked self s p cancelled s1 :
  pages (world s) !! self = Some p →
  (if bool_decide (contents (page_text p) ≠ page_saved p) then
     res ← askyesnocancel;
     match res with
     | Some true => save_page self false
     | Some false => mret false
     | None => mret true
     end
   else mret false) s = Ret cancelled s1 →
  only_page self (world s) (world s1)
  ∧ (∃ new, trace s1 = trace s ++ new
            ∧ writes_only (contents (page_text p)) new)
  ∧ (cancelled = true → world s1 = world s ∧ trace s1 = trace s)
  ∧ (unmodified p → cancelled = false ∧ s1 = s).
Proof.
  intros Hp Hask. case_bool_decide as Hmod.
  - apply bind_Ret in Hask as (res & s0 & Hres & Hask).
    apply askyesnocancel_Ret in Hres as (Hsc & Hw & Ht).
    destruct res as [[]|].
    + rewrite <- Hw in Hp. unfold save_page in Hask.
      apply (save_spec _ _ _ _ _ _ _ Hp) in Hask
        as (Honly & _ & p' & new & Hp' & Hnew & Hpost).
      rewrite Hw in Honly. rewrite Ht in Hnew. destruct Hpost as (_ & Hwr & Htrue & _).
      split_and!; [done|by exists new| |done].
      intros ->. destruct Htrue as (-> & ->); [done|].
      rewrite app_nil_r in Hnew. split; [|done].
      apply (only_page_same self); [done|]. by rewrite Hp', <- Hw, Hp.
    + injection Hask as <- <-. rewrite Hw. split_and!; [apply only_page_refl| |done|done].
      exists []. rewrite app_nil_r. split; [done|apply writes_only_nil].
    + injection Hask as <- <-. rewrite Hw. split_and!; [apply only_page_refl| |done|done].
      exists []. rewrite app_nil_r. split; [done|apply writes_only_nil].
  - injection Hask as <- <-. split_and!; [apply only_page_refl| |done|done].
    exists []. rewrite app_nil_r. split; [done|apply writes_only_nil].
Qed.

Lemma close_spec syntax self s p c s' :
  valid_syntax syntax → world_ok (world s) → self ∈ tabs (world s) →
  pages (world s) !! self = Some p →
  close syntax self s = Ret c s' →
  world_ok (world s')
  ∧ (∃ new, trace s' = trace s ++ new
            ∧ writes_only (contents (page_text p)) new)
  ∧ (c = true → world s' = world s ∧ trace s' = trace s)
  ∧ (unmodified p → c = false ∧ script s' = script s ∧ trace s' = trace s)
  ∧ (c = false →
     (∀ n, n ≠ self → n ≠ fresh (world s) →
           pages (world s') !! n = pages (world s) !! n)
     ∧ (tabs_without self (tabs (world s)) ≠ []
        ∧ tabs (world s') = tabs_without self (tabs (world s))
        ∧ fresh (world s') = fresh (world s)
        ∨ tabs_without self (tabs (world s)) = []
          ∧ tabs (world s') = [fresh (world s)]
          ∧ fresh (world s') = S (fresh (world s))
          ∧ ∃ q, pages (world s') !! fresh (world s) = Some q ∧ blank_page q)).
Proof.
  intros Hv [Hnd Hok] Hin Hp Hclose. unfold close in Hclose.
  apply bind_Ret in Hclose as (p0 & s0 & Hget & Hclose).
  apply the_page_Ret in Hget as [-> Hp0]. rewrite Hp in Hp0. injection Hp0 as <-.
  apply bind_Ret in Hclose as (cancelled & s1 & Hask & Hclose).
  apply (close_asked _ _ _ _ _ Hp) in Hask
    as (Honly & (new & Hnew & Hwr) & Htrue & Hun).
  destruct cancelled.
  { injection Hclose as <- <-. destruct (Htrue eq_refl) as [Hw Ht].
    split_and!; [by rewrite Hw|by exists new|done| |done].
    intros Hu. by destruct (Hun Hu). }
  apply bind_Ret in Hclose as (u & s2 & Hforget & Hclose).
  apply forget_Ret in Hforget as (_ & Htabs2 & Hpages2 & Hfresh2 & Hsc2 & Ht2).
  destruct Honly as (Htabs1 & _ & Hfresh1 & Hpages1).
  rewrite Htabs1 in Htabs2. fold (tabs_without self (tabs (world s))) in Htabs2.
  apply bind_Ret in Hclose as (w & s3 & Hw & Hclose).
  injection Hw as <- <-.
  destruct (length (tabs (world s2)) =? 0) eqn:Hlen.
  - apply Nat.eqb_eq, length_zero_iff_nil in Hlen.
    apply bind_Ret in Hclose as (m & s4 & Hnewp & Hclose).
    injection Hclose as <- <-.
    destruct (new_page_Ret syntax None (text "Untitled") None s2 Hv)
      as (t & Hnew' & Hct & Hwft).
    rewrite Hnew' in Hnewp. injection Hnewp as <- <-.
    cbn [world pages tabs fresh trace script].
    rewrite Hlen, Hfresh2, Hfresh1, Hpages2, Ht2, Hsc2. cbn [app].
    split_and!.
    + split; [apply NoDup_singleton|]. intros n ->%list_elem_of_singleton.
      cbn [fresh pages]. rewrite lookup_insert_eq. split; [lia|done].
    + by exists new.
    + done.
    + intros Hu. destruct (Hun Hu) as [_ ->]. done.
    + intros _. split.
      * intros n Hn Hf. rewrite lookup_insert_ne by done. by apply Hpages1.
      * right. rewrite <- Htabs2, Hlen. split_and!; [done|done|done|].
        eexists. rewrite lookup_insert_eq. split; [done|].
        split_and!; [|done|done|done].
        cbn [page_text]. by rewrite contents_chars.
  - apply Nat.eqb_neq in Hlen. injection Hclose as <- <-.
    assert (tabs (world s2) ≠ []) as Hne.
    { intros Hnil. by rewrite Hnil in Hlen. }
    split_and!.
    + split; [rewrite Htabs2; by apply NoDup_tabs_without|].
      intros n Hn. rewrite Htabs2 in Hn.
      apply elem_of_tabs_without in Hn as [Hn Hns]; [|done].
      rewrite Hfresh2, Hfresh1, Hpages2, Hpages1 by done. by apply Hok.
    + exists new. by rewrite Ht2.
    + done.
    + intros Hu. destruct (Hun Hu) as [_ ->]. by rewrite Hsc2, Ht2.
    + intros _. split.
      * intros n Hn _. rewrite Hpages2. by apply Hpages1.
      * left. rewrite <- Htabs2. split_and!; [done|done|congruence].
Qed.

End close_facts.

Section run_facts.
Implicit Types (s : State) (self n : nat) (p : PageObj) (c : bool) (w : World).

Lemma close_Fail syntax self s f :
  valid_syntax syntax → world_ok (world s) → self ∈ tabs (world s) →
  close syntax self s = Fail f → f = NoAnswer.
Proof.
  intros Hv [Hnd Hok] Hin Hclose. unfold close in Hclose.
  destruct (Hok self Hin) as [_ [p Hp]].
  apply bind_Fail in Hclose as [Hf|(p0 & s0 & Hget & Hclose)].
  { apply the_page_Fail in Hf as [_ Hnone]. by rewrite Hnone in Hp. }
  apply the_page_Ret in Hget as [-> Hp0]. rewrite Hp in Hp0. injection Hp0 as <-.
  apply bind_Fail in Hclose as [Hf|(cancelled & s1 & Hask & Hclose)].
  { case_bool_decide; [|done].
    apply bind_Fail in Hf as [Hf|(res & s0 & Hres & Hf)].
    - by apply askyesnocancel_Fail in Hf.
    - apply askyesnocancel_Ret in Hres as (_ & Hw & _).
      destruct res as [[]|]; [|done|done].
      eapply save_Fail in Hf; [done|lia|]. by rewrite Hw, Hp. }
  apply (close_asked _ _ _ _ _ Hp) in Hask as ((Htabs & _) & _).
  destruct cancelled; [done|].
  apply bind_Fail in Hclose as [Hf|(u & s2 & Hforget & Hclose)].
  { apply forget_Fail in Hf as [_ Hnot]. by rewrite Htabs in Hnot. }
  apply bind_Fail in Hclose as [Hf|(w & s3 & Hw & Hclose)]; [done|].
  injection Hw as <- <-.
  destruct (length (tabs (world s2)) =? 0); [|done].
  apply bind_Fail in Hclose as [Hf|(m & s4 & Hnewp & Hf)]; [|done].
  destruct (new_page_Ret syntax None (text "Untitled") None s2 Hv) as (t & Hnew & _).
  by rewrite Hnew in Hf.
Qed.

Lemma run_spec self s p u s' :
  pages (world s) !! self = Some p →
  run self s = Ret u s' →
  only_page self (world s) (world s')
  ∧ (world s' = world s ∧ trace s' = trace s
     ∨ ∃ p' path new,
         pages (world s') !! self = Some p'
         ∧ page_text p' = page_text p
         ∧ page_path p' = Some path ∧ unmodified p'
         ∧ trace s' = trace s ++ new ++ [System (run_command path)]
         ∧ writes_only (contents (page_text p)) new
         ∧ (new = [] ∧ p' = p
            ∨ last new = Some (WriteFile path (contents (page_text p))))).
Proof.
  intros Hp Hrun. unfold run in Hrun.
  apply bind_Ret in Hrun as (p0 & s0 & Hget & Hrun).
  apply the_page_Ret in Hget as [-> Hp0]. rewrite Hp in Hp0. injection Hp0 as <-.
  apply bind_Ret in Hrun as (go & s1 & Hgo & Hrun).
  destruct (bool_decide (contents (page_text p) ≠ page_saved p)
            || bool_decide (page_path p = None)) eqn:Hcond.
  - apply bind_Ret in Hgo as (res & s0 & Hres & Hgo).
    apply askyesno_Ret in Hres as (Hsc & Hw & Ht).
    destruct res.
    + apply bind_Ret in Hgo as (cancelled & s2 & Hsave & Hgo).
      injection Hgo as <- <-. rewrite <- Hw in Hp. unfold save_page in Hsave.
      apply (save_spec _ _ _ _ _ _ _ Hp) in Hsave
        as (Honly & _ & p' & new & Hp' & Hnew & Htext & Hwr & Htrue & Hfalse).
      rewrite Hw in Honly. rewrite Ht in Hnew. destruct cancelled; cbn [negb] in Hrun.
      * injection Hrun as _ <-. split; [done|]. left.
        destruct Htrue as (-> & ->); [done|]. rewrite app_nil_r in Hnew.
        split; [|done].
        apply (only_page_same self); [done|]. by rewrite Hp', <- Hw, Hp.
      * apply bind_Ret in Hrun as (p0 & s0' & Hget & Hrun).
        apply the_page_Ret in Hget as [-> Hp0]. rewrite Hp' in Hp0.
        injection Hp0 as <-.
        destruct Hfalse as [(path & Hpath & Hun & Hlast & _)|[Hnone _]]; [done| |].
        -- rewrite Hpath in Hrun. apply act_Ret in Hrun as ->.
           cbn [world trace]. split; [done|]. right. exists p', path, new.
           rewrite Hnew, <- app_assoc. split_and!; try done. by right.
        -- by rewrite Hnone in Hrun.
    + injection Hgo as <- <-. injection Hrun as _ <-. rewrite Hw.
      split; [apply only_page_refl|]. by left.
  - injection Hgo as <- <-.
    apply bind_Ret in Hrun as (p0 & s0' & Hget & Hrun).
    apply the_page_Ret in Hget as [-> Hp0]. rewrite Hp in Hp0. injection Hp0 as <-.
    apply orb_false_iff in Hcond as [Hmod Hnone].
    apply bool_decide_eq_false in Hmod, Hnone.
    destruct (page_path p) as [path|] eqn:Hpath; [|done].
    apply act_Ret in Hrun as ->. cbn [world trace].
    split; [apply only_page_refl|]. right. exists p, path, [].
    split_and!; try done.
    + unfold unmodified. by destruct (decide (contents (page_text p) = page_saved p)).
    + apply writes_only_nil.
    + by left.
Qed.

End run_facts.

Section exit_facts.
Implicit Types (s : State) (self n : nat) (p : PageObj) (c : bool) (w : World).

Lemma tabs_without_head n l : tabs_without n (n :: l) = l.
Proof.
  unfold tabs_without. cbn [tabs_before tabs_after].
  by destruct (decide (n = n)).
Qed.

Lemma writes_only_no_destroy content new : writes_only content new → Destroy ∉ new.
Proof. intros Hwr Hin. by destruct (Hwr _ Hin) as [?|[? ?]]. Qed.

Lemma exit_loop_spec syntax names :
  ∀ s u s',
    valid_syntax syntax → world_ok (world s) → tabs (world s) = names →
    exit_loop syntax names s = Ret u s' →
    ∃ new, trace s' = trace s ++ new
      ∧ ((Destroy ∉ new) ∧ tabs (world s') ≠ []
         ∧ (∃ closed, names = closed ++ tabs (world s'))
         ∨ ∃ new0, new = new0 ++ [Destroy] ∧ (Destroy ∉ new0)
             ∧ (names = [] ∧ world s' = world s
                ∨ ∃ m q, tabs (world s') = [m] ∧ fresh (world s) ≤ m
                         ∧ pages (world s') !! m = Some q ∧ blank_page q)).
Proof.
  induction names as [|n names IH]; intros s u s' Hv Hok Htabs Hexit;
    cbn [exit_loop] in Hexit.
  - apply act_Ret in Hexit as ->. exists [Destroy]. split; [done|]. right.
    exists []. split; [done|]. split; [by intros ?%elem_of_nil|]. by left.
  - apply bind_Ret in Hexit as (cancelled & s1 & Hclose & Hexit).
    assert (n ∈ tabs (world s)) as Hin by (rewrite Htabs; by left).
    destruct (proj2 Hok n Hin) as [Hlt [p Hp]].
    destruct (close_spec _ _ _ _ _ _ Hv Hok Hin Hp Hclose)
      as (Hok1 & (new1 & Hnew1 & Hwr1) & Htrue & _ & Hfalse).
    apply writes_only_no_destroy in Hwr1.
    destruct cancelled.
    + injection Hexit as _ <-. destruct (Htrue eq_refl) as [Hw Ht].
      exists new1. split; [done|]. left. rewrite Hw, Htabs.
      split_and!; [done|done|]. by exists [].
    + destruct (Hfalse eq_refl) as [_ Hcase]. rewrite Htabs, tabs_without_head in Hcase.
      destruct Hcase as [(Hne & Htabs1 & Hfresh1)|(-> & Htabs1 & Hfresh1 & q & Hq & Hblank)].
      * destruct (IH s1 u s' Hv Hok1 Htabs1 Hexit) as (new & Hnew & Hcase).
        exists (new1 ++ new). split; [by rewrite Hnew, Hnew1, app_assoc|].
        destruct Hcase as [(Hnd & Hne' & closed & Hclosed)
                          |(new0 & -> & Hnd & [[-> _]|(m & q & Hm & Hle & Hq & Hb)])];
          [| |].
        -- left. split_and!; [|done|].
           ++ by intros [?|?]%elem_of_app.
           ++ exists (n :: closed). by rewrite Hclosed at 1.
        -- done.
        -- right. exists (new1 ++ new0). split_and!; [by rewrite app_assoc| |].
           ++ by intros [?|?]%elem_of_app.
           ++ right. exists m, q. split_and!; [done|lia|done|done].
      * cbn [exit_loop] in Hexit. apply act_Ret in Hexit as ->.
        cbn [world trace]. exists (new1 ++ [Destroy]).
        split; [by rewrite Hnew1, app_assoc|]. right. exists new1.
        split_and!; [done|done|]. right. exists (fresh (world s)), q.
        split_and!; [done|done|done|done].
Qed.

Lemma exit_loop_Fail syntax names :
  ∀ s f,
    valid_syntax syntax → world_ok (world s) → tabs (world s) = names →
    exit_loop syntax names s = Fail f → f = NoAnswer.
Proof.
  induction names as [|n names IH]; intros s f Hv Hok Htabs Hexit;
    cbn [exit_loop] in Hexit; [done|].
  assert (n ∈ tabs (world s)) as Hin by (rewrite Htabs; by left).
  destruct (proj2 Hok n Hin) as [Hlt [p Hp]].
  apply bind_Fail in Hexit as [Hf|(cancelled & s1 & Hclose & Hexit)].
  { by apply close_Fail in Hf. }
  destruct (close_spec _ _ _ _ _ _ Hv Hok Hin Hp Hclose)
    as (Hok1 & _ & _ & _ & Hfalse).
  destruct cancelled; [done|].
  destruct (Hfalse eq_refl) as [_ Hcase]. rewrite Htabs, tabs_without_head in Hcase.
  destruct Hcase as [(Hne & Htabs1 & Hfresh1)|(-> & _)].
  - by apply (IH s1 f Hv Hok1 Htabs1).
  - done.
Qed.

End exit_facts.

Section steps.
Context {A B : Type}.
Implicit Types (s : State) (self n : nat) (p : PageObj) (c : bool) (w : World).

Lemma bind_step (m : M A) (f : A → M B) s a s1 :
  m s = Ret a s1 → (m ≫= f) s = f a s1.
Proof. unfold mbind, M_bind. by intros ->. Qed.

End steps.

Section scenarios.
Implicit Types (s : State) (self n : nat) (p : PageObj) (c : bool) (w : World).

Lemma write_file_step path content s r rest :
  script s = Written r :: rest →
  write_file (Some path) content s
  = Ret r (mkState (world s) rest (trace s ++ [WriteFile path content])).
Proof.
  intros Hsc. unfold write_file, act, answer, mbind, M_bind. cbn. by rewrite Hsc.
Qed.

Lemma asksaveasfilename_step s path rest :
  script s = SaveAsName path :: rest →
  asksaveasfilename s = Ret path (mkState (world s) rest (trace s)).
Proof.
  intros Hsc. unfold asksaveasfilename, answer, mbind, M_bind. by rewrite Hsc.
Qed.

Lemma askyesno_step s r rest :
  script s = YesNo r :: rest →
  askyesno s = Ret r (mkState (world s) rest (trace s)).
Proof. intros Hsc. unfold askyesno, answer, mbind, M_bind. by rewrite Hsc. Qed.

Lemma askyesnocancel_step s r rest :
  script s = YesNoCancel r :: rest →
  askyesnocancel s = Ret r (mkState (world s) rest (trace s)).
Proof.
  intros Hsc. unfold askyesnocancel, answer, mbind, M_bind. by rewrite Hsc.
Qed.

Lemma run_Fail self s p f :
  pages (world s) !! self = Some p →
  run self s = Fail f → f = NoAnswer ∨ f = TypeError.
Proof.
  intros Hp Hrun. unfold run in Hrun.
  apply bind_Fail in Hrun as [Hf|(p0 & s0 & Hget & Hrun)].
  { apply the_page_Fail in Hf as [_ Hnone]. by rewrite Hnone in Hp. }
  apply the_page_Ret in Hget as [-> _].
  apply bind_Fail in Hrun as [Hf|(go & s1 & Hgo & Hrun)].
  { destruct (_ || _); [|done].
    apply bind_Fail in Hf as [Hf|(res & s0 & Hres & Hf)].
    - apply askyesno_Fail in Hf. by left.
    - apply askyesno_Ret in Hres as (_ & Hw & _). destruct res; [|done].
      apply bind_Fail in Hf as [Hf|(cancelled & s2 & Hsave & Hf)]; [|done].
      eapply save_Fail in Hf; [by left|lia|]. by rewrite Hw, Hp. }
  destruct go; [|done].
  apply bind_Fail in Hrun as [Hf|(p1 & s2 & Hget & Hrun)].
  - apply the_page_Fail in Hf as [_ Hnone]. exfalso.
    destruct (_ || _).
    + apply bind_Ret in Hgo as (res & s0 & Hres & Hgo).
      apply askyesno_Ret in Hres as (_ & Hw & _). destruct res; [|done].
      apply bind_Ret in Hgo as (cancelled & s2 & Hsave & Hgo).
      injection Hgo as _ <-. rewrite <- Hw in Hp. unfold save_page in Hsave.
      apply (save_spec _ _ _ _ _ _ _ Hp) in Hsave as (_ & _ & p' & new & Hp' & _).
      by rewrite Hnone in Hp'.
    + injection Hgo as <-. by rewrite Hnone in Hp.
  - destruct (page_path p1); [done|]. injection Hrun as <-. by right.
Qed.

Lemma save_S fuel self saveAs :
  save (S fuel) self saveAs
  = (p ← the_page self;
     cancelled ←
       (if bool_decide (page_path p = None) || saveAs then
          path ← asksaveasfilename;
          if decide (path = []) then mret true
          else
            _ ← set_page self
                  (mkPage (page_text p) (Some path) (page_saved p) (basename path));
            mret false
        else mret false);
     if cancelled : bool then mret true
     else
       p ← the_page self;
       r ← write_file (page_path p) (contents (page_text p));
       match r with
       | Wrote =>
           _ ← set_page self
                 (mkPage (page_text p) (page_path p)
                    (contents (page_text p)) (tab_title p));
           mret false
       | WriteError =>
           _ ← act ShowError;
           _ ← set_page self
                 (mkPage (page_text p) None (page_saved p) (tab_title p));
           _ ← save fuel self false;
           mret false
       | CloseError =>
           _ ← set_page self
                 (mkPage (page_text p) (page_path p)
                    (contents (page_text p)) (tab_title p));
           _ ← act ShowError;
           _ ← set_page self
                 (mkPage (page_text p) None (contents (page_text p))
                    (tab_title p));
           _ ← save fuel self false;
           mret false
       end).
Proof. done. Qed.

(** A write that fails, then a save dialogue that is closed. *)
Lemma save_failed_then_cancelled self s p path rest :
  pages (world s) !! self = Some p → page_path p = Some path →
  script s = Written WriteError :: SaveAsName [] :: rest →
  save_page self false s
  = Ret false
      (mkState
         (mkWorld
            (<[self := mkPage (page_text p) None (page_saved p) (tab_title p)]>
               (pages (world s)))
            (tabs (world s)) (selected (world s)) (fresh (world s)))
         rest
         (trace s ++ [WriteFile path (contents (page_text p)); ShowError])).
Proof.
  intros Hp Hpath Hsc. unfold save_page. rewrite Hsc. cbn [length].
  rewrite save_S.
  rewrite (bind_step _ _ _ _ _ (the_page_Some _ _ _ Hp)).
  rewrite Hpath. rewrite bool_decide_eq_false_2 by done. cbn [orb].
  erewrite bind_step by reflexivity. cbv beta iota.
  rewrite (bind_step _ _ _ _ _ (the_page_Some _ _ _ Hp)).
  rewrite Hpath.
  rewrite (bind_step _ _ _ _ _ (write_file_step _ _ _ _ _ Hsc)). cbv beta iota.
  erewrite bind_step by reflexivity. cbv beta iota.
  erewrite bind_step by reflexivity. cbv beta iota.
  erewrite (bind_step (save _ _ _)); [reflexivity|].
  rewrite save_S.
  erewrite bind_step; [|apply the_page_Some; cbn [world pages]; apply lookup_insert_eq].
  cbn [page_path]. rewrite bool_decide_eq_true_2 by done. cbn [orb].
  erewrite (bind_step (asksaveasfilename ≫= _));
    [|erewrite bind_step by (by apply asksaveasfilename_step);
      rewrite decide_True by done; reflexivity].
  cbn [world script trace]. by rewrite <- app_assoc.
Qed.

Lemma forget_step self s :
  self ∈ tabs (world s) →
  ∃ sel,
    forget self s
    = Ret () (mkState
                (mkWorld (pages (world s)) (tabs_without self (tabs (world s)))
                   sel (fresh (world s)))
                (script s) (trace s)).
Proof.
  intros Hin. unfold forget, get_world, put_world, mbind, M_bind.
  rewrite bool_decide_eq_true_2 by done. by eexists.
Qed.

Lemma close_failed_save syntax self s p path rest :
  valid_syntax syntax →
  pages (world s) !! self = Some p → page_path p = Some path →
  ¬ unmodified p → self ∈ tabs (world s) →
  script s = YesNoCancel (Some true) :: Written WriteError :: SaveAsName [] :: rest →
  ∃ s', close syntax self s = Ret false s'
        ∧ script s' = rest
        ∧ trace s'
          = trace s ++ [WriteFile path (contents (page_text p)); ShowError].
Proof.
  intros Hv Hp Hpath Hmod Hin Hsc. unfold close.
  rewrite (bind_step _ _ _ _ _ (the_page_Some _ _ _ Hp)).
  rewrite (bool_decide_eq_true_2 (contents (page_text p) ≠ page_saved p)) by done.
  erewrite (bind_step (askyesnocancel ≫= _)).
  2:{ erewrite bind_step by (by apply askyesnocancel_step). cbv beta iota.
      by apply (save_failed_then_cancelled _ _ p path rest). }
  cbv beta iota.
  set (s2 := mkState _ _ _).
  destruct (forget_step self s2 Hin) as [sel Hforget].
  rewrite (bind_step _ _ _ _ _ Hforget).
  set (s3 := mkState _ _ _).
  erewrite bind_step by reflexivity.
  destruct (length (tabs (world s3)) =? 0).
  - destruct (new_page_Ret syntax None (text "Untitled") None s3 Hv)
      as (t & Hnew & _).
    rewrite (bind_step _ _ _ _ _ Hnew). by eexists.
  - by eexists.
Qed.

End scenarios.

Section open_facts.
Implicit Types (s : State) (self n : nat) (p : PageObj) (w : World).

Lemma read_file_Ret s r s1 :
  read_file s = Ret r s1 →
  script s = FileRead r :: script s1 ∧ world s1 = world s ∧ trace s1 = trace s.
Proof.
  unfold read_file. intros (a & s' & Ha & Hk)%bind_Ret.
  apply answer_Ret in Ha as (Hs & Hw & Ht).
  destruct a; try done. injection Hk as <- <-. by rewrite Hs.
Qed.

Lemma read_file_Fail s f : read_file s = Fail f → f = NoAnswer.
Proof.
  unfold read_file, answer, mbind, M_bind.
  destruct (script s) as [|[] rest]; cbn; by intros [= <-].
Qed.

Lemma find_open_Ret path names :
  ∀ s found s1,
    find_open path names s = Ret found s1 →
    s1 = s
    ∧ match found with
      | Some n =>
          ∃ before after p,
            names = before ++ n :: after ∧ pages (world s) !! n = Some p
            ∧ page_path p = Some path ∧ not_open path before (world s)
      | None => not_open path names (world s)
      end.
Proof.
  induction names as [|m names IH]; intros s found s1 Hfind; cbn [find_open] in Hfind.
  - injection Hfind as <- <-. split; [done|]. by intros k q ?%elem_of_nil.
  - apply bind_Ret in Hfind as (p & s0 & Hget & Hfind).
    apply the_page_Ret in Hget as [-> Hp].
    destruct (decide (page_path p = Some path)) as [Hpath|Hpath].
    + injection Hfind as <- <-. split; [done|]. exists [], names, p.
      split_and!; [done|done|done|]. by intros k q ?%elem_of_nil.
    + apply IH in Hfind as [-> Hfound]. split; [done|].
      destruct found as [n|].
      * destruct Hfound as (before & after & q & -> & Hq & Hqp & Hbefore).
        exists (m :: before), after, q. split_and!; [done|done|done|].
        intros k r [->|Hk]%elem_of_cons Hr; [congruence|by eapply Hbefore].
      * intros k r [->|Hk]%elem_of_cons Hr; [congruence|by eapply Hfound].
Qed.

Lemma find_open_Fail path names :
  ∀ s f,
    (∀ n, n ∈ names → is_Some (pages (world s) !! n)) →
    find_open path names s = Fail f → False.
Proof.
  induction names as [|m names IH]; intros s f Hall Hfind;
    cbn [find_open] in Hfind; [done|].
  apply bind_Fail in Hfind as [Hf|(p & s0 & Hget & Hfind)].
  - apply the_page_Fail in Hf as [_ Hnone].
    destruct (Hall m) as [q Hq]; [by left|]. by rewrite Hnone in Hq.
  - apply the_page_Ret in Hget as [-> _].
    destruct (decide (page_path p = Some path)) as [?|Hne]; [done|].
    eapply IH; [|exact Hfind]. intros k Hk. apply Hall. by right.
Qed.

Lemma forget_selected self s u s1 :
  forget self s = Ret u s1 → selected (world s) ≠ Some self →
  selected (world s1) = selected (world s).
Proof.
  unfold forget, get_world, put_world, mbind, M_bind.
  case_bool_decide; [|done]. intros [= _ <-] Hsel. cbn.
  by rewrite decide_False.
Qed.

Lemma whole_text_empty (t : Tk.Text) :
  Tk.get t 0 (Tk.end_index t) = [newline] ↔ Tk.chars t = [].
Proof.
  unfold Tk.get, Tk.end_index. rewrite Nat.sub_0_r, drop_0, firstn_all.
  unfold Tk.content. split; [|by intros ->].
  destruct (Tk.chars t) as [|c [|c' cs]]; [done| |]; intros [= ]; done.
Qed.

Lemma openFile_spec syntax path s u s' :
  valid_syntax syntax → world_ok (world s) →
  openFile syntax path s = Ret u s' →
  (∃ before n after p,
     tabs (world s) = before ++ n :: after
     ∧ pages (world s) !! n = Some p ∧ page_path p = Some path
     ∧ not_open path before (world s)
     ∧ s' = mkState (mkWorld (pages (world s)) (tabs (world s)) (Some n)
                       (fresh (world s)))
              (script s) (trace s))
  ∨ not_open path (tabs (world s)) (world s)
    ∧ ((∃ r, script s = FileRead r :: script s'
             ∧ (r = DecodeError ∨ r = OpenError)
             ∧ world s' = world s ∧ trace s' = trace s ++ [ShowError])
       ∨ ∃ cont q,
           script s = FileRead (Content cont) :: script s'
           ∧ trace s' = trace s
           ∧ pages (world s') !! fresh (world s) = Some q
           ∧ contents (page_text q) = until_nul cont ∧ page_saved q = cont
           ∧ page_path q = Some path ∧ tab_title q = basename path
           ∧ selected (world s') = Some (fresh (world s))
           ∧ fresh (world s') = S (fresh (world s))
           ∧ (∀ n, n ≠ fresh (world s) →
                   pages (world s') !! n = pages (world s) !! n)
           ∧ match tabs (world s) with
             | first :: rest =>
                 ∃ p0, pages (world s) !! first = Some p0
                       ∧ tabs (world s')
                         = (if decide (placeholder p0) then rest
                            else first :: rest) ++ [fresh (world s)]
             | [] => tabs (world s') = [fresh (world s)]
             end).
Proof.
  intros Hv [Hnd Hok] Hopen. unfold openFile in Hopen.
  apply bind_Ret in Hopen as (w & s0 & Hw & Hopen). injection Hw as <- <-.
  apply bind_Ret in Hopen as (found & s0 & Hfind & Hopen).
  apply find_open_Ret in Hfind as [-> Hfound].
  destruct found as [n|].
  { left. destruct Hfound as (before & after & p & Htabs & Hp & Hpath & Hnot).
    exists before, n, after, p. split_and!; try done.
    unfold select, get_world, put_world, mbind, M_bind in Hopen.
    by injection Hopen as _ <-. }
  right. split; [done|].
  apply bind_Ret in Hopen as (r & s1 & Hread & Hopen).
  apply read_file_Ret in Hread as (Hsc & Hw1 & Ht1).
  destruct r as [cont| |].
  2,3: apply act_Ret in Hopen as ->; left; eexists; cbn [script world trace];
    rewrite Ht1; split_and!; [done|by (left + right)|done|done].
  right.
  apply bind_Ret in Hopen as (self & s2 & Hnew & Hopen).
  destruct (new_page_Ret syntax (Some cont) (basename path) (Some path) s1 Hv)
    as (t & Hnew' & Hct & Hwft).
  rewrite Hnew' in Hnew. injection Hnew as <- <-.
  apply bind_Ret in Hopen as (w & s3 & Hw & Hopen). injection Hw as <- <-.
  cbn [world tabs] in Hopen. rewrite Hw1 in Hopen. cbn [default] in Hct.
  set (self := fresh (world s)) in *.
  set (q := mkPage t (Some path) (default [] (Some cont)) (basename path)) in *.
  exists cont, q.
  assert (contents (page_text q) = until_nul cont) as Hq
    by (by rewrite contents_chars).
  destruct (tabs (world s)) as [|first rest] eqn:Htabs; cbn [app] in Hopen.
  - apply bind_Ret in Hopen as (p0 & s0 & Hget & Hopen).
    apply the_page_Ret in Hget as [-> Hp0]. cbn [world pages] in Hp0.
    rewrite lookup_insert_eq in Hp0. injection Hp0 as <-.
    cbn [page_path q] in Hopen.
    rewrite (bool_decide_eq_false_2 (Some path = None)), andb_false_r in Hopen by done.
    injection Hopen as _ <-. cbn [script trace world pages tabs selected fresh].
    rewrite lookup_insert_eq.
    split_and!; try done. intros n Hn. by rewrite lookup_insert_ne.
  - destruct (Hok first) as [Hlt [p0 Hp0]]; [by left|].
    apply bind_Ret in Hopen as (p0' & s0 & Hget & Hopen).
    apply the_page_Ret in Hget as [-> Hp0']. cbn [world pages] in Hp0'.
    rewrite lookup_insert_ne in Hp0' by (subst self; lia).
    rewrite Hp0 in Hp0'. injection Hp0' as <-.
    destruct (bool_decide _ && bool_decide _) eqn:Hcond.
    + apply andb_true_iff in Hcond as [Hempty Hnone].
      apply bool_decide_eq_true in Hempty, Hnone.
      apply whole_text_empty in Hempty.
      pose proof (forget_selected _ _ _ _ Hopen) as Hsel.
      apply forget_Ret in Hopen as (_ & Htabs' & Hpages' & Hfresh' & Hsc' & Ht').
      cbn [world tabs pages fresh script trace selected] in *.
      rewrite Hsel, Htabs', Hpages', Hfresh', Hsc', Ht', lookup_insert_eq
        by (intros [= ?]; subst self; lia).
      split_and!; try done.
      * intros n Hn. by rewrite lookup_insert_ne.
      * exists p0. split; [done|]. rewrite decide_True by done.
        pose proof (tabs_without_head first (rest ++ [self])) as Hhead.
        unfold tabs_without in Hhead. by rewrite Hhead.
    + injection Hopen as _ <-. cbn [script trace world pages tabs selected fresh].
      rewrite lookup_insert_eq. split_and!; try done.
      * intros n Hn. by rewrite lookup_insert_ne.
      * exists p0. split; [done|]. rewrite decide_False; [done|].
        intros [Hempty Hnone]. apply andb_false_iff in Hcond as [Hc|Hc];
          apply bool_decide_eq_false in Hc; [|done].
        by apply Hc, whole_text_empty.
Qed.

Lemma openFile_Fail syntax path s f :
  valid_syntax syntax → world_ok (world s) →
  openFile syntax path s = Fail f → f = NoAnswer.
Proof.
  intros Hv [Hnd Hok] Hopen. unfold openFile in Hopen.
  apply bind_Fail in Hopen as [Hf|(w & s0 & Hw & Hopen)]; [done|].
  injection Hw as <- <-.
  apply bind_Fail in Hopen as [Hf|(found & s0 & Hfind & Hopen)].
  { exfalso. eapply find_open_Fail; [|exact Hf]. intros n Hn. by apply Hok. }
  apply find_open_Ret in Hfind as [-> Hfound].
  destruct found as [n|]; [done|].
  apply bind_Fail in Hopen as [Hf|(r & s1 & Hread & Hopen)].
  { by apply read_file_Fail in Hf. }
  apply read_file_Ret in Hread as (Hsc & Hw1 & Ht1).
  destruct r as [cont| |]; [|done|done].
  destruct (new_page_Ret syntax (Some cont) (basename path) (Some path) s1 Hv)
    as (t & Hnew' & Hct & Hwft).
  apply bind_Fail in Hopen as [Hf|(self & s2 & Hnew & Hopen)];
    [by rewrite Hnew' in Hf|].
  rewrite Hnew' in Hnew. injection Hnew as <- <-.
  apply bind_Fail in Hopen as [Hf|(w & s3 & Hw & Hopen)]; [done|].
  injection Hw as <- <-. cbn [world tabs] in Hopen. rewrite Hw1 in Hopen.
  destruct (tabs (world s)) as [|first rest] eqn:Htabs; cbn [app] in Hopen.
  - exfalso. apply bind_Fail in Hopen as [Hf|(p0 & s0 & Hget & Hopen)].
    + apply the_page_Fail in Hf as [_ Hnone]. cbn [world pages] in Hnone.
      by rewrite lookup_insert_eq in Hnone.
    + apply the_page_Ret in Hget as [-> Hp0]. cbn [world pages] in Hp0.
      rewrite lookup_insert_eq in Hp0. injection Hp0 as <-.
      cbn [page_path] in Hopen.
      by rewrite (bool_decide_eq_false_2 (Some path = None)), andb_false_r in Hopen.
  - exfalso. destruct (Hok first) as [Hlt [p0 Hp0]]; [by left|].
    apply bind_Fail in Hopen as [Hf|(p0' & s0 & Hget & Hopen)].
    + apply the_page_Fail in Hf as [_ Hnone]. cbn [world pages] in Hnone.
      rewrite lookup_insert_ne in Hnone by lia. by rewrite Hnone in Hp0.
    + apply the_page_Ret in Hget as [-> _].
      destruct (_ && _); [|done].
      apply forget_Fail in Hopen as [_ Hnot]. apply Hnot. cbn [world tabs]. by left.
Qed.

End open_facts.

(** * Voice commands *)

Import Speech SpeechSpec.

Section replace_facts.
Implicit Types (old new pat s u : list ascii) (c x : ascii).

Lemma starts_with_prefix pat s : starts_with pat s = true ↔ pat `prefix_of` s.
Proof.
  revert s. induction pat as [|p pat IH]; intros s; cbn [starts_with].
  - split; [intros _; apply prefix_nil|done].
  - destruct s as [|c s].
    + split; [done|]. by intros ?%prefix_nil_not.
    + case_decide as Hpc.
      * subst c. rewrite IH. split; [apply prefix_cons|apply prefix_cons_inv_2].
      * split; [done|]. by intros ?%prefix_cons_inv_1.
Qed.

Lemma replace_from_drop old new k s :
  replace_from old new k s = replace old new (drop k s).
Proof.
  revert k. induction s as [|c s IH]; intros k; [by destruct k|].
  destruct k as [|k]; [done|]. cbn [replace_from drop]. apply IH.
Qed.

Lemma replace_cons old new c s :
  replace old new (c :: s)
  = if starts_with old (c :: s)
    then new ++ replace old new (drop (length old - 1) s)
    else c :: replace old new s.
Proof.
  unfold replace at 1. cbn [replace_from].
  destruct (starts_with old (c :: s)); [|done]. by rewrite replace_from_drop.
Qed.

Lemma substring_cons pat c s :
  substring pat (c :: s) ↔ pat `prefix_of` (c :: s) ∨ substring pat s.
Proof.
  split.
  - intros ([|d pre] & post & Hs).
    + left. exists post. by rewrite Hs.
    + right. injection Hs as -> ->. by exists pre, post.
  - intros [[post ->]|(pre & post & ->)].
    + by exists [], post.
    + by exists (c :: pre), post.
Qed.

Lemma substring_nil pat : substring pat [] → pat = [].
Proof.
  intros (pre & post & Hs). symmetry in Hs.
  apply app_eq_nil in Hs as [_ Hs]. by apply app_eq_nil in Hs as [-> _].
Qed.

Lemma substring_drop pat k s : substring pat (drop k s) → substring pat s.
Proof.
  intros (pre & post & Hs). exists (take k s ++ pre), post.
  by rewrite <- app_assoc, <- Hs, take_drop.
Qed.

Lemma substring_app_r pat u s : substring pat s → substring pat (u ++ s).
Proof.
  intros (pre & post & ->). exists (u ++ pre), post. by rewrite <- app_assoc.
Qed.

(** Up to the first sign it puts in, the result of a replacement is the
    text it was given. *)
Lemma replace_prefix old x u :
  x ∉ u → ∀ s, u `prefix_of` replace old [x] s → u `prefix_of` s.
Proof.
  intros Hx s. revert u Hx. induction s as [|c s IH]; intros u Hx; [done|].
  rewrite replace_cons. destruct (starts_with old (c :: s)).
  - cbn [app]. destruct u as [|d u]; [intros _; apply prefix_nil|].
    intros ->%prefix_cons_inv_1. destruct Hx. by left.
  - destruct u as [|d u]; [intros _; apply prefix_nil|].
    intros Hpre. pose proof (prefix_cons_inv_1 _ _ _ _ Hpre) as ->.
    apply prefix_cons, IH; [|by eapply prefix_cons_inv_2].
    intros ?. apply Hx. by right.
Qed.

Lemma replace_length_ind (P : list ascii → Prop) :
  (∀ s, (∀ s', length s' < length s → P s') → P s) → ∀ s, P s.
Proof.
  intros Hstep s. remember (length s) as n eqn:Hn. revert s Hn.
  induction (lt_wf n) as [n _ IH]. intros s ->. apply Hstep.
  intros s' Hlt. by eapply IH.
Qed.

(** No occurrence of the phrase is left. *)
Lemma replace_removes old x s :
  old ≠ [] → x ∉ old → ¬ substring old (replace old [x] s).
Proof.
  intros Hold Hx. induction s as [s IH] using replace_length_ind.
  destruct s as [|c s]; [by intros ?%substring_nil|].
  rewrite replace_cons. destruct (starts_with old (c :: s)) eqn:Hstart.
  - cbn [app]. intros [Hpre|Hsub]%substring_cons.
    + destruct old as [|d old]; [done|].
      apply prefix_cons_inv_1 in Hpre as ->. destruct Hx. by left.
    + revert Hsub. apply IH. cbn. rewrite length_drop. lia.
  - intros Hsub.
    assert (substring old (replace old [x] (c :: s))) as Hsub'.
    { by rewrite replace_cons, Hstart. }
    rewrite replace_cons, Hstart in Hsub'.
    apply substring_cons in Hsub' as [Hpre|Hsub'].
    + assert (old `prefix_of` replace old [x] (c :: s)) as Hpre'.
      { by rewrite replace_cons, Hstart. }
      apply replace_prefix in Hpre'; [|done].
      apply starts_with_prefix in Hpre'. congruence.
    + revert Hsub'. apply IH. cbn. lia.
Qed.

(** A replacement by a sign that is not in [pat] makes no new occurrence of
    [pat]. *)
Lemma replace_no_new old x pat s :
  x ∉ pat → substring pat (replace old [x] s) → substring pat s.
Proof.
  intros Hx. induction s as [s IH] using replace_length_ind.
  destruct s as [|c s]; [done|].
  intros Hsub.
  assert (pat `prefix_of` replace old [x] (c :: s)
          ∨ substring pat
              (if starts_with old (c :: s)
               then replace old [x] (drop (length old - 1) s)
               else replace old [x] s)) as [Hpre|Hrest].
  { rewrite replace_cons in Hsub |- *.
    destruct (starts_with old (c :: s)); cbn [app] in *;
      by apply substring_cons in Hsub. }
  - apply replace_prefix in Hpre as [post ->]; [|done]. by exists [], post.
  - destruct (starts_with old (c :: s)).
    + apply IH in Hrest; [|cbn; rewrite length_drop; lia].
      apply substring_drop in Hrest. by apply (substring_app_r _ [c]).
    + apply IH in Hrest; [|cbn; lia]. by apply (substring_app_r _ [c]).
Qed.

Lemma contains_substring pat s : contains pat s = true ↔ substring pat s.
Proof.
  unfold contains, find. split.
  - destruct (find_from pat s 0) as [j|] eqn:Hfind; [intros _|done].
    apply find_from_Some in Hfind as (_ & _ & Hstart & _).
    apply starts_with_prefix in Hstart as [post Hpost].
    exists (take (j - 0) s), post. by rewrite <- Hpost, take_drop.
  - intros (pre & post & ->).
    destruct (find_from pat (pre ++ pat ++ post) 0) as [j|] eqn:Hfind; [done|].
    pose proof (proj1 (find_from_None _ _ _) Hfind (length pre)) as Hno.
    rewrite drop_app_length in Hno.
    assert (starts_with pat (pat ++ post) = true) as Hyes.
    { apply starts_with_prefix. by exists post. }
    rewrite Hno in Hyes; [done|]. rewrite length_app. lia.
Qed.

End replace_facts.

(** * What the editor does with pages *)

Import Examples.

Section examples_facts.
Implicit Types (p q : PageObj) (answers : list Answer).

Lemma one_tab_ok p answers : world_ok (world (one_tab p answers)).
Proof.
  split; cbn [one_tab world tabs fresh pages]; [apply NoDup_singleton|].
  intros n ->%list_elem_of_singleton. split; [lia|]. by exists p.
Qed.

Lemma two_tabs_ok p q answers : world_ok (world (two_tabs p q answers)).
Proof.
  split; cbn [two_tabs world tabs fresh pages].
  - by apply (bool_decide_unpack _).
  - intros n [->|[->|[]%elem_of_nil]%elem_of_cons]%elem_of_cons;
      (split; [lia|]); [by exists p|by exists q].
Qed.

End examples_facts.

(** X7. Saving a page, with or without the save dialogue, ends unless the
    answers run out. It touches no other page, no tab and not the text.
    It returns True only when the first dialogue is closed, and then nothing
    has changed and nothing was written. Otherwise the page keeps a path
    only if the last thing done was writing the whole text to that path, and
    then the page counts as saved and, when a dialogue gave the path, the
    tab is titled with the file name; or the page has no path and the last
    thing shown was the error box, a later dialogue having been closed.
    Everything written is the text of the page. *)
Theorem save_outcome (self : nat) (saveAs : bool) (s : State) (p : PageObj) :
  pages (world s) !! self = Some p →
  (∀ f, save_page self saveAs s = Fail f → f = NoAnswer)
  ∧ ∀ c s',
      save_page self saveAs s = Ret c s' →
      only_page self (world s) (world s')
      ∧ (c = true → script s = SaveAsName [] :: script s')
      ∧ ∃ p' new,
          pages (world s') !! self = Some p'
          ∧ trace s' = trace s ++ new ∧ save_post p c p' new.
Proof.
  intros Hp. split.
  - intros f Hf. unfold save_page in Hf.
    eapply save_Fail in Hf; [done|lia|]. by rewrite Hp.
  - intros c s' Hsave. unfold save_page in Hsave.
    by apply (save_spec _ _ _ _ _ _ _ Hp) in Hsave.
Qed.

Lemma save_outcome_witness :
  pages (world (one_tab draft
                  [SaveAsName (text "/home/a.py"); Written WriteError;
                   SaveAsName (text "b.py"); Written Wrote])) !! 0
  = Some draft
  ∧ ∃ s',
      save_page 0 false
        (one_tab draft
           [SaveAsName (text "/home/a.py"); Written WriteError;
            SaveAsName (text "b.py"); Written Wrote])
      = Ret false s'
      ∧ only_page 0
          (world (one_tab draft
                    [SaveAsName (text "/home/a.py"); Written WriteError;
                     SaveAsName (text "b.py"); Written Wrote]))
          (world s')
      ∧ (false = true →
         script (one_tab draft
                   [SaveAsName (text "/home/a.py"); Written WriteError;
                    SaveAsName (text "b.py"); Written Wrote])
         = SaveAsName [] :: script s')
      ∧ ∃ p' new,
          pages (world s') !! 0 = Some p'
          ∧ trace s'
            = trace (one_tab draft
                       [SaveAsName (text "/home/a.py"); Written WriteError;
                        SaveAsName (text "b.py"); Written Wrote]) ++ new
          ∧ save_post draft false p' new.
Proof.
  set (s := one_tab draft _).
  assert (pages (world s) !! 0 = Some draft) as Hp by reflexivity.
  split; [exact Hp|].
  assert (∃ s', save_page 0 false s = Ret false s') as [s' Hs']
    by (eexists; vm_compute; reflexivity).
  exists s'. split; [exact Hs'|].
  exact (proj2 (save_outcome 0 false s draft Hp) false s' Hs').
Defined.

(** X8. The title a tab gets from a path is the part of the path after its
    last slash: it holds no slash, and the path is this title behind a
    part that is empty or ends with a slash. *)
Theorem title_is_file_name (path : list ascii) :
  ("/"%char ∉ basename path)
  ∧ ∃ dir, path = dir ++ basename path
           ∧ (dir = [] ∨ last dir = Some "/"%char).
Proof.
  unfold basename. case_bool_decide as Hslash.
  - destruct (split_last "/" path) as (dir & Hpath & Hno & Hdir). split; [done|].
    by exists dir.
  - split; [done|]. exists []. split; [done|by left].
Qed.

(** X9. With a valid catalog, making a page always succeeds: the new page
    holds the given text up to its first NUL (nothing if no text is given)
    and keeps the whole given text as its saved text, so that it counts as
    saved exactly when the given text holds no NUL; it has the given path
    and title and only tags of its characters; it is the last tab and the
    selected one; no other page changes, nothing is asked and nothing is
    done to the outside. *)
Theorem page_created (syntax : Syntax) (cont : option (list ascii))
    (title : list ascii) (path : option (list ascii)) (s : State) :
  valid_syntax syntax →
  ∃ s' q,
    new_page syntax cont title path s = Ret (fresh (world s)) s'
    ∧ pages (world s') !! fresh (world s) = Some q
    ∧ contents (page_text q) = until_nul (default [] cont)
    ∧ page_saved q = default [] cont
    ∧ (unmodified q ↔ "000"%char ∉ default [] cont)
    ∧ page_path q = path ∧ tab_title q = title ∧ wf (page_text q)
    ∧ tabs (world s') = tabs (world s) ++ [fresh (world s)]
    ∧ selected (world s') = Some (fresh (world s))
    ∧ fresh (world s') = S (fresh (world s))
    ∧ (∀ n, n ≠ fresh (world s) →
            pages (world s') !! n = pages (world s) !! n)
    ∧ script s' = script s ∧ trace s' = trace s.
Proof.
  intros Hv.
  destruct (new_page_Ret syntax cont title path s Hv) as (t & Hnew & Hct & Hwf).
  eexists _, _. split; [exact Hnew|]. cbn [world pages tabs selected fresh script trace].
  rewrite lookup_insert_eq. split; [done|].
  unfold unmodified. cbn [page_text page_saved page_path tab_title].
  rewrite contents_chars, Hct. split_and!; try done.
  - apply until_nul_eq.
  - intros n Hn. by rewrite lookup_insert_ne.
Qed.

Lemma page_created_witness :
  valid_syntax spec_syntax
  ∧ ∃ s' q,
      new_page spec_syntax (Some (text "for x")) (text "b.py")
        (Some (text "/home/b.py")) (one_tab draft [])
      = Ret (fresh (world (one_tab draft []))) s'
      ∧ pages (world s') !! fresh (world (one_tab draft [])) = Some q
      ∧ contents (page_text q) = until_nul (default [] (Some (text "for x")))
      ∧ page_saved q = default [] (Some (text "for x"))
      ∧ (unmodified q ↔ "000"%char ∉ default [] (Some (text "for x")))
      ∧ page_path q = Some (text "/home/b.py") ∧ tab_title q = text "b.py"
      ∧ wf (page_text q)
      ∧ tabs (world s')
        = tabs (world (one_tab draft [])) ++ [fresh (world (one_tab draft []))]
      ∧ selected (world s') = Some (fresh (world (one_tab draft [])))
      ∧ fresh (world s') = S (fresh (world (one_tab draft [])))
      ∧ (∀ n, n ≠ fresh (world (one_tab draft [])) →
              pages (world s') !! n = pages (world (one_tab draft [])) !! n)
      ∧ script s' = script (one_tab draft [])
      ∧ trace s' = trace (one_tab draft []).
Proof.
  split; [exact spec_syntax_valid|].
  exact (page_created spec_syntax (Some (text "for x")) (text "b.py")
           (Some (text "/home/b.py")) (one_tab draft []) spec_syntax_valid).
Defined.

(** A text with a NUL: the widget holds what stands before it, the page
    keeps all of it as saved and counts as modified. *)
Lemma page_created_with_nul :
  ∃ s' q,
    new_page spec_syntax (Some ("a" :: "000" :: "b" :: nil)%char) (text "b.py")
      (Some (text "/home/b.py")) (one_tab draft [])
    = Ret 1 s'
    ∧ pages (world s') !! 1 = Some q
    ∧ contents (page_text q) = text "a"
    ∧ page_saved q = ("a" :: "000" :: "b" :: nil)%char
    ∧ ¬ unmodified q.
Proof.
  eexists _, _. split; [by vm_compute|]. split; [by vm_compute|].
  split; [by vm_compute|]. split; [by vm_compute|]. by intros [=].
Qed.

(** X10. Closing a tab of a sound notebook, with a valid catalog, ends
    unless the answers run out, and leaves a sound notebook; whatever it
    writes is the text of the page. When it returns True nothing in the
    notebook has changed. A page that counts as saved is closed without a
    question. When it returns None the tab is gone, no other page has
    changed, and either the other tabs stay in their order, or there was no
    other tab and the notebook holds one new empty untitled page. *)
Theorem close_outcome (syntax : Syntax) (self : nat) (s : State) (p : PageObj) :
  valid_syntax syntax → world_ok (world s) → self ∈ tabs (world s) →
  pages (world s) !! self = Some p →
  (∀ f, close syntax self s = Fail f → f = NoAnswer)
  ∧ ∀ c s',
      close syntax self s = Ret c s' →
      world_ok (world s')
      ∧ (∃ new, trace s' = trace s ++ new
                ∧ writes_only (contents (page_text p)) new)
      ∧ (c = true → world s' = world s ∧ trace s' = trace s)
      ∧ (unmodified p → c = false ∧ script s' = script s ∧ trace s' = trace s)
      ∧ (c = false →
         (self ∉ tabs (world s'))
         ∧ (∀ n, n ≠ self → n ≠ fresh (world s) →
                 pages (world s') !! n = pages (world s) !! n)
         ∧ (tabs_without self (tabs (world s)) ≠ []
            ∧ tabs (world s') = tabs_without self (tabs (world s))
            ∧ fresh (world s') = fresh (world s)
            ∨ tabs_without self (tabs (world s)) = []
              ∧ tabs (world s') = [fresh (world s)]
              ∧ fresh (world s') = S (fresh (world s))
              ∧ ∃ q, pages (world s') !! fresh (world s) = Some q
                     ∧ blank_page q)).
Proof.
  intros Hv Hok Hin Hp. split; [intros f; by apply close_Fail|].
  intros c s' Hclose.
  destruct (close_spec _ _ _ _ _ _ Hv Hok Hin Hp Hclose)
    as (Hok' & Hnew & Htrue & Hun & Hfalse).
  split_and!; [done|done|done|done|].
  intros Hc. destruct (Hfalse Hc) as [Hpages Hcase]. split_and!; [|done|done].
  destruct Hok as [Hnd Hlt].
  destruct Hcase as [(_ & -> & _)|(_ & -> & _)].
  - unfold tabs_without. rewrite elem_of_tabs_without by done. by intros [_ ?].
  - intros ->%list_elem_of_singleton. destruct (Hlt _ Hin) as [? _]. lia.
Qed.

Lemma close_outcome_witness :
  valid_syntax spec_syntax
  ∧ world_ok (world (two_tabs edited stored
                       [YesNoCancel (Some true); Written Wrote]))
  ∧ 0 ∈ tabs (world (two_tabs edited stored
                       [YesNoCancel (Some true); Written Wrote]))
  ∧ pages (world (two_tabs edited stored
                    [YesNoCancel (Some true); Written Wrote])) !! 0
    = Some edited
  ∧ ∃ s',
      close spec_syntax 0
        (two_tabs edited stored [YesNoCancel (Some true); Written Wrote])
      = Ret false s'
      ∧ tabs (world s') = [1]
      ∧ trace s' = [WriteFile (text "/home/a.py") (text "x = 2")]
      ∧ ∀ f, close spec_syntax 0
               (two_tabs edited stored [YesNoCancel (Some true); Written Wrote])
             = Fail f → f = NoAnswer.
Proof.
  set (s := two_tabs edited stored _).
  assert (0 ∈ tabs (world s)) as Hin by (by left).
  assert (pages (world s) !! 0 = Some edited) as Hp by reflexivity.
  split; [exact spec_syntax_valid|]. split; [apply two_tabs_ok|].
  split; [exact Hin|]. split; [exact Hp|].
  eexists. split; [vm_compute; reflexivity|].
  split; [reflexivity|]. split; [reflexivity|].
  exact (proj1 (close_outcome spec_syntax 0 s edited spec_syntax_valid
                  (two_tabs_ok _ _ _) Hin Hp)).
Defined.

(** X11. A page can be closed with its text lost: when the user agrees to
    save a changed page, the write fails and the save dialogue that follows
    is closed, [close] still removes the tab. The only things done are the
    failed write and the error box. *)
Theorem close_after_failed_save (syntax : Syntax) (self : nat) (s : State)
    (p : PageObj) (path : list ascii) (rest : list Answer) :
  valid_syntax syntax → world_ok (world s) → self ∈ tabs (world s) →
  pages (world s) !! self = Some p → page_path p = Some path →
  ¬ unmodified p →
  script s
  = YesNoCancel (Some true) :: Written WriteError :: SaveAsName [] :: rest →
  ∃ s', close syntax self s = Ret false s'
        ∧ (self ∉ tabs (world s'))
        ∧ script s' = rest
        ∧ trace s'
          = trace s ++ [WriteFile path (contents (page_text p)); ShowError].
Proof.
  intros Hv Hok Hin Hp Hpath Hmod Hsc.
  destruct (close_failed_save syntax self s p path rest Hv Hp Hpath Hmod Hin Hsc)
    as (s' & Hclose & Hsc' & Ht').
  exists s'. split_and!; [done| |done|done].
  destruct (close_spec _ _ _ _ _ _ Hv Hok Hin Hp Hclose) as (_ & _ & _ & _ & Hfalse).
  destruct (Hfalse eq_refl) as [_ Hcase]. destruct Hok as [Hnd Hlt].
  destruct Hcase as [(_ & -> & _)|(_ & -> & _)].
  - unfold tabs_without. rewrite elem_of_tabs_without by done. by intros [_ ?].
  - intros ->%list_elem_of_singleton. destruct (Hlt _ Hin) as [? _]. lia.
Qed.

Lemma close_after_failed_save_witness :
  valid_syntax spec_syntax
  ∧ world_ok (world (two_tabs edited stored
                       [YesNoCancel (Some true); Written WriteError;
                        SaveAsName []]))
  ∧ 0 ∈ tabs (world (two_tabs edited stored
                       [YesNoCancel (Some true); Written WriteError;
                        SaveAsName []]))
  ∧ pages (world (two_tabs edited stored
                    [YesNoCancel (Some true); Written WriteError;
                     SaveAsName []])) !! 0
    = Some edited
  ∧ page_path edited = Some (text "/home/a.py")
  ∧ ¬ unmodified edited
  ∧ ∃ s',
      close spec_syntax 0
        (two_tabs edited stored
           [YesNoCancel (Some true); Written WriteError; SaveAsName []])
      = Ret false s'
      ∧ (0 ∉ tabs (world s'))
      ∧ script s' = []
      ∧ trace s'
        = trace (two_tabs edited stored
                   [YesNoCancel (Some true); Written WriteError; SaveAsName []])
          ++ [WriteFile (text "/home/a.py") (contents (page_text edited));
              ShowError].
Proof.
  set (s := two_tabs edited stored _).
  assert (0 ∈ tabs (world s)) as Hin by (by left).
  assert (pages (world s) !! 0 = Some edited) as Hp by reflexivity.
  assert (¬ unmodified edited) as Hmod by (by intros [=]).
  split; [exact spec_syntax_valid|]. split; [apply two_tabs_ok|].
  split; [exact Hin|]. split; [exact Hp|]. split; [reflexivity|].
  split; [exact Hmod|].
  exact (close_after_failed_save spec_syntax 0 s edited (text "/home/a.py") []
           spec_syntax_valid (two_tabs_ok _ _ _) Hin Hp eq_refl Hmod eq_refl).
Defined.

(** X12. Running a page ends unless the answers run out or the page has no
    path to run. It touches no other page and no tab. When it returns,
    either nothing has changed and nothing was done, or the last thing done
    is the shell command on the path of the page, and then the page counts
    as saved and has that path: it was so from the start and nothing else
    was done, or the thing done just before the command was writing the
    whole text to that path. *)
Theorem run_outcome (self : nat) (s : State) (p : PageObj) :
  pages (world s) !! self = Some p →
  (∀ f, run self s = Fail f → f = NoAnswer ∨ f = TypeError)
  ∧ ∀ u s',
      run self s = Ret u s' →
      only_page self (world s) (world s')
      ∧ (world s' = world s ∧ trace s' = trace s
         ∨ ∃ p' path new,
             pages (world s') !! self = Some p'
             ∧ page_text p' = page_text p
             ∧ page_path p' = Some path ∧ unmodified p'
             ∧ trace s' = trace s ++ new ++ [System (run_command path)]
             ∧ writes_only (contents (page_text p)) new
             ∧ (new = [] ∧ p' = p
                ∨ last new = Some (WriteFile path (contents (page_text p))))).
Proof.
  intros Hp. split; [intros f; by apply (run_Fail _ _ p)|].
  intros u s'. by apply run_spec.
Qed.

Lemma run_outcome_witness :
  pages (world (one_tab edited [YesNo true; Written Wrote])) !! 0 = Some edited
  ∧ ∃ s',
      run 0 (one_tab edited [YesNo true; Written Wrote]) = Ret () s'
      ∧ trace s'
        = [WriteFile (text "/home/a.py") (text "x = 2");
           System (run_command (text "/home/a.py"))]
      ∧ only_page 0 (world (one_tab edited [YesNo true; Written Wrote]))
          (world s').
Proof.
  set (s := one_tab edited _).
  assert (pages (world s) !! 0 = Some edited) as Hp by reflexivity.
  split; [exact Hp|].
  assert (∃ s', run 0 s = Ret () s'
                ∧ trace s'
                  = [WriteFile (text "/home/a.py") (text "x = 2");
                     System (run_command (text "/home/a.py"))])
    as (s' & Hs' & Ht') by (eexists; split; vm_compute; reflexivity).
  exists s'. split; [exact Hs'|]. split; [exact Ht'|].
  exact (proj1 (proj2 (run_outcome 0 s edited Hp) () s' Hs')).
Defined.

(** X13. Running a page can end in a TypeError: when the user agrees to save
    a changed page, the write fails and the save dialogue that follows is
    closed, the page is left without a path and [run] goes on to build the
    shell command from it. *)
Theorem run_after_failed_save (self : nat) (s : State) (p : PageObj)
    (path : list ascii) (rest : list Answer) :
  pages (world s) !! self = Some p → page_path p = Some path →
  ¬ unmodified p →
  script s = YesNo true :: Written WriteError :: SaveAsName [] :: rest →
  run self s = Fail TypeError.
Proof.
  intros Hp Hpath Hmod Hsc. unfold run.
  rewrite (bind_step _ _ _ _ _ (the_page_Some _ _ _ Hp)).
  rewrite (bool_decide_eq_true_2 (contents (page_text p) ≠ page_saved p)) by done.
  cbn [orb].
  erewrite (bind_step (askyesno ≫= _)).
  2:{ erewrite bind_step by (by apply askyesno_step). cbv beta iota.
      erewrite bind_step; [reflexivity|].
      by apply (save_failed_then_cancelled _ _ p path rest). }
  cbn [negb]. cbv beta iota.
  erewrite bind_step; [|apply the_page_Some; cbn [world pages]; apply lookup_insert_eq].
  done.
Qed.

Lemma run_after_failed_save_witness :
  pages (world (one_tab edited
                  [YesNo true; Written WriteError; SaveAsName []])) !! 0
  = Some edited
  ∧ page_path edited = Some (text "/home/a.py")
  ∧ ¬ unmodified edited
  ∧ run 0 (one_tab edited [YesNo true; Written WriteError; SaveAsName []])
    = Fail TypeError.
Proof.
  set (s := one_tab edited _).
  assert (pages (world s) !! 0 = Some edited) as Hp by reflexivity.
  assert (¬ unmodified edited) as Hmod by (by intros [=]).
  split; [exact Hp|]. split; [reflexivity|]. split; [exact Hmod|].
  exact (run_after_failed_save 0 s edited (text "/home/a.py") [] Hp eq_refl Hmod
           eq_refl).
Defined.

(** X14. Leaving the program from a sound notebook, with a valid catalog,
    ends unless the answers run out. The window is destroyed at most once
    and as the last thing done, and only after every tab was closed: the
    notebook then holds one new empty untitled page. Otherwise a question
    was cancelled: the window stays, the tabs before the cancelled one are
    closed and that tab and those after it stay as they were listed. *)
Theorem exit_outcome (syntax : Syntax) (s : State) :
  valid_syntax syntax → world_ok (world s) → tabs (world s) ≠ [] →
  (∀ f, exit syntax s = Fail f → f = NoAnswer)
  ∧ ∀ u s',
      exit syntax s = Ret u s' →
      ∃ new,
        trace s' = trace s ++ new
        ∧ ((Destroy ∉ new) ∧ tabs (world s') ≠ []
           ∧ (∃ closed, tabs (world s) = closed ++ tabs (world s'))
           ∨ ∃ new0 m q,
               new = new0 ++ [Destroy] ∧ (Destroy ∉ new0)
               ∧ tabs (world s') = [m] ∧ (m ∉ tabs (world s))
               ∧ pages (world s') !! m = Some q ∧ blank_page q).
Proof.
  intros Hv Hok Hne. unfold exit. split.
  - intros f Hf. apply bind_Fail in Hf as [Hf|(w & s0 & Hw & Hf)]; [done|].
    injection Hw as <- <-. by eapply exit_loop_Fail.
  - intros u s' Hexit. apply bind_Ret in Hexit as (w & s0 & Hw & Hexit).
    injection Hw as <- <-.
    destruct (exit_loop_spec _ _ _ _ _ Hv Hok eq_refl Hexit)
      as (new & Hnew & Hcase).
    exists new. split; [done|].
    destruct Hcase as [?|(new0 & -> & Hnd & [[? _]|(m & q & Hm & Hle & Hq & Hb)])];
      [by left|done|].
    right. exists new0, m, q. split_and!; try done.
    intros Hin. destruct (proj2 Hok m Hin) as [? _]. lia.
Qed.

Lemma exit_outcome_witness :
  valid_syntax spec_syntax
  ∧ world_ok (world (two_tabs edited draft
                       [YesNoCancel (Some false); YesNoCancel (Some true);
                        SaveAsName (text "b.py"); Written Wrote]))
  ∧ tabs (world (two_tabs edited draft
                   [YesNoCancel (Some false); YesNoCancel (Some true);
                    SaveAsName (text "b.py"); Written Wrote])) ≠ []
  ∧ ∃ s',
      exit spec_syntax
        (two_tabs edited draft
           [YesNoCancel (Some false); YesNoCancel (Some true);
            SaveAsName (text "b.py"); Written Wrote])
      = Ret () s'
      ∧ tabs (world s') = [2]
      ∧ trace s' = [WriteFile (text "b.py") (text "x = 1"); Destroy]
      ∧ ∀ f, exit spec_syntax
               (two_tabs edited draft
                  [YesNoCancel (Some false); YesNoCancel (Some true);
                   SaveAsName (text "b.py"); Written Wrote])
             = Fail f → f = NoAnswer.
Proof.
  set (s := two_tabs edited draft _).
  assert (tabs (world s) ≠ []) as Hne by done.
  split; [exact spec_syntax_valid|]. split; [apply two_tabs_ok|].
  split; [exact Hne|].
  eexists. split; [vm_compute; reflexivity|].
  split; [reflexivity|]. split; [reflexivity|].
  exact (proj1 (exit_outcome spec_syntax s spec_syntax_valid (two_tabs_ok _ _ _)
                  Hne)).
Defined.

(** X15. Opening a path in a sound notebook, with a valid catalog, ends
    unless the answers run out. If a tab has the path, the first such tab
    is selected and nothing else changes: no file is read. Otherwise the
    file is read once; when that fails only the error box is shown; when it
    succeeds a new page is added as the last tab and selected, with the
    path, titled with the file name, holding the text of the file up to its
    first NUL and keeping the whole text as its saved text; no other page
    changes, and the first tab is removed exactly when it is empty and has
    no path. *)
Theorem openFile_outcome (syntax : Syntax) (path : list ascii) (s : State) :
  valid_syntax syntax → world_ok (world s) →
  (∀ f, openFile syntax path s = Fail f → f = NoAnswer)
  ∧ ∀ u s',
      openFile syntax path s = Ret u s' →
      (∃ before n after p,
         tabs (world s) = before ++ n :: after
         ∧ pages (world s) !! n = Some p ∧ page_path p = Some path
         ∧ not_open path before (world s)
         ∧ s' = mkState (mkWorld (pages (world s)) (tabs (world s)) (Some n)
                           (fresh (world s)))
                  (script s) (trace s))
      ∨ not_open path (tabs (world s)) (world s)
        ∧ ((∃ r, script s = FileRead r :: script s'
                 ∧ (r = DecodeError ∨ r = OpenError)
                 ∧ world s' = world s ∧ trace s' = trace s ++ [ShowError])
           ∨ ∃ cont q,
               script s = FileRead (Content cont) :: script s'
               ∧ trace s' = trace s
               ∧ pages (world s') !! fresh (world s) = Some q
               ∧ contents (page_text q) = until_nul cont
               ∧ page_saved q = cont
               ∧ page_path q = Some path ∧ tab_title q = basename path
               ∧ selected (world s') = Some (fresh (world s))
               ∧ fresh (world s') = S (fresh (world s))
               ∧ (∀ n, n ≠ fresh (world s) →
                       pages (world s') !! n = pages (world s) !! n)
               ∧ match tabs (world s) with
                 | first :: rest =>
                     ∃ p0, pages (world s) !! first = Some p0
                           ∧ tabs (world s')
                             = (if decide (placeholder p0) then rest
                                else first :: rest) ++ [fresh (world s)]
                 | [] => tabs (world s') = [fresh (world s)]
                 end).
Proof.
  intros Hv Hok. split; [intros f; by apply openFile_Fail|].
  intros u s'. by apply openFile_spec.
Qed.

Lemma openFile_outcome_witness :
  valid_syntax spec_syntax
  ∧ world_ok (world (one_tab blank [FileRead (Content (text "for x"))]))
  ∧ ∃ s',
      openFile spec_syntax (text "/home/b.py")
        (one_tab blank [FileRead (Content (text "for x"))])
      = Ret () s'
      ∧ tabs (world s') = [1]
      ∧ (tab_title <$> pages (world s') !! 1) = Some (text "b.py")
      ∧ ∀ f, openFile spec_syntax (text "/home/b.py")
               (one_tab blank [FileRead (Content (text "for x"))])
             = Fail f → f = NoAnswer.
Proof.
  split; [exact spec_syntax_valid|]. split; [apply one_tab_ok|].
  eexists. split; [vm_compute; reflexivity|].
  split; [reflexivity|]. split; [reflexivity|].
  exact (proj1 (openFile_outcome spec_syntax (text "/home/b.py")
                  (one_tab blank [FileRead (Content (text "for x"))])
                  spec_syntax_valid (one_tab_ok _ _))).
Defined.

(** * What the program makes of a transcript *)

Section said_facts.
Implicit Types (transcript pat : list ascii).

Lemma said_clean transcript pat :
  pat ∈ phrases → ¬ substring pat (said transcript).
Proof.
  unfold phrases, said. rewrite !elem_of_cons.
  intros [->|[->|[->|[->|[]%elem_of_nil]]]] Hsub.
  - do 3 (apply replace_no_new in Hsub;
          [|by apply (bool_decide_unpack _)]).
    revert Hsub. apply replace_removes; [done|by apply (bool_decide_unpack _)].
  - do 2 (apply replace_no_new in Hsub;
          [|by apply (bool_decide_unpack _)]).
    revert Hsub. apply replace_removes; [done|by apply (bool_decide_unpack _)].
  - apply replace_no_new in Hsub; [|by apply (bool_decide_unpack _)].
    revert Hsub. apply replace_removes; [done|by apply (bool_decide_unpack _)].
  - revert Hsub. apply replace_removes; [done|by apply (bool_decide_unpack _)].
Qed.

End said_facts.

(** X16. Whatever is recognised, the text the program goes on with holds
    none of the phrases it replaces by a sign: open bracket, close bracket,
    colon and comma cannot reach the editor as words. *)
Theorem said_has_no_phrase (transcript : list ascii) :
  Forall (λ pat, ¬ substring pat (said transcript)) phrases.
Proof. apply Forall_forall. intros pat. apply said_clean. Qed.

(** X17. With a valid catalog, a transcript that holds the word type
    followed by a space makes the program insert at the cursor exactly what
    follows the first such word, and move the cursor behind it; the pass
    that follows adds no indentation. What is inserted holds none of the
    replaced phrases. *)
Theorem type_command_inserts (syntax : Syntax) (transcript : list ascii)
    (t : Tk.Text) :
  valid_syntax syntax →
  contains (text "type ") (said transcript) = true →
  ∃ pre t',
    said transcript = pre ++ text "type " ++ dictated (said transcript)
    ∧ (∀ pre' post',
         said transcript = pre' ++ text "type " ++ post' →
         length pre ≤ length pre')
    ∧ type_command syntax (said transcript) t = Done t'
    ∧ Tk.chars t'
      = take (Tk.insert t) (Tk.chars t) ++ dictated (said transcript)
        ++ drop (Tk.insert t) (Tk.chars t)
    ∧ Tk.insert t'
      = Tk.insert t `min` length (Tk.chars t)
        + length (dictated (said transcript))
    ∧ Forall (λ pat, ¬ substring pat (dictated (said transcript))) phrases.
Proof.
  intros Hv Hin. unfold contains, dictated, find in *.
  destruct (find_from (text "type ") (said transcript) 0) as [j|] eqn:Hfind;
    [|done].
  apply find_from_Some in Hfind as (_ & Hj & Hstart & Hfirst).
  rewrite Nat.sub_0_r in Hj, Hstart, Hfirst.
  apply starts_with_prefix in Hstart as [post Hpost].
  assert (drop (j + 5) (said transcript) = post) as Hdrop.
  { by rewrite <- drop_drop, Hpost. }
  rewrite Hdrop.
  assert (said transcript = take j (said transcript) ++ text "type " ++ post)
    as Hsaid by (by rewrite <- Hpost, take_drop).
  destruct (syntaxHighlight_frame syntax None
              (Tk.insert_at_cursor post t) Hv) as (t' & Hdone & Hc & Hi).
  exists (take j (said transcript)), t'. unfold type_command, dictated, find.
  split; [done|]. split.
  { intros pre' post' Hocc.
    rewrite length_take, Nat.min_l by done.
    destruct (decide (j ≤ length pre')) as [|Hlt]; [done|].
    specialize (Hfirst (length pre') ltac:(lia)).
    rewrite Hocc, drop_app_length in Hfirst.
    assert (starts_with (text "type ") (text "type " ++ post') = true) as Hyes.
    { apply starts_with_prefix. by exists post'. }
    congruence. }
  assert (find_from (text "type ") (said transcript) 0 = Some j) as ->.
  { apply find_from_Some. rewrite !Nat.sub_0_r. split_and!; [lia|done| |done].
    apply starts_with_prefix. by exists post. }
  rewrite Hdrop. split; [done|].
  cbn [auto_indent] in Hc, Hi. rewrite Hc, Hi. split.
  { cbn [Tk.insert_at_cursor Tk.chars].
    destruct (decide (Tk.insert t ≤ length (Tk.chars t))).
    - by rewrite Nat.min_l.
    - rewrite Nat.min_r by lia.
      by rewrite !take_ge, !drop_ge by lia. }
  split; [done|].
  apply Forall_forall. intros pat Hpat Hsub. apply (said_clean transcript pat Hpat).
  rewrite Hsaid. apply substring_app_r, (substring_app_r _ (text "type ")).
  exact Hsub.
Qed.

Lemma type_command_inserts_witness :
  valid_syntax spec_syntax
  ∧ contains (text "type ") (said (text "please type for x colon")) = true
  ∧ dictated (said (text "please type for x colon")) = text "for x :"
  ∧ ∃ pre t',
      said (text "please type for x colon")
      = pre ++ text "type " ++ dictated (said (text "please type for x colon"))
      ∧ (∀ pre' post',
           said (text "please type for x colon")
           = pre' ++ text "type " ++ post' →
           length pre ≤ length pre')
      ∧ type_command spec_syntax (said (text "please type for x colon"))
          (untagged (text "ab") 1)
        = Done t'
      ∧ Tk.chars t'
        = take (Tk.insert (untagged (text "ab") 1))
            (Tk.chars (untagged (text "ab") 1))
          ++ dictated (said (text "please type for x colon"))
          ++ drop (Tk.insert (untagged (text "ab") 1))
               (Tk.chars (untagged (text "ab") 1))
      ∧ Tk.insert t'
        = Tk.insert (untagged (text "ab") 1)
          `min` length (Tk.chars (untagged (text "ab") 1))
          + length (dictated (said (text "please type for x colon")))
      ∧ Forall
          (λ pat,
             ¬ substring pat (dictated (said (text "please type for x colon"))))
          phrases.
Proof.
  split; [exact spec_syntax_valid|]. split; [reflexivity|].
  split; [reflexivity|].
  exact (type_command_inserts spec_syntax (text "please type for x colon")
           (untagged (text "ab") 1) spec_syntax_valid eq_refl).
Defined.
